(** * Call session orchestrator: wake debouncing, audio relay, agent turns, playback

A shallow embedding of the orchestration code of the telephony bridge
(the server module with [handleWake], [doWake], [respondWithTts] and the
[/audio/:id] route, and [src/elevenlabs.js] with [ElevenLabsClient] and
[ElevenLabsAgentClient]), with the properties of its specification.

JavaScript [Map]s are finite maps ([gmap]); timestamps returned by
[Date.now()] are integers ([Z], milliseconds); the Node event loop is a
queue of pending timers together with the handlers it runs. *)

From stdpp Require Import gmap strings list fin_maps sorting.
From Stdlib Require Import ZArith Lia Ascii DecimalString.

Local Open Scope Z_scope.

(** ** Timers of the event loop *)

Module Timers.

(** A pending [setTimeout]: the handle returned to the caller, the time at
  which the loop may run the callback, and what the callback closes over. *)
Record timer (A : Type) := Timer { tid : nat; deadline : Z; callback : A }.
Arguments Timer {A} _ _ _.
Arguments tid {A} _.
Arguments deadline {A} _.
Arguments callback {A} _.

Section Queue.
Context {A : Type}.

(** [setTimeout(cb, delay)] called when the clock reads [now]; timers are
    kept in creation order. *)
Definition setTimeout (id : nat) (now delay : Z) (cb : A)
    (q : list (timer A)) : list (timer A) :=
  q ++ [Timer id (now + delay) cb].

(** [clearTimeout(handle)]. *)
Definition clearTimeout (id : nat) (q : list (timer A)) : list (timer A) :=
  filter (λ t, tid t ≠ id) q.

(** The pending timer with a given handle, if it has neither run nor been
    cleared. *)
Definition pending (id : nat) (q : list (timer A)) : option (timer A) :=
  head (filter (λ t, tid t = id) q).

(** The timers the loop runs when the clock reaches [t]. *)
Definition due (t : Z) (q : list (timer A)) : list (timer A) :=
  filter (λ tm, deadline tm ≤ t) q.

End Queue.

#[global] Instance timer_eq_dec {A} `{EqDecision A} : EqDecision (timer A).
Proof. solve_decision. Defined.

End Timers.

Import Timers.

(** ** JavaScript values *)

Module JS.

(** Truthiness of a value that is a string, [null] or [undefined]: only a
    non-empty string is truthy. *)
Definition truthy (v : option string) : bool :=
  match v with
  | Some s => negb (String.eqb s "")
  | None => false
  end.

(** [a || b] on such values. *)
Definition or_else (a b : option string) : option string :=
  if truthy a then a else b.

(** [s || null] for a string [s]. *)
Definition or_null (s : string) : option string :=
  if String.eqb s "" then None else Some s.

(** A number in a template literal: its decimal digits. *)
Definition number_to_string (n : Z) : string :=
  NilEmpty.string_of_int (Z.to_int n).

(** The string without its first [n] characters. *)
Fixpoint skip (n : nat) (s : string) : string :=
  match n, s with
  | O, _ => s
  | S n, String _ s => skip n s
  | S _, EmptyString => EmptyString
  end.

(** [s.replace(pattern, replacement)] for a string pattern and a replacement
    without [$]: the first occurrence is replaced. *)
Fixpoint replace (pattern replacement s : string) : string :=
  if String.prefix pattern s
  then replacement +:+ skip (String.length pattern) s
  else match s with
       | EmptyString => EmptyString
       | String c s => String c (replace pattern replacement s)
       end.

(** Whether a character occurs in a string. *)
Fixpoint has_char (c : Ascii.ascii) (s : string) : bool :=
  match s with
  | EmptyString => false
  | String a s => Ascii.eqb a c || has_char c s
  end.

(** The digits of base 36, [0-9a-z], which [toString(36)] writes. *)
Definition base36_char (c : Ascii.ascii) : bool :=
  let n := Ascii.nat_of_ascii c in
  (Nat.leb 48 n && Nat.leb n 57) || (Nat.leb 97 n && Nat.leb n 122).

Fixpoint base36 (s : string) : bool :=
  match s with
  | EmptyString => true
  | String a s => base36_char a && base36 s
  end.

End JS.


(** ** Wake debouncer: [handleWake], [doWake] and the partial-wake timer *)

Module Wake.

(** The literal [8000] of the throttle test and the [2500] of the partial
    timer. *)
Definition THROTTLE_MS : Z := 8000.
Definition DEBOUNCE_MS : Z := 2500.

(** A dispatched wake: a call of [doWake(state, text)], stamped with the
    [Date.now()] that [doWake] records in [lastWake]. What [doWake] does
    afterwards (agent turn, playback) touches neither [lastWake] nor
    [partialWakeTimers]. *)
Record trigger := Trigger {
  trig_call : string;
  trig_text : string;
  trig_time : Z
}.

(** The module-level maps [lastWake] (callSid -> timestamp) and
    [partialWakeTimers] (callSid -> { timer, text }), and the loop's pending
    timers. A timer callback closes over the session and reads its callSid
    when it runs; the callSid of a session is set by the media stream's
    start message, before its recognition connection is opened and so before
    any wake of the session, and is not reassigned afterwards, so a timer
    carries the callSid it was set for. A session without callSid uses the
    key [null], which [Map] treats as one more key. *)
Record state := State {
  lastWake : gmap string Z;
  partialWakeTimers : gmap string (nat * string);
  timers : list (timer string);
  next_timer : nat
}.

Definition init : state := State ∅ ∅ [] 0%nat.

(** [lastWake.get(state.callSid) || 0] *)
Definition last_of (st : state) (cs : string) : Z :=
  default 0 (lastWake st !! cs).

(** [doWake]: its first statement, [lastWake.set(state.callSid, Date.now())],
    runs synchronously in the caller's turn; [now2] is that clock reading. *)
Definition doWake (cs text : string) (now2 : Z) (st : state)
    : state * list trigger :=
  (State (<[cs := now2]> (lastWake st)) (partialWakeTimers st)
         (timers st) (next_timer st),
   [Trigger cs text now2]).

(** [handleWake(state, text, isCommitted)]; [now] is the [Date.now()] read
    on entry. *)
Definition handleWake (cs text : string) (isCommitted : bool)
    (now now2 : Z) (st : state) : state * list trigger :=
  let last := last_of st cs in
  if bool_decide (now - last < THROTTLE_MS) then (st, [])
  else if negb isCommitted then
    let q := match partialWakeTimers st !! cs with
             | Some existing => clearTimeout (fst existing) (timers st)
             | None => timers st
             end in
    let timer := next_timer st in
    (State (lastWake st)
           (<[cs := (timer, text)]> (partialWakeTimers st))
           (setTimeout timer now DEBOUNCE_MS cs q)
           (S timer),
     [])
  else
    let st1 := match partialWakeTimers st !! cs with
               | Some existing =>
                   State (lastWake st) (delete cs (partialWakeTimers st))
                         (clearTimeout (fst existing) (timers st))
                         (next_timer st)
               | None => st
               end in
    let st2 := State (<[cs := now]> (lastWake st1)) (partialWakeTimers st1)
                     (timers st1) (next_timer st1) in
    doWake cs text now2 st2.

(** The callback given to [setTimeout] in [handleWake], run for the session
    with callSid [cs]; [now] is the [Date.now()] of the throttle re-check. *)
Definition onPartialTimer (cs : string) (now now2 : Z) (st : state)
    : state * list trigger :=
  let pending := partialWakeTimers st !! cs in
  let st1 := State (lastWake st) (delete cs (partialWakeTimers st))
                   (timers st) (next_timer st) in
  let stillThrottled := bool_decide (now - last_of st1 cs < THROTTLE_MS) in
  match pending with
  | Some p => if negb stillThrottled then doWake cs (snd p) now2 st1
              else (st1, [])
  | None => (st1, [])
  end.

(** What the loop can run: a wake reported by the transcript classifier, or
    a timer. A handle that was cleared or has already run is no longer
    pending and nothing happens. Each event carries the clock readings its
    handler takes. *)
Inductive event :=
| EvWake (cs text : string) (isCommitted : bool) (now now2 : Z)
| EvTimer (id : nat) (now now2 : Z).

Definition step (st : state) (e : event) : state * list trigger :=
  match e with
  | EvWake cs text isCommitted now now2 =>
      handleWake cs text isCommitted now now2 st
  | EvTimer id now now2 =>
      match pending id (timers st) with
      | Some tm =>
          onPartialTimer (callback tm) now now2
            (State (lastWake st) (partialWakeTimers st)
                   (clearTimeout id (timers st)) (next_timer st))
      | None => (st, [])
      end
  end.

(** A sequence of events, with the wakes it dispatches in order. *)
Fixpoint exec (st : state) (evs : list event) : state * list trigger :=
  match evs with
  | [] => (st, [])
  | e :: evs =>
      let r := step st e in
      let r' := exec (fst r) evs in
      (fst r', snd r ++ snd r')
  end.

(** Within one handler the clock does not run backwards. *)
Definition clock_sane (e : event) : Prop :=
  match e with
  | EvWake _ _ _ now now2 => now ≤ now2
  | EvTimer _ now now2 => now ≤ now2
  end.

(** *** The loop with an ideal clock

    Wakes arrive at given times; a pending timer runs when the clock reaches
    its deadline, before an input arriving at that same instant; a handler
    runs in no time. *)

Inductive input := InWake (cs text : string) (isCommitted : bool).

Definition in_call (i : input) : string :=
  match i with InWake cs _ _ => cs end.

Definition fire (tm : timer string) : event :=
  EvTimer (tid tm) (deadline tm) (deadline tm).

Definition advance (t : Z) (st : state) : state * list trigger :=
  exec st (fire <$> due t (timers st)).

Fixpoint run (st : state) (ins : list (Z * input)) (horizon : Z)
    : list trigger :=
  match ins with
  | [] => snd (advance horizon st)
  | (t, InWake cs text isCommitted) :: ins =>
      let r1 := advance t st in
      let r2 := handleWake cs text isCommitted t t (fst r1) in
      snd r1 ++ snd r2 ++ run (fst r2) ins horizon
  end.

(** The wakes of one call. *)
Definition of_call (cs : string) (trs : list trigger) : list trigger :=
  filter (λ tr, trig_call tr = cs) trs.

(** *** Predicates of the statements *)

(** No two wakes of the same call, in dispatch order, are closer than the
    throttle window. *)
Definition spaced (trs : list trigger) : Prop :=
  ∀ (i j : nat) a b,
    (i < j)%nat → trs !! i = Some a → trs !! j = Some b →
    trig_call a = trig_call b →
    trig_time a + THROTTLE_MS ≤ trig_time b.

(** [lastWake] holds, for each call, the time of its latest wake. *)
Definition tracks (st : state) (trs : list trigger) : Prop :=
  ∀ cs, lastWake st !! cs = trig_time <$> last (of_call cs trs).

(** and no earlier wake of the call is later than that. *)
Definition dominated (st : state) (trs : list trigger) : Prop :=
  ∀ a, a ∈ trs → trig_time a ≤ last_of st (trig_call a).

(** Every recorded partial has its pending timer, every pending timer is
    the one recorded for its call, and handles are never reused. *)
Record wf (st : state) : Prop := {
  wf_entry : ∀ k p, partialWakeTimers st !! k = Some p →
             ∃ d, Timer (fst p) d k ∈ timers st;
  wf_timer : ∀ tm, tm ∈ timers st →
             ∃ text, partialWakeTimers st !! callback tm = Some (tid tm, text);
  wf_fresh : ∀ tm, tm ∈ timers st → (tid tm < next_timer st)%nat;
  wf_nodup : NoDup (tid <$> timers st)
}.

(** An event of another call: a wake of another call, or a timer whose
    callback belongs to another call. *)
Definition foreign (cs : string) (st : state) (e : event) : Prop :=
  match e with
  | EvWake k _ _ _ _ => k ≠ cs
  | EvTimer id _ _ => ∀ tm, tm ∈ timers st → tid tm = id → callback tm ≠ cs
  end.

(** The call has no partial on record, or has one with its timer pending. *)
Definition idle (cs : string) (st : state) : Prop :=
  partialWakeTimers st !! cs = None.

Definition armed (cs : string) (st : state) (id : nat) (text : string)
    (d : Z) : Prop :=
  partialWakeTimers st !! cs = Some (id, text) ∧ Timer id d cs ∈ timers st.

(** The wakes of call [cs] among timed inputs. *)
Definition inputs_of (cs : string) (ins : list (Z * input))
    : list (Z * input) :=
  filter (λ x, in_call (snd x) = cs) ins.

(** A run of partial wakes of call [cs], each with its arrival time and
    text. *)
Definition partials (cs : string) (b : list (Z * string))
    : list (Z * input) :=
  (λ x, (fst x, InWake cs (snd x) false)) <$> b.

(** Each partial arrives less than the debounce delay after the one before
    it, that is while the timer of the one before is still pending. *)
Fixpoint close (prev : Z) (b : list (Z * string)) : Prop :=
  match b with
  | [] => True
  | x :: b => fst x - prev < DEBOUNCE_MS ∧ close (fst x) b
  end.

(** The last partial of the run [x :: b]. *)
Definition final (x : Z * string) (b : list (Z * string)) : Z * string :=
  default x (last b).

(** The debounce property read for every run of partials, whatever their
    spacing: one wake, carrying the last text, 2500 ms after the last
    partial. *)
Definition every_partial_run_fires_last : Prop :=
  ∀ cs x b h,
    StronglySorted Z.le (fst <$> (x :: b)) →
    fst (final x b) + DEBOUNCE_MS ≤ h →
    of_call cs (run init (partials cs (x :: b)) h)
    = [Trigger cs (snd (final x b)) (fst (final x b) + DEBOUNCE_MS)].

(** An event that is not a wake of call [cs]. *)
Definition not_wake_of (cs : string) (e : event) : Prop :=
  match e with
  | EvWake k _ _ _ _ => k ≠ cs
  | EvTimer _ _ _ => True
  end.

End Wake.

(** ** WebSocket connections *)

Module WebSocket.

(** [ws.readyState] of the [ws] library. *)
Inductive readyState := CONNECTING | OPEN | CLOSING | CLOSED.

#[global] Instance readyState_eq_dec : EqDecision readyState.
Proof. solve_decision. Defined.

(** [this.ws?.readyState === WebSocket.OPEN], where [this.ws] may be
    [null]. *)
Definition is_open (ws : option readyState) : bool :=
  bool_decide (ws = Some OPEN).

End WebSocket.

Import WebSocket.

(** ** Audio relay: [ElevenLabsClient] *)

Module Relay.

(** An audio frame: the [Buffer] handed to [sendAudio]. *)
Definition frame : Type := list Byte.byte.

(** The [input_audio_chunk] message written to the socket; [audio] is sent
    base64-encoded. *)
Record chunk := Chunk {
  audio : frame;
  commit : bool;
  sample_rate : Z
}.

(** The fields of the client that the relay reads or writes, with the
    messages written to the socket so far, oldest first. [configured] is
    [this.url && this.apiKey]; [connectedPromise] tells whether the field is
    non-null. *)
Record client := Client {
  configured : bool;
  sampleRate : Z;
  ws : option readyState;
  ready : bool;
  connectedPromise : bool;
  pending : list frame;
  sent : list chunk
}.

(** The constructor: no socket, not ready, empty queue. *)
Definition new (configured : bool) (sampleRate : Z) : client :=
  Client configured sampleRate None false false [] [].

Definition input_audio_chunk (c : client) (buf : frame) : chunk :=
  Chunk buf false (sampleRate c).

(** [this.ws.send(msg)] *)
Definition ws_send (msg : chunk) (c : client) : client :=
  Client (configured c) (sampleRate c) (ws c) (ready c) (connectedPromise c)
         (pending c) (sent c ++ [msg]).

(** [sendAudio(buffer)] *)
Definition sendAudio (buffer : frame) (c : client) : client :=
  if ready c && is_open (ws c) then ws_send (input_audio_chunk c buffer) c
  else Client (configured c) (sampleRate c) (ws c) (ready c)
              (connectedPromise c) (pending c ++ [buffer]) (sent c).

(** The loop of [flushPending]: [shift] the oldest frame and send it, until
    the queue is empty. *)
Fixpoint flush_loop (queue : list frame) (c : client) : client :=
  match queue with
  | [] => Client (configured c) (sampleRate c) (ws c) (ready c)
                 (connectedPromise c) [] (sent c)
  | buf :: queue => flush_loop queue (ws_send (input_audio_chunk c buf) c)
  end.

(** [flushPending()] *)
Definition flushPending (c : client) : client :=
  if negb (ready c) || negb (is_open (ws c)) then c
  else flush_loop (pending c) c.

(** [connect()], up to the creation of the socket; the handlers it installs
    are [on_open], [on_close] and [on_error] below. *)
Definition connect (c : client) : client :=
  if negb (configured c) then c
  else if connectedPromise c then c
  else Client (configured c) (sampleRate c) (Some CONNECTING) (ready c) true
              (pending c) (sent c).

(** The socket's ['open'] event: the socket is open and the handler runs. *)
Definition on_open (c : client) : client :=
  flushPending
    (Client (configured c) (sampleRate c) (Some OPEN) true (connectedPromise c)
            (pending c) (sent c)).

(** The socket's ['close'] event. *)
Definition on_close (c : client) : client :=
  Client (configured c) (sampleRate c) (Some CLOSED) false false [] (sent c).

(** The socket's ['error'] event; the library has put the socket in the
    closing state when it emits it. *)
Definition on_error (c : client) : client :=
  Client (configured c) (sampleRate c) (Some CLOSING) false false
         (pending c) (sent c).

(** [close()] *)
Definition close (c : client) : client :=
  Client (configured c) (sampleRate c)
         (if is_open (ws c) then Some CLOSING else ws c)
         false false [] (sent c).

Inductive event :=
| Connect
| WsOpen
| WsClose
| WsError
| Close
| SendAudio (buffer : frame).

Definition step (c : client) (e : event) : client :=
  match e with
  | Connect => connect c
  | WsOpen => on_open c
  | WsClose => on_close c
  | WsError => on_error c
  | Close => close c
  | SendAudio buffer => sendAudio buffer c
  end.

Definition exec (c : client) (evs : list event) : client :=
  foldl step c evs.

(** The frames handed to [sendAudio] in a sequence of events, in order. *)
Definition frames_of (evs : list event) : list frame :=
  omap (λ e, match e with SendAudio buf => Some buf | _ => None end) evs.

(** Events during which the connection does not become ready and is not
    closed: calls of [sendAudio] and of [connect], and socket errors. *)
Definition before_ready (e : event) : Prop :=
  match e with
  | SendAudio _ | Connect | WsError => True
  | WsOpen | WsClose | Close => False
  end.

End Relay.

(** ** Agent turns: [ElevenLabsAgentClient] *)

Module Agent.

(** The wait of [sendText], the literal [15000]. *)
Definition WAIT_MS : Z := 15000.

(** [parsed.text_response_part]: its [type] and [text]. *)
Record part := Part { part_type : string; part_text : option string }.

(** A message of the agent socket after [JSON.parse], by [parsed.type], with
    the field each branch of [handleMessage] reads ([None] when the field is
    missing). *)
Inductive message :=
| not_json
| conversation_initiation_metadata (conversation_id : option string)
| agent_chat_response_part (text_response_part : option part)
| agent_response (agent_response_text : option string)
| audio (audio_base_64 : option string)
| ping (event_id : option Z)
| other_type.

(** What the client does to the outside: messages written to the socket,
    settling the promise returned by a call of [sendText] (promises are
    numbered in the order of the calls), and calls of the registered
    handlers. *)
Inductive effect :=
| SendInitData
| SendUserMessage (text : string)
| SendPong (event_id : option Z)
| Resolve (promise : nat) (value : option string)
| Reject (promise : nat)
| Subsequent (response : string)
| Response (text : string)
| Audio (audio_base_64 : string).

(** The fields of the client. [connectedPromise] is [None] for [null],
    [Some false] for a promise still pending and [Some true] for a resolved
    one; the three handler fields tell whether a handler is registered;
    [awaiting] holds the calls of [sendText] suspended at
    [await this.connect()]; [timers] are the pending timers of [sendText],
    which all run the same callback. *)
Record client := Client {
  has_dynamic_variables : bool;
  ws : option readyState;
  ready : bool;
  connectedPromise : option bool;
  conversationId : option string;
  responseHandler : bool;
  audioHandler : bool;
  subsequentHandler : bool;
  pendingResolve : option nat;
  responseBuffer : string;
  firstResolved : bool;
  awaiting : list (nat * string);
  timers : list (timer unit);
  next_timer : nat;
  next_promise : nat
}.

(** The constructor, followed by the registrations of handlers. *)
Definition new (vars onResponse onAudio onSubsequentResponse : bool) : client :=
  Client vars None false None None onResponse onAudio onSubsequentResponse
         None "" false [] [] 0%nat 0%nat.

Definition set_conn (w : option readyState) (r : bool) (p : option bool)
    (c : client) : client :=
  Client (has_dynamic_variables c) w r p (conversationId c)
         (responseHandler c) (audioHandler c) (subsequentHandler c)
         (pendingResolve c) (responseBuffer c) (firstResolved c)
         (awaiting c) (timers c) (next_timer c) (next_promise c).

Definition set_conversationId (v : option string) (c : client) : client :=
  Client (has_dynamic_variables c) (ws c) (ready c) (connectedPromise c) v
         (responseHandler c) (audioHandler c) (subsequentHandler c)
         (pendingResolve c) (responseBuffer c) (firstResolved c)
         (awaiting c) (timers c) (next_timer c) (next_promise c).

Definition set_turn (resolve : option nat) (buffer : string) (first : bool)
    (c : client) : client :=
  Client (has_dynamic_variables c) (ws c) (ready c) (connectedPromise c)
         (conversationId c)
         (responseHandler c) (audioHandler c) (subsequentHandler c)
         resolve buffer first
         (awaiting c) (timers c) (next_timer c) (next_promise c).

Definition set_awaiting (a : list (nat * string)) (c : client) : client :=
  Client (has_dynamic_variables c) (ws c) (ready c) (connectedPromise c)
         (conversationId c)
         (responseHandler c) (audioHandler c) (subsequentHandler c)
         (pendingResolve c) (responseBuffer c) (firstResolved c)
         a (timers c) (next_timer c) (next_promise c).

Definition set_timers (q : list (timer unit)) (n : nat) (c : client) : client :=
  Client (has_dynamic_variables c) (ws c) (ready c) (connectedPromise c)
         (conversationId c)
         (responseHandler c) (audioHandler c) (subsequentHandler c)
         (pendingResolve c) (responseBuffer c) (firstResolved c)
         (awaiting c) q n (next_promise c).

Definition set_next_promise (n : nat) (c : client) : client :=
  Client (has_dynamic_variables c) (ws c) (ready c) (connectedPromise c)
         (conversationId c)
         (responseHandler c) (audioHandler c) (subsequentHandler c)
         (pendingResolve c) (responseBuffer c) (firstResolved c)
         (awaiting c) (timers c) (next_timer c) n.

(** [this.ws.send(msg)]: the library writes the message if the socket is
    open and drops it if the socket is closing or closed. *)
Definition ws_send (msg : effect) (c : client) : list effect :=
  if is_open (ws c) then [msg] else [].

(** [sendInitData()] *)
Definition sendInitData (c : client) : list effect :=
  if negb (is_open (ws c)) then []
  else if negb (has_dynamic_variables c) then []
  else ws_send SendInitData c.

(** [connect()], up to the creation of the socket. *)
Definition connect (c : client) : client :=
  match connectedPromise c with
  | Some _ => c
  | None => set_conn (Some CONNECTING) (ready c) (Some false) c
  end.

(** [sendText(text)] from the statement after the [await], for the call
    whose promise is [promise]; [now] is the time at which its timer is
    set. *)
Definition sendText_body (promise : nat) (text : string) (now : Z)
    (c : client) : client * list effect :=
  let c1 := set_turn (pendingResolve c) "" false c in
  let out := ws_send (SendUserMessage text) c1 in
  let c2 := set_turn (Some promise) (responseBuffer c1) (firstResolved c1) c1 in
  (set_timers (setTimeout (next_timer c2) now WAIT_MS () (timers c2))
              (S (next_timer c2)) c2,
   out).

(** [sendText(text)]: the call runs on at once when the connection is ready
    and open, or when the promise of [connect()] is already resolved;
    otherwise it is suspended until that promise is settled. *)
Definition sendText (text : string) (now : Z) (c : client)
    : client * list effect :=
  let promise := next_promise c in
  let c := set_next_promise (S promise) c in
  if ready c && is_open (ws c) then sendText_body promise text now c
  else
    let c := connect c in
    match connectedPromise c with
    | Some true => sendText_body promise text now c
    | _ => (set_awaiting (awaiting c ++ [(promise, text)]) c, [])
    end.

(** The suspended calls of [sendText] run on, oldest first. *)
Fixpoint resume (calls : list (nat * string)) (now : Z) (c : client)
    : client * list effect :=
  match calls with
  | [] => (c, [])
  | call :: calls =>
      let r := sendText_body (fst call) (snd call) now c in
      let r' := resume calls now (fst r) in
      (fst r', snd r ++ snd r')
  end.

(** The socket's ['open'] event: the handler sets [ready], sends the
    initialization data and resolves the promise of [connect()]. *)
Definition on_open (now : Z) (c : client) : client * list effect :=
  let c1 := set_conn (Some OPEN) true (connectedPromise c) c in
  let out := sendInitData c1 in
  let c2 := set_conn (ws c1) (ready c1)
              (match connectedPromise c1 with
               | Some _ => Some true
               | None => None
               end) c1 in
  let r := resume (awaiting c2) now (set_awaiting [] c2) in
  (fst r, out ++ snd r).

(** The socket's ['close'] event. *)
Definition on_close (c : client) : client * list effect :=
  (set_conn (Some CLOSED) false None c, []).

(** The socket's ['error'] event: the promise of [connect()] is rejected,
    and with it the calls suspended on it. *)
Definition on_error (c : client) : client * list effect :=
  (set_awaiting [] (set_conn (Some CLOSING) false None c),
   (λ call, Reject (fst call)) <$> awaiting c).

(** [close()] *)
Definition close (c : client) : client * list effect :=
  (set_conn (if is_open (ws c) then Some CLOSING else ws c) false None c, []).

(** The callback of the timer set by [sendText]. *)
Definition on_timeout (c : client) : client * list effect :=
  match pendingResolve c with
  | Some resolve =>
      (set_turn None (responseBuffer c) true c,
       [Resolve resolve (JS.or_null (responseBuffer c))])
  | None => (c, [])
  end.

(** The branch of [handleMessage] for [agent_chat_response_part]. *)
Definition handle_part (p : option part) (c : client) : client * list effect :=
  match p with
  | None => (c, [])
  | Some p =>
      if String.eqb (part_type p) "start" then
        (set_turn (pendingResolve c) "" (firstResolved c) c, [])
      else if String.eqb (part_type p) "delta" && JS.truthy (part_text p) then
        (set_turn (pendingResolve c)
                  (responseBuffer c +:+ default "" (part_text p))
                  (firstResolved c) c, [])
      else if String.eqb (part_type p) "stop"
              && negb (String.eqb (responseBuffer c) "") then
        let response := responseBuffer c in
        match pendingResolve c with
        | Some resolve =>
            (set_turn None "" true c, [Resolve resolve (Some response)])
        | None =>
            if firstResolved c && subsequentHandler c then
              (set_turn None "" (firstResolved c) c, [Subsequent response])
            else (set_turn None "" (firstResolved c) c, [])
        end
      else (c, [])
  end.

(** [handleMessage(raw)] *)
Definition handleMessage (m : message) (c : client) : client * list effect :=
  match m with
  | not_json => (c, [])
  | conversation_initiation_metadata conversation_id =>
      (set_conversationId conversation_id c, [])
  | agent_chat_response_part p => handle_part p c
  | agent_response agent_response_text =>
      let text := default "" agent_response_text in
      let out := if responseHandler c then [Response text] else [] in
      if negb (String.eqb text "") then
        match pendingResolve c with
        | Some resolve =>
            (set_turn None (responseBuffer c) true c,
             out ++ [Resolve resolve (Some text)])
        | None =>
            if firstResolved c && subsequentHandler c then
              (c, out ++ [Subsequent text])
            else (c, out)
        end
      else (c, out)
  | audio audio_base_64 =>
      if JS.truthy audio_base_64 && audioHandler c
      then (c, [Audio (default "" audio_base_64)])
      else (c, [])
  | ping event_id =>
      (c, match ws c with Some _ => ws_send (SendPong event_id) c | None => [] end)
  | other_type => (c, [])
  end.

(** What the loop can run for one client. *)
Inductive event :=
| Connect
| WsOpen
| WsClose
| WsError
| Close
| SendText (text : string)
| Message (m : message)
| Timeout (id : nat).

(** One event, run when the clock reads [now]. A timer that is no longer
    pending does not run. *)
Definition step (now : Z) (c : client) (e : event) : client * list effect :=
  match e with
  | Connect => (connect c, [])
  | WsOpen => on_open now c
  | WsClose => on_close c
  | WsError => on_error c
  | Close => close c
  | SendText text => sendText text now c
  | Message m => handleMessage m c
  | Timeout id =>
      match pending id (timers c) with
      | Some _ =>
          on_timeout (set_timers (clearTimeout id (timers c)) (next_timer c) c)
      | None => (c, [])
      end
  end.

Fixpoint exec (c : client) (evs : list (Z * event)) : client * list effect :=
  match evs with
  | [] => (c, [])
  | e :: evs =>
      let r := step (fst e) c (snd e) in
      let r' := exec (fst r) evs in
      (fst r', snd r ++ snd r')
  end.

(** *** The loop with an ideal clock: a pending timer runs when the clock
    reaches its deadline, before an event arriving at that same instant. *)

Definition fire (tm : timer unit) : Z * event :=
  (deadline tm, Timeout (tid tm)).

Definition advance (t : Z) (c : client) : client * list effect :=
  exec c (fire <$> due t (timers c)).

Fixpoint run (c : client) (ins : list (Z * event)) (horizon : Z)
    : client * list effect :=
  match ins with
  | [] => advance horizon c
  | e :: ins =>
      let r1 := advance (fst e) c in
      let r2 := step (fst e) (fst r1) (snd e) in
      let r3 := run (fst r2) ins horizon in
      (fst r3, snd r1 ++ snd r2 ++ snd r3)
  end.

(** *** Predicates of the statements *)

(** The streamed fragments that do not end a reply. *)
Inductive fragment := Start | Delta (text : string).

Definition fragment_message (f : fragment) : message :=
  agent_chat_response_part
    (Some (match f with
           | Start => Part "start" None
           | Delta text => Part "delta" (Some text)
           end)).

Definition stop_message : message :=
  agent_chat_response_part (Some (Part "stop" None)).

(** The reply assembled from fragments: a start marker empties it, a delta
    is appended. *)
Definition assemble (buffer : string) (fs : list fragment) : string :=
  foldl (λ b f, match f with Start => "" | Delta text => b +:+ text end)
        buffer fs.

(** Timed fragments as events of the loop. *)
Definition fragments (fs : list (Z * fragment)) : list (Z * event) :=
  (λ x, (fst x, Message (fragment_message (snd x)))) <$> fs.

(** The fragment a message adds to the reply, if it adds one: a start
    marker, or a delta with its text. *)
Definition fragment_of (m : message) : option fragment :=
  match m with
  | agent_chat_response_part (Some p) =>
      if String.eqb (part_type p) "start" then Some Start
      else if String.eqb (part_type p) "delta" then Delta <$> part_text p
      else None
  | _ => None
  end.

(** The messages that can end a wait: a stop marker, and an
    [agent_response] with a text. Every other message (start and delta
    fragments, pings, audio, metadata, an [agent_response] without text,
    unknown types, what is not JSON) is not one of them. *)
Definition settles (m : message) : bool :=
  match m with
  | agent_chat_response_part (Some p) => String.eqb (part_type p) "stop"
  | agent_response agent_response_text =>
      negb (String.eqb (default "" agent_response_text) "")
  | _ => false
  end.

(** Timed messages as events of the loop. *)
Definition messages (ms : list (Z * message)) : list (Z * event) :=
  (λ x, (fst x, Message (snd x))) <$> ms.

(** The effects that make a turn: the user message written, the promises
    settled and the calls of the subsequent-response handler. Pongs,
    initialization data and the calls of the response and audio handlers are
    not among them. *)
Definition turn (e : effect) : option effect :=
  match e with
  | SendUserMessage _ | Resolve _ _ | Reject _ | Subsequent _ => Some e
  | _ => None
  end.

(** What an effect delivers on the synchronous or on the asynchronous
    channel. *)
Definition delivered (e : effect) : option string :=
  match e with
  | Resolve _ (Some s) => Some s
  | Subsequent s => Some s
  | _ => None
  end.

(** The connection is ready and open. *)
Definition connected (c : client) : Prop :=
  ready c = true ∧ ws c = Some OPEN.

(** Promises are numbered apart: the registered resolver and the suspended
    calls belong to calls already made, and to different ones. *)
Definition promises_apart (c : client) : Prop :=
  (∀ p, pendingResolve c = Some p → (p < next_promise c)%nat ∧
                                    p ∉ (fst <$> awaiting c)) ∧
  (∀ p, p ∈ (fst <$> awaiting c) → (p < next_promise c)%nat).

(** The promise an effect settles. *)
Definition settled (e : effect) : option nat :=
  match e with
  | Resolve p _ => Some p
  | Reject p => Some p
  | _ => None
  end.

(** A promise that belongs to a call already made and is neither waited on
    through the registered resolver nor suspended. *)
Definition abandoned (p : nat) (c : client) : Prop :=
  (p < next_promise c)%nat ∧ pendingResolve c ≠ Some p ∧
  p ∉ (fst <$> awaiting c).

(** No timer of an earlier wait is due before the timer of a wait started
    at [t0]. *)
Definition no_earlier_timer (t0 : Z) (c : client) : Prop :=
  Forall (λ tm, t0 + WAIT_MS ≤ deadline tm) (timers c).

(** The wait read as resolving to an absent value whenever no stop marker
    arrives within the window. *)
Definition timeout_resolves_null : Prop :=
  ∀ c text t0 fs h,
    connected c → timers c = [] →
    Forall (λ x, t0 ≤ fst x < t0 + WAIT_MS) fs →
    t0 + WAIT_MS ≤ h →
    Resolve (next_promise c) None
    ∈ snd (run c ((t0, SendText text) :: fragments fs) h).

(** Overlapping sends read as rejected or queued: a send made while a wait
    is pending leaves the resolver and the reply buffer of that wait as they
    are. *)
Definition overlapping_sends_kept_apart : Prop :=
  ∀ c text now p,
    connected c → promises_apart c → pendingResolve c = Some p →
    pendingResolve (fst (step now c (SendText text))) = Some p ∧
    responseBuffer (fst (step now c (SendText text))) = responseBuffer c.

End Agent.

(** ** Playback: [respondWithTts] and the [/audio/:id] route *)

Module Playback.

(** The retention of a stored blob, [5 * 60 * 1000]. *)
Definition RETENTION_MS : Z := 5 * 60 * 1000.

Definition bytes : Type := list Byte.byte.

(** A value of [callMeta]: [{ from, conferenceSid, conferenceName }], each
    field a string, [null] or missing. *)
Record meta := Meta {
  from : option string;
  conferenceSid : option string;
  conferenceName : option string
}.

(** The environment: whether the telephony client could be built
    ([TWILIO_ACCOUNT_SID && TWILIO_AUTH_TOKEN]) and [PUBLIC_BASE_URL]. *)
Record config := Config {
  twilioClient : bool;
  PUBLIC_BASE_URL : option string
}.

(** The services outside: what each request answers. [None] and [false]
    stand for a request that throws. *)
Record world := World {
  synthesizeElevenlabs : string → option bytes;
  conferences_list : string → option (list string);
  conference_announce : string → string → bool;
  participant_announce : string → string → string → bool;
  call_update : string → string → bool
}.

(** What [respondWithTts] does, in order: warnings, and the requests with
    their outcome. *)
Inductive action :=
| Warn (message : string)
| Synthesize (text : string) (ok : bool)
| ListConferences (friendlyName : string) (ok : bool)
| ConferenceAnnounce (confSid url : string) (ok : bool)
| ParticipantAnnounce (confSid callSid url : string) (ok : bool)
| CallUpdate (callSid twiml : string) (ok : bool).

(** The promise of [respondWithTts]: fulfilled, or rejected by an exception
    that escapes it. *)
Inductive outcome := Fulfilled | Rejected.

(** The module-level maps [callMeta] and [audioStore], and the pending
    timers that delete stored blobs. *)
Record state := State {
  callMeta : gmap string meta;
  audioStore : gmap string bytes;
  timers : list (timer string);
  next_timer : nat
}.

Definition init : state := State ∅ ∅ [] 0%nat.

(** The identifier of a blob, [`${Date.now()}-${Math.random().toString(36).slice(2)}`];
    [random] is the string the random number yields. *)
Definition blob_id (now : Z) (random : string) : string :=
  JS.number_to_string now +:+ "-" +:+ random.

(** The last segment of the blob's URL, which the route receives as
    [req.params.id]. *)
Definition blob_param (id : string) : string := id +:+ ".mp3".

Definition blob_url (base id : string) : string :=
  base +:+ "/audio/" +:+ blob_param id.

Definition play_and_rejoin (url confName : string) : string :=
  "<Response><Play>" +:+ url +:+ "</Play><Dial><Conference>" +:+ confName
  +:+ "</Conference></Dial></Response>".

(** The look-up of the conference in progress by name: the identifier to
    use, the metadata to store if one was found, and what was done. *)
Definition lookup_conference (w : world) (callSid : string) (m : meta)
    (st : state) : option string * state * list action :=
  let confName := JS.or_else (conferenceName m) (Some callSid) in
  let confSid := conferenceSid m in
  if JS.truthy confName then
    let name := default "" confName in
    match conferences_list w name with
    | Some conferences =>
        match conferences with
        | sid :: _ =>
            (Some sid,
             State (<[callSid := Meta (from m) (Some sid) (conferenceName m)]>
                      (callMeta st))
                   (audioStore st) (timers st) (next_timer st),
             [ListConferences name true])
        | [] => (confSid, st, [ListConferences name true])
        end
    | None =>
        (confSid, st,
         [ListConferences name false; Warn "conference lookup failed"])
    end
  else (confSid, st, []).

(** The three ways of playing the blob, from the comment
    [Try conference announce, then participant announce, then TwiML fallback]. *)
Definition play (w : world) (callSid url confName : string)
    (confSid : option string) : outcome * list action :=
  let fallback :=
    let twiml := play_and_rejoin url confName in
    let ok := call_update w callSid twiml in
    (if ok then Fulfilled else Rejected,
     [Warn "respondWithTts: falling back to TwiML update";
      CallUpdate callSid twiml ok]) in
  if JS.truthy confSid then
    let sid := default "" confSid in
    if conference_announce w sid url
    then (Fulfilled, [ConferenceAnnounce sid url true])
    else if participant_announce w sid callSid url
    then (Fulfilled,
          [ConferenceAnnounce sid url false;
           Warn "conference announce failed, trying participant";
           ParticipantAnnounce sid callSid url true])
    else (fst fallback,
          [ConferenceAnnounce sid url false;
           Warn "conference announce failed, trying participant";
           ParticipantAnnounce sid callSid url false;
           Warn "participant announce failed"] ++ snd fallback)
  else fallback.

(** [respondWithTts(callSid, text)], run when the clock reads [now] and the
    random number yields [random]. *)
Definition respondWithTts (cfg : config) (w : world)
    (callSid : option string) (text : string) (now : Z) (random : string)
    (st : state) : state * outcome * list action :=
  if negb (twilioClient cfg) then
    (st, Fulfilled, [Warn "respondWithTts skipped: twilio client not configured"])
  else if negb (JS.truthy (PUBLIC_BASE_URL cfg)) then
    (st, Fulfilled, [Warn "respondWithTts skipped: PUBLIC_BASE_URL not set"])
  else if negb (JS.truthy callSid) then
    (st, Fulfilled, [Warn "respondWithTts skipped: callSid missing"])
  else
    let base := default "" (PUBLIC_BASE_URL cfg) in
    let cs := default "" callSid in
    match synthesizeElevenlabs w text with
    | None => (st, Rejected, [Synthesize text false])
    | Some audioBuf =>
        let id := blob_id now random in
        let st1 := State (callMeta st) (<[id := audioBuf]> (audioStore st))
                         (setTimeout (next_timer st) now RETENTION_MS id
                                     (timers st))
                         (S (next_timer st)) in
        let url := blob_url base id in
        let m := default (Meta None None None) (callMeta st1 !! cs) in
        let confName := default "" (JS.or_else (conferenceName m) (Some cs)) in
        let '(confSid, st2, looked) := lookup_conference w cs m st1 in
        let '(result, played) := play w cs url confName confSid in
        (st2, result, [Synthesize text true] ++ looked ++ played)
    end.

(** What the route answers: status 404, or the bytes. *)
Inductive response := NotFound | Served (body : bytes).

(** [app.get('/audio/:id')] with [req.params.id = param]. *)
Definition audio_route (param : string) (st : state) : response :=
  let key := JS.replace ".mp3" "" param in
  match audioStore st !! key with
  | None => NotFound
  | Some buf => Served buf
  end.

(** The callback of a blob's timer: [audioStore.delete(id)]. *)
Definition expire (id : string) (st : state) : state :=
  State (callMeta st) (delete id (audioStore st)) (timers st) (next_timer st).

(** The loop runs one pending timer. *)
Definition run_timer (tm : timer string) (st : state) : state :=
  match pending (tid tm) (timers st) with
  | Some tm' =>
      expire (callback tm')
        (State (callMeta st) (audioStore st)
               (clearTimeout (tid tm) (timers st)) (next_timer st))
  | None => st
  end.

(** The clock reaches [t]: the timers due run, oldest first. *)
Definition advance (t : Z) (st : state) : state :=
  foldl (λ s tm, run_timer tm s) st (due t (timers st)).

(** A call of [respondWithTts] with its arguments, clock and random
    string. *)
Record call := Call {
  call_sid : option string;
  call_text : string;
  call_now : Z;
  call_random : string
}.

(** Calls of [respondWithTts] at their times, with the timers running in
    between, up to the time [horizon]. *)
Fixpoint run (cfg : config) (w : world) (st : state) (calls : list call)
    (horizon : Z) : state :=
  match calls with
  | [] => advance horizon st
  | c :: calls =>
      let st1 := advance (call_now c) st in
      let st2 := fst (fst (respondWithTts cfg w (call_sid c) (call_text c)
                             (call_now c) (call_random c) st1)) in
      run cfg w st2 calls horizon
  end.

(** *** Predicates of the statements *)

(** The attempts to play, in order, with their outcome; the tiers are
    numbered 1 (conference), 2 (participant), 3 (play and rejoin). *)
Definition attempts (log : list action) : list (nat * bool) :=
  omap (λ a, match a with
             | ConferenceAnnounce _ _ ok => Some (1%nat, ok)
             | ParticipantAnnounce _ _ _ ok => Some (2%nat, ok)
             | CallUpdate _ _ ok => Some (3%nat, ok)
             | _ => None
             end) log.

(** The attempts of an operation that tries the three tiers in order and
    stops at the first success. *)
Definition in_order (ok1 ok2 ok3 : bool) : list (nat * bool) :=
  if ok1 then [(1%nat, true)]
  else if ok2 then [(1%nat, false); (2%nat, true)]
  else [(1%nat, false); (2%nat, false); (3%nat, ok3)].

(** The requests other than warnings. *)
Definition requests (log : list action) : list action :=
  omap (λ a, match a with Warn _ => None | _ => Some a end) log.

(** The guards of [respondWithTts] pass. *)
Definition configured (cfg : config) (callSid : option string) : Prop :=
  twilioClient cfg = true ∧ JS.truthy (PUBLIC_BASE_URL cfg) = true ∧
  JS.truthy callSid = true.

(** The conference identifier [respondWithTts] ends up with for a call: the
    one found by name, else the one in the call's metadata. *)
Definition resolved_conference (w : world) (callSid : string) (st : state)
    : option string :=
  let m := default (Meta None None None) (callMeta st !! callSid) in
  fst (fst (lookup_conference w callSid m st)).

(** The name of the call's conference, [meta.conferenceName || callSid]. *)
Definition conference_name (callSid : string) (st : state) : string :=
  let m := default (Meta None None None) (callMeta st !! callSid) in
  default "" (JS.or_else (conferenceName m) (Some callSid)).

(** The URL under which a call of [respondWithTts] publishes its blob. *)
Definition announce_url (cfg : config) (now : Z) (random : string) : string :=
  blob_url (default "" (PUBLIC_BASE_URL cfg)) (blob_id now random).

(** Every failed announcement is followed by a warning. *)
Fixpoint failures_logged (log : list action) : bool :=
  match log with
  | [] => true
  | a :: log =>
      match a with
      | ConferenceAnnounce _ _ false | ParticipantAnnounce _ _ _ false =>
          match log with
          | Warn _ :: _ => failures_logged log
          | _ => false
          end
      | _ => failures_logged log
      end
  end.

(** Timer handles are never reused. *)
Definition wf (st : state) : Prop :=
  NoDup (tid <$> timers st) ∧
  ∀ tm, tm ∈ timers st → (tid tm < next_timer st)%nat.

(** The blob [id] is gone, or the timer that deletes it at time [d] is
    pending. *)
Definition expiring (id : string) (d : Z) (st : state) : Prop :=
  audioStore st !! id = None ∨
  ∃ tm, tm ∈ timers st ∧ callback tm = id ∧ deadline tm = d.

(** No pending timer deletes the blob [id]: the identifier is not that of a
    blob stored before and still awaiting deletion. *)
Definition fresh (id : string) (st : state) : Prop :=
  ∀ tm, tm ∈ timers st → callback tm ≠ id.

(** The blob [id] is stored with the bytes [buf], and no pending timer
    deletes it before the time [d]. *)
Definition retained (id : string) (buf : bytes) (d : Z) (st : state) : Prop :=
  audioStore st !! id = Some buf ∧
  ∀ tm, tm ∈ timers st → callback tm = id → d ≤ deadline tm.

(** The skip read as depending on the call's metadata: without metadata for
    the call, or without a base URL, nothing is done and nothing fails. *)
Definition skips_without_metadata : Prop :=
  ∀ cfg w callSid text now random st,
    callMeta st !! callSid = None ∨ JS.truthy (PUBLIC_BASE_URL cfg) = false →
    fst (fst (respondWithTts cfg w (Some callSid) text now random st)) = st ∧
    snd (fst (respondWithTts cfg w (Some callSid) text now random st))
    = Fulfilled ∧
    requests (snd (respondWithTts cfg w (Some callSid) text now random st))
    = [].

(** The three tiers read as always attempted in order: tier 1 first, each
    next tier after a failure, and a rejection exactly when all three have
    failed. *)
Definition always_three_tiers : Prop :=
  ∀ cfg w callSid text now random st audioBuf,
    configured cfg callSid → synthesizeElevenlabs w text = Some audioBuf →
    ∃ ok1 ok2 ok3,
      attempts (snd (respondWithTts cfg w callSid text now random st))
      = in_order ok1 ok2 ok3 ∧
      (snd (fst (respondWithTts cfg w callSid text now random st)) = Rejected
       ↔ ok1 = false ∧ ok2 = false ∧ ok3 = false).

End Playback.

(** ** Mu-law decoding: [decodeMulawToPcm16] and [muLawDecodeSample] *)

Module Mulaw.

(** A JavaScript bitwise operator works on 32-bit integers: its result
    wrapped to the range of [int32]. *)
Definition to_int32 (x : Z) : Z :=
  (x + 2147483648) `mod` 4294967296 - 2147483648.

Definition bit_not (x : Z) : Z := to_int32 (Z.lnot x).
Definition bit_and (x y : Z) : Z := to_int32 (Z.land x y).
Definition shift_left (x n : Z) : Z := to_int32 (Z.shiftl x (n `mod` 32)).
Definition shift_right (x n : Z) : Z := to_int32 (Z.shiftr x (n `mod` 32)).

(** [muLawDecodeSample(mu)] *)
Definition muLawDecodeSample (mu : Z) : Z :=
  let mu := bit_and (bit_not mu) 255 in
  let sign := if bool_decide (bit_and mu 128 = 0) then 1 else -1 in
  let exponent := bit_and (shift_right mu 4) 7 in
  let mantissa := bit_and mu 15 in
  let magnitude := shift_left (shift_left mantissa 4 + 8) (exponent + 3) in
  let sample := sign * magnitude in
  Z.max (-32768) (Z.min 32767 sample).

(** An element of a [Buffer], as a number. *)
Definition byte_value (b : Byte.byte) : Z := Z.of_N (Byte.to_N b).

(** The byte a [Buffer] keeps of a number. *)
Definition low_byte (x : Z) : Byte.byte :=
  default Byte.x00 (Byte.of_N (Z.to_N (x `mod` 256))).

(** [buf.writeInt16LE(value, offset)]: the two bytes of [value] in two's
    complement, low byte first; [None] when the method throws, for a value
    outside the range of [int16] or an offset without two bytes left. *)
Definition writeInt16LE (value : Z) (offset : nat) (buf : list Byte.byte)
    : option (list Byte.byte) :=
  if bool_decide (-32768 ≤ value ≤ 32767) then
    if bool_decide (offset + 2 ≤ length buf)%nat then
      Some (<[S offset := low_byte (value / 256)]>
              (<[offset := low_byte value]> buf))
    else None
  else None.

(** [buf.readInt16LE(offset)], the inverse reading. *)
Definition readInt16LE (offset : nat) (buf : list Byte.byte) : option Z :=
  match buf !! offset, buf !! S offset with
  | Some lo, Some hi =>
      let u := byte_value lo + 256 * byte_value hi in
      Some (if bool_decide (u < 32768) then u else u - 65536)
  | _, _ => None
  end.

(** The loop of [decodeMulawToPcm16], from index [i] on. *)
Fixpoint decode_loop (mu : list Byte.byte) (i : nat) (pcm : list Byte.byte)
    : option (list Byte.byte) :=
  match mu with
  | [] => Some pcm
  | b :: mu =>
      match writeInt16LE (muLawDecodeSample (byte_value b)) (i * 2) pcm with
      | Some pcm => decode_loop mu (S i) pcm
      | None => None
      end
  end.

(** [decodeMulawToPcm16], from the bytes that the base64 payload decodes
    to: [Buffer.alloc(mu.length * 2)], then one sample written per input
    byte. *)
Definition decodeMulawToPcm16 (mu : list Byte.byte)
    : option (list Byte.byte) :=
  decode_loop mu 0 (replicate (length mu * 2) Byte.x00).

End Mulaw.

(** ** Transcript classifier: [parseWakeList], the constructor and
    [handleMessage] of [ElevenLabsClient] *)

Module Classifier.

(** [s.includes(p)]: [p] occurs in [s] at some position. *)
Fixpoint includes (s p : string) : bool :=
  String.prefix p s ||
  match s with
  | EmptyString => false
  | String _ s => includes s p
  end.

(** [s.split(sep)] for a separator of one character. *)
Fixpoint split_on (sep : Ascii.ascii) (s : string) : list string :=
  match s with
  | EmptyString => [EmptyString]
  | String c s =>
      if Ascii.eqb c sep then EmptyString :: split_on sep s
      else match split_on sep s with
           | piece :: pieces => String c piece :: pieces
           | [] => [String c EmptyString]
           end
  end.

(** The callbacks a client can make: [transcriptHandler(text)] and
    [wakeHandler(text, isCommitted)]. *)
Inductive callback :=
| Transcript (text : string)
| WakeUp (text : string) (isCommitted : bool).

(** A message of the recognition socket after [JSON.parse], with the fields
    [handleMessage] reads ([None] when missing); a message that is not JSON
    is read as the empty object. *)
Record parsed := Parsed {
  message_type : option string;
  text : option string;
  transcript : option string;
  message : option string;
  partial : option string
}.

Definition not_json : parsed := Parsed None None None None None.

(** The fields of the client that the classifier reads; the two handler
    fields tell whether a handler is registered. *)
Record client := Client {
  wakePhrases : list string;
  transcriptHandler : bool;
  wakeHandler : bool
}.

Definition onTranscript (c : client) : client :=
  Client (wakePhrases c) true (wakeHandler c).

Definition onWake (c : client) : client :=
  Client (wakePhrases c) (transcriptHandler c) true.

Section Builtins.

(** [String.prototype.toLowerCase] and [String.prototype.trim], which
    depend on the Unicode tables. *)
Variable toLowerCase : string → string.
Variable trim : string → string.

(** [parseWakeList(rawList, defaultPhrase)] *)
Definition parseWakeList (rawList : option string) (defaultPhrase : string)
    : list string :=
  if JS.truthy rawList
     && Nat.ltb 0 (String.length (trim (default EmptyString rawList)))
  then filter (λ s, s ≠ EmptyString)
         ((λ s, toLowerCase (trim s))
            <$> split_on ","%char (default EmptyString rawList))
  else filter (λ s, s ≠ EmptyString) [toLowerCase defaultPhrase].

(** The constructor, as far as the classifier goes:
    [(wakePhrases || []).map(p => p.toLowerCase()).filter(Boolean)] and no
    handler. *)
Definition construct (phrases : option (list string)) : client :=
  Client (filter (λ s, s ≠ EmptyString) (toLowerCase <$> default [] phrases))
         false false.

(** [handleMessage(raw)] *)
Definition handleMessage (p : parsed) (c : client) : list callback :=
  let type := message_type p in
  let text :=
    default EmptyString
      (JS.or_else (text p)
         (JS.or_else (transcript p)
            (JS.or_else (message p)
               (JS.or_else (partial p) (Some EmptyString))))) in
  let logged :=
    if negb (String.eqb text EmptyString) && transcriptHandler c
    then [Transcript text] else [] in
  let isCommitted :=
    bool_decide (type = Some "committed_transcript")
    || bool_decide (type = Some "committed_transcript_with_timestamps") in
  let isPartial := bool_decide (type = Some "partial_transcript") in
  if negb (String.eqb text EmptyString)
     && negb (bool_decide (wakePhrases c = []))
     && (isCommitted || isPartial)
  then
    let lower := toLowerCase text in
    let hit := existsb (λ p, includes lower p) (wakePhrases c) in
    if hit && wakeHandler c then logged ++ [WakeUp text isCommitted]
    else logged
  else logged.

(** The client of a media stream: built with the parsed wake list, then
    both handlers registered. *)
Definition stream_client (rawList : option string) (defaultPhrase : string)
    : client :=
  onWake (onTranscript (construct (Some (parseWakeList rawList defaultPhrase)))).

End Builtins.

(** *** Predicates of the statements *)

(** [p] occurs in [s]. *)
Definition occurs (p s : string) : Prop :=
  ∃ a b, s = a +:+ p +:+ b.

End Classifier.

(** ** A media stream's recognition client wired to the wake debouncer

    [eleven.onTranscript(text => handleTranscript(state, text))] and
    [eleven.onWake((text, isCommitted) => handleWake(state, text, isCommitted))]:
    the first handler only logs, the second runs [handleWake] for the
    stream's call. *)

Module Session.

Section Builtins.
Variable toLowerCase : string → string.

(** The callbacks of one message, run in order for the call [cs]. *)
Fixpoint callbacks (cs : string) (out : list Classifier.callback)
    (now now2 : Z) (st : Wake.state) : Wake.state * list Wake.trigger :=
  match out with
  | [] => (st, [])
  | Classifier.Transcript _ :: out => callbacks cs out now now2 st
  | Classifier.WakeUp text isCommitted :: out =>
      let r := Wake.handleWake cs text isCommitted now now2 st in
      let r' := callbacks cs out now now2 (fst r) in
      (fst r', snd r ++ snd r')
  end.

(** What the loop runs: a message of the recognition socket of a stream
    (its call and its client), or a partial-wake timer. *)
Inductive event :=
| Recognized (cs : string) (c : Classifier.client) (p : Classifier.parsed)
             (now now2 : Z)
| TimerRuns (id : nat) (now now2 : Z).

Definition step (st : Wake.state) (e : event)
    : Wake.state * list Wake.trigger :=
  match e with
  | Recognized cs c p now now2 =>
      callbacks cs (Classifier.handleMessage toLowerCase p c) now now2 st
  | TimerRuns id now now2 => Wake.step st (Wake.EvTimer id now now2)
  end.

Fixpoint exec (st : Wake.state) (evs : list event)
    : Wake.state * list Wake.trigger :=
  match evs with
  | [] => (st, [])
  | e :: evs =>
      let r := step st e in
      let r' := exec (fst r) evs in
      (fst r', snd r ++ snd r')
  end.

End Builtins.

(** The clients of the messages all hold the phrases [phrases]. *)
Definition phrases_are (phrases : list string) (e : event) : Prop :=
  match e with
  | Recognized _ c _ _ _ => Classifier.wakePhrases c = phrases
  | TimerRuns _ _ _ => True
  end.

(** The lower-cased text contains one of the phrases. *)
Definition names_phrase (toLowerCase : string → string)
    (phrases : list string) (text : string) : Prop :=
  ∃ ph, ph ∈ phrases ∧ Classifier.occurs ph (toLowerCase text).

End Session.

(** ** The debouncer seen from one call

    An auxiliary reading of [handleWake] and the partial-wake timer for one
    call, without the maps: the call's last wake time ([0] when it has none,
    as in [lastWake.get(...) || 0]) and its recorded partial with the
    deadline of its timer. It is what the run of the loop is compared with
    to show that calls do not interfere. *)

Module Debouncer.
Import Wake.

(** The clock reaches [t]: the timer runs if it is due, and dispatches the
    recorded partial unless the call is throttled at the deadline. *)
Definition fire_due (cs : string) (t last : Z) (pend : option (string * Z))
    : list trigger * Z * option (string * Z) :=
  match pend with
  | Some (text, d) =>
      if bool_decide (d ≤ t) then
        if bool_decide (d - last < THROTTLE_MS) then ([], last, None)
        else ([Trigger cs text d], d, None)
      else ([], last, pend)
  | None => ([], last, None)
  end.

(** The wakes of the call for its own inputs (time, text, committed). *)
Fixpoint call_run (cs : string) (last : Z) (pend : option (string * Z))
    (ins : list (Z * string * bool)) (horizon : Z) : list trigger :=
  match ins with
  | [] => fst (fst (fire_due cs horizon last pend))
  | (t, text, isCommitted) :: ins =>
      let r := fire_due cs t last pend in
      let out := fst (fst r) in
      let last1 := snd (fst r) in
      let pend1 := snd r in
      if bool_decide (t - last1 < THROTTLE_MS)
      then out ++ call_run cs last1 pend1 ins horizon
      else if negb isCommitted
      then out ++ call_run cs last1 (Some (text, t + DEBOUNCE_MS)) ins horizon
      else out ++ Trigger cs text t :: call_run cs t None ins horizon
  end.

(** The inputs of call [cs] among the inputs of all calls. *)
Definition own_inputs (cs : string) (ins : list (Z * input))
    : list (Z * string * bool) :=
  omap (λ x, match snd x with
             | InWake k text isCommitted =>
                 if decide (k = cs) then Some (fst x, text, isCommitted)
                 else None
             end) ins.

(** The state of the maps and timers shows the call with last wake time
    [last] and recorded partial [pend]. *)
Definition shows (cs : string) (st : state) (last : Z)
    (pend : option (string * Z)) : Prop :=
  last_of st cs = last ∧
  match pend with
  | None => idle cs st
  | Some (text, d) => ∃ id, armed cs st id text d
  end.

End Debouncer.

(** * Properties *)

(** ** Timer queue *)

Module TimersFacts.
Section Queue.
Context {A : Type}.

Lemma elem_of_clearTimeout id (q : list (timer A)) tm :
  tm ∈ clearTimeout id q ↔ tid tm ≠ id ∧ tm ∈ q.
Proof. unfold clearTimeout. by rewrite list_elem_of_filter. Qed.

Lemma elem_of_setTimeout id now delay (cb : A) q tm :
  tm ∈ setTimeout id now delay cb q ↔
  tm ∈ q ∨ tm = Timer id (now + delay) cb.
Proof. unfold setTimeout. rewrite elem_of_app, list_elem_of_singleton. tauto. Qed.

Lemma pending_Some id (q : list (timer A)) tm :
  pending id q = Some tm → tid tm = id ∧ tm ∈ q.
Proof.
  unfold pending. intros H.
  apply head_Some_elem_of in H. by apply list_elem_of_filter in H.
Qed.

Lemma pending_None id (q : list (timer A)) tm :
  pending id q = None → tm ∈ q → tid tm ≠ id.
Proof.
  unfold pending. intros H Hin Hid.
  apply head_None in H.
  assert (tm ∈ filter (λ t : timer A, tid t = id) q) as Hf
    by (apply list_elem_of_filter; done).
  rewrite H in Hf. by apply not_elem_of_nil in Hf.
Qed.

Lemma pending_clearTimeout id (q : list (timer A)) : pending id (clearTimeout id q) = None.
Proof.
  unfold pending. apply head_None.
  destruct (filter _ (clearTimeout id q)) as [|tm l] eqn:E; [done|].
  assert (tm ∈ tm :: l) as Hin by left.
  rewrite <- E in Hin. apply list_elem_of_filter in Hin as [Hid Hin].
  apply elem_of_clearTimeout in Hin as [Hne _]. done.
Qed.

End Queue.

Lemma NoDup_fmap_eq {A B} (f : A → B) (l : list A) x y :
  NoDup (f <$> l) → x ∈ l → y ∈ l → f x = f y → x = y.
Proof.
  induction l as [|a l IH]; simpl; intros Hnd Hx Hy Hf.
  - by apply not_elem_of_nil in Hx.
  - apply NoDup_cons in Hnd as [Hna Hnd].
    apply elem_of_cons in Hx as [->|Hx]; apply elem_of_cons in Hy as [->|Hy];
      try done.
    + exfalso. apply Hna. rewrite Hf. by apply list_elem_of_fmap_2.
    + exfalso. apply Hna. rewrite <- Hf. by apply list_elem_of_fmap_2.
    + by apply IH.
Qed.

Lemma NoDup_fmap_filter {A B} (f : A → B) (P : A → Prop)
    `{∀ x, Decision (P x)} (l : list A) :
  NoDup (f <$> l) → NoDup (f <$> filter P l).
Proof.
  induction l as [|a l IH]; simpl; intros Hnd; [done|].
  apply NoDup_cons in Hnd as [Hna Hnd].
  rewrite filter_cons. destruct (decide (P a)); [|by apply IH].
  simpl. apply NoDup_cons. split; [|by apply IH].
  intros (y & Hy & Hin)%list_elem_of_fmap.
  apply list_elem_of_filter in Hin as [_ Hin].
  apply Hna. rewrite Hy. by apply list_elem_of_fmap_2.
Qed.

Lemma pending_is_Some {A} (q : list (timer A)) tm :
  tm ∈ q → is_Some (pending (tid tm) q).
Proof.
  intros Hin. destruct (pending (tid tm) q) eqn:E; [done|].
  by eapply pending_None in E.
Qed.

End TimersFacts.

Import TimersFacts.

(** ** Strings *)

Module JSFacts.
Import JS.

Lemma append_cons a s t : String a s +:+ t = String a (s +:+ t).
Proof. reflexivity. Qed.

Lemma append_nil_l t : "" +:+ t = t.
Proof. reflexivity. Qed.

Lemma has_char_app c s t :
  has_char c (s +:+ t) = has_char c s || has_char c t.
Proof.
  induction s as [|a s IH]; [done|].
  rewrite append_cons. simpl. rewrite IH. by rewrite orb_assoc.
Qed.

Lemma base36_char_not_dot c :
  base36_char c = true → Ascii.eqb c "."%char = false.
Proof.
  destruct c as [[|] [|] [|] [|] [|] [|] [|] [|]]; vm_compute; congruence.
Qed.

Lemma base36_no_dot s : base36 s = true → has_char "."%char s = false.
Proof.
  induction s as [|a s IH]; [done|]. simpl.
  intros [Ha Hs]%andb_true_iff.
  by rewrite (base36_char_not_dot a Ha), IH.
Qed.

Lemma digits_no_dot d : has_char "."%char (NilEmpty.string_of_uint d) = false.
Proof. induction d; simpl; auto. Qed.

Lemma number_no_dot n : has_char "."%char (number_to_string n) = false.
Proof.
  unfold number_to_string. destruct n; simpl; try reflexivity;
    apply digits_no_dot.
Qed.

Lemma replace_cons_miss pattern replacement a s :
  String.prefix pattern (String a s) = false →
  replace pattern replacement (String a s)
  = String a (replace pattern replacement s).
Proof. intros H. cbn [replace]. by rewrite H. Qed.

Lemma prefix_mp3_miss a s :
  Ascii.eqb a "."%char = false → String.prefix ".mp3" (String a s) = false.
Proof.
  intros Ha. cbn [String.prefix].
  destruct (Ascii.ascii_dec "."%char a) as [<-|Hne]; [|done].
  by rewrite Ascii.eqb_refl in Ha.
Qed.

(** Removing [".mp3"] from a name without a dot followed by [".mp3"] gives
    the name back. *)
Lemma replace_mp3 s :
  has_char "."%char s = false → replace ".mp3" "" (s +:+ ".mp3") = s.
Proof.
  induction s as [|a s IH]; intros H; [done|].
  cbn [has_char] in H. apply orb_false_iff in H as [Ha Hs].
  rewrite append_cons, replace_cons_miss by (by apply prefix_mp3_miss).
  by rewrite IH.
Qed.

End JSFacts.

(** ** Wake debouncer *)

Module WakeFacts.
Import Wake.

Example spec_example_committed :
  run init [(1000000, InWake "CA1" "hey assistant what's the status" true);
            (1004000, InWake "CA1" "hey assistant again" true);
            (1009000, InWake "CA1" "hey assistant third" true)] 2000000
  = [Trigger "CA1" "hey assistant what's the status" 1000000;
     Trigger "CA1" "hey assistant third" 1009000].
Proof. vm_compute. reflexivity. Qed.

Example spec_example_partials :
  run init [(1000000, InWake "CA1" "hey assist" false);
            (1001000, InWake "CA1" "hey assistant please" false)] 2000000
  = [Trigger "CA1" "hey assistant please" 1003500].
Proof. vm_compute. reflexivity. Qed.

(** *** Throttle: wakes of one call are at least the window apart *)

Lemma exec_app st l1 l2 :
  exec st (l1 ++ l2) =
  (fst (exec (fst (exec st l1)) l2),
   snd (exec st l1) ++ snd (exec (fst (exec st l1)) l2)).
Proof.
  revert st. induction l1 as [|e l1 IH]; intros st; simpl.
  - by destruct (exec st l2).
  - rewrite IH. simpl. by rewrite app_assoc.
Qed.

Ltac ms_lia := unfold THROTTLE_MS, DEBOUNCE_MS in *; simpl in *; lia.

Lemma exec_cons st e evs :
  exec st (e :: evs) =
  (fst (exec (fst (step st e)) evs),
   snd (step st e) ++ snd (exec (fst (step st e)) evs)).
Proof. reflexivity. Qed.

(** One event dispatches at most one wake, and only with the window
    elapsed since the call's [lastWake]. *)
Lemma step_effect st e :
  clock_sane e →
  (snd (step st e) = [] ∧ lastWake (fst (step st e)) = lastWake st) ∨
  (∃ cs text t,
      snd (step st e) = [Trigger cs text t] ∧
      lastWake (fst (step st e)) = <[cs := t]> (lastWake st) ∧
      last_of st cs + THROTTLE_MS ≤ t).
Proof.
  destruct e as [cs text c now now2 | id now now2]; simpl; intros Hclk.
  - unfold handleWake. case_bool_decide as Hthr; [by left|].
    destruct c; simpl.
    + right. exists cs, text, now2. split; [done|]. split; [|lia].
      destruct (partialWakeTimers st !! cs); simpl;
        by rewrite insert_insert_eq.
    + by left.
  - destruct (pending id (timers st)) as [tm|]; [|by left].
    unfold onPartialTimer; simpl.
    destruct (partialWakeTimers st !! callback tm) as [p|]; [|by left].
    case_bool_decide as Hthr; simpl; [by left|].
    right. exists (callback tm), (snd p), now2.
    unfold last_of in *; simpl in *. split; [done|]. split; [done|lia].
Qed.

Lemma of_call_snoc cs trs tr :
  of_call cs (trs ++ [tr]) =
  of_call cs trs ++ (if decide (trig_call tr = cs) then [tr] else []).
Proof.
  unfold of_call. rewrite filter_app. f_equal.
Qed.

Lemma tracks_snoc st trs cs text t :
  tracks st trs →
  tracks (State (<[cs := t]> (lastWake st)) (partialWakeTimers st)
                (timers st) (next_timer st))
         (trs ++ [Trigger cs text t]).
Proof.
  intros Htr k. simpl. rewrite of_call_snoc. simpl.
  destruct (decide (cs = k)) as [->|Hne].
  - by rewrite lookup_insert_eq, last_snoc.
  - rewrite lookup_insert_ne, app_nil_r by done. apply Htr.
Qed.

Lemma dominated_snoc (m : gmap string Z) pw q n st trs cs text t :
  m = <[cs := t]> (lastWake st) →
  dominated st trs → last_of st cs + THROTTLE_MS ≤ t →
  dominated (State m pw q n) (trs ++ [Trigger cs text t]).
Proof.
  intros -> Hdom Hle a Ha. unfold last_of; simpl.
  apply elem_of_app in Ha as [Ha | Ha%list_elem_of_singleton].
  - specialize (Hdom a Ha). unfold last_of in *.
    destruct (decide (cs = trig_call a)) as [->|Hne].
    + rewrite lookup_insert_eq. simpl. unfold THROTTLE_MS in Hle. lia.
    + by rewrite lookup_insert_ne.
  - subst a; simpl. rewrite lookup_insert_eq. simpl. lia.
Qed.

Lemma spaced_snoc st trs cs text t :
  spaced trs → dominated st trs → last_of st cs + THROTTLE_MS ≤ t →
  spaced (trs ++ [Trigger cs text t]).
Proof.
  intros Hsp Hdom Hle i j a b Hij Hi Hj Hab.
  destruct (decide (j < length trs)%nat) as [Hlt|Hge].
  - rewrite lookup_app_l in Hi, Hj by lia. exact (Hsp i j a b Hij Hi Hj Hab).
  - assert (i < length (trs ++ [Trigger cs text t]))%nat as Hil
      by (apply lookup_lt_Some in Hj; lia).
    apply lookup_lt_Some in Hj as Hjl. rewrite length_app in Hil, Hjl.
    simpl in *.
    assert (j = length trs) as -> by lia.
    rewrite lookup_app_l in Hi by lia.
    rewrite list_lookup_middle in Hj by done.
    injection Hj as <-. simpl in *.
    apply list_elem_of_lookup_2 in Hi. specialize (Hdom a Hi).
    rewrite Hab in Hdom. lia.
Qed.

Lemma exec_invariant evs :
  Forall clock_sane evs →
  tracks (fst (exec init evs)) (snd (exec init evs)) ∧
  dominated (fst (exec init evs)) (snd (exec init evs)) ∧
  spaced (snd (exec init evs)).
Proof.
  induction evs as [|e evs IH] using rev_ind; intros Hclk.
  - simpl. split; [|split].
    + intros cs. unfold init; simpl. by rewrite lookup_empty.
    + intros a Ha. by apply not_elem_of_nil in Ha.
    + intros i j a b _ Hi. by rewrite lookup_nil in Hi.
  - apply Forall_app in Hclk as [Hclk He].
    apply Forall_inv in He.
    destruct (IH Hclk) as (Htr & Hdom & Hsp).
    rewrite exec_app. simpl.
    destruct (exec init evs) as [st trs]; simpl in *.
    destruct (step_effect st e He) as [[-> Hlw] | (cs & text & t & -> & Hlw & Hle)].
    + rewrite !app_nil_r. split; [|split]; [| |done].
      * intros cs. rewrite Hlw. apply Htr.
      * intros a Ha. unfold last_of. rewrite Hlw. by apply Hdom.
    + rewrite app_nil_r. split; [|split].
      * intros k. rewrite Hlw.
        apply (tracks_snoc st trs cs text t Htr k).
      * destruct (fst (step st e)) as [m pw q n]; simpl in *.
        by eapply dominated_snoc.
      * by eapply spaced_snoc.
Qed.

(** C1. From start-up, however wakes and timer callbacks interleave: a
    committed wake processed less than the throttle window (8000 ms) after
    the call's latest dispatched wake dispatches nothing and changes
    nothing; and no two wakes of a call are dispatched less than the window
    apart, trigger to trigger. *)
Theorem throttle_invariant (evs : list event) :
  Forall clock_sane evs →
  (∀ cs text now now2 tr,
      last (of_call cs (snd (exec init evs))) = Some tr →
      now - trig_time tr < THROTTLE_MS →
      handleWake cs text true now now2 (fst (exec init evs))
      = (fst (exec init evs), []))
  ∧ spaced (snd (exec init evs)).
Proof.
  intros Hclk. destruct (exec_invariant evs Hclk) as (Htr & _ & Hsp).
  split; [|done].
  intros cs text now now2 tr Hlast Hlt.
  unfold handleWake, last_of. rewrite (Htr cs), Hlast. simpl.
  by rewrite bool_decide_eq_true_2.
Qed.

Lemma throttle_invariant_witness :
  spaced (snd (exec init
    [EvWake "CA1" "hey assistant" true 1000000 1000001;
     EvWake "CA1" "hey assistant" false 1009000 1009000;
     EvTimer 0 1011500 1011502])).
Proof.
  refine (proj2 (throttle_invariant _ _)).
  repeat constructor; simpl; lia.
Defined.

Example throttle_trace :
  snd (exec init
    [EvWake "CA1" "hey assistant" true 1000000 1000001;
     EvWake "CA1" "hey assistant" false 1009000 1009000;
     EvTimer 0 1011500 1011502])
  = [Trigger "CA1" "hey assistant" 1000001;
     Trigger "CA1" "hey assistant" 1011502].
Proof. vm_compute. reflexivity. Qed.

(** *** The timer queue and [partialWakeTimers] agree *)

Lemma wf_unique st tm tm' :
  wf st → tm ∈ timers st → tm' ∈ timers st → tid tm = tid tm' → tm = tm'.
Proof. intros Hwf. apply NoDup_fmap_eq, (wf_nodup _ Hwf). Qed.

(** Two calls never record the same handle. *)
Lemma wf_inj st k k' p p' :
  wf st →
  partialWakeTimers st !! k = Some p →
  partialWakeTimers st !! k' = Some p' →
  fst p = fst p' → k = k'.
Proof.
  intros Hwf Hk Hk' Hid.
  destruct (wf_entry _ Hwf _ _ Hk) as [d Hd].
  destruct (wf_entry _ Hwf _ _ Hk') as [d' Hd'].
  pose proof (wf_unique st _ _ Hwf Hd Hd' Hid) as Heq.
  by injection Heq.
Qed.

Lemma wf_pending st id tm :
  wf st → tm ∈ timers st → tid tm = id → pending id (timers st) = Some tm.
Proof.
  intros Hwf Hin Hid.
  destruct (pending id (timers st)) as [tm'|] eqn:E.
  - apply pending_Some in E as [Hid' Hin'].
    f_equal. eapply wf_unique; eauto. congruence.
  - by eapply pending_None in E.
Qed.

(** A timer of call [k] in the queue carries the handle recorded for [k]. *)
Lemma wf_timer_of st k p tm :
  wf st → partialWakeTimers st !! k = Some p →
  tm ∈ timers st → callback tm = k → tid tm = fst p.
Proof.
  intros Hwf Hk Hin Hcb.
  destruct (wf_timer _ Hwf _ Hin) as [text Ht].
  rewrite Hcb, Hk in Ht. by injection Ht as ->.
Qed.

Lemma wf_other_handle st k p tm :
  wf st → partialWakeTimers st !! k = Some p →
  tm ∈ timers st → callback tm ≠ k → tid tm ≠ fst p.
Proof.
  intros Hwf Hk Hin Hcb Hid.
  destruct (wf_timer _ Hwf _ Hin) as [text Ht].
  apply Hcb. symmetry. by eapply (wf_inj st k (callback tm) p (tid tm, text)).
Qed.

Lemma wf_init : wf init.
Proof.
  split; simpl.
  - intros k p. by rewrite lookup_empty.
  - intros tm Hin. by apply not_elem_of_nil in Hin.
  - intros tm Hin. by apply not_elem_of_nil in Hin.
  - constructor.
Qed.

(** [lastWake] plays no part in the agreement. *)
Lemma wf_lastWake m st :
  wf st → wf (State m (partialWakeTimers st) (timers st) (next_timer st)).
Proof. intros [? ? ? ?]. by split. Qed.

(** Cancelling the recorded partial of a call. *)
Lemma wf_cancel st k p :
  wf st → partialWakeTimers st !! k = Some p →
  wf (State (lastWake st) (delete k (partialWakeTimers st))
            (clearTimeout (fst p) (timers st)) (next_timer st)).
Proof.
  intros Hwf Hk. split; simpl.
  - intros k' p' Hk'.
    apply lookup_delete_Some in Hk' as [Hne Hk'].
    destruct (wf_entry _ Hwf _ _ Hk') as [d Hd]. exists d.
    apply elem_of_clearTimeout. split; [|done]. simpl.
    intros Hid. apply Hne. by eapply (wf_inj st k k' p p').
  - intros tm [Hid Hin]%elem_of_clearTimeout.
    destruct (wf_timer _ Hwf _ Hin) as [text Ht]. exists text.
    rewrite lookup_delete_ne; [done|].
    intros Heq. rewrite <- Heq, Hk in Ht. injection Ht as ->. done.
  - intros tm [_ Hin]%elem_of_clearTimeout. by apply (wf_fresh _ Hwf).
  - apply NoDup_fmap_filter, (wf_nodup _ Hwf).
Qed.

(** Recording a new partial with a fresh handle for a call with none. *)
Lemma wf_arm st k text d :
  wf st → partialWakeTimers st !! k = None →
  wf (State (lastWake st)
            (<[k := (next_timer st, text)]> (partialWakeTimers st))
            (timers st ++ [Timer (next_timer st) d k])
            (S (next_timer st))).
Proof.
  intros Hwf Hk. split; simpl.
  - intros k' p' Hk'.
    apply lookup_insert_Some in Hk' as [[<- <-] | [Hne Hk']].
    + exists d. apply elem_of_app. right. by apply list_elem_of_singleton.
    + destruct (wf_entry _ Hwf _ _ Hk') as [d' Hd']. exists d'.
      apply elem_of_app. by left.
  - intros tm [Hin | ->%list_elem_of_singleton]%elem_of_app.
    + destruct (wf_timer _ Hwf _ Hin) as [text' Ht]. exists text'.
      rewrite lookup_insert_ne; [done|]. intros Heq. rewrite <- Heq in Ht. congruence.
    + exists text. simpl. by rewrite lookup_insert_eq.
  - intros tm [Hin | ->%list_elem_of_singleton]%elem_of_app.
    + pose proof (wf_fresh _ Hwf _ Hin). lia.
    + simpl. lia.
  - rewrite fmap_app. apply NoDup_app. split; [apply (wf_nodup _ Hwf)|].
    split; [|apply NoDup_singleton].
    intros x (tm & -> & Hin)%list_elem_of_fmap Hx. simpl in Hx.
    apply list_elem_of_singleton in Hx.
    pose proof (wf_fresh _ Hwf _ Hin). lia.
Qed.

Lemma handleWake_wf cs text c now now2 st :
  wf st → wf (fst (handleWake cs text c now now2 st)).
Proof.
  intros Hwf. unfold handleWake.
  case_bool_decide; [done|]. destruct c; simpl.
  - apply wf_lastWake.
    destruct (partialWakeTimers st !! cs) as [p|] eqn:E; [|done].
    by apply wf_cancel.
  - destruct (partialWakeTimers st !! cs) as [p|] eqn:E.
    + pose proof (wf_cancel st cs p Hwf E) as Hc.
      pose proof (wf_arm _ cs text (now + DEBOUNCE_MS) Hc) as Ha.
      simpl in Ha. rewrite insert_delete_eq in Ha.
      apply Ha. apply lookup_delete_eq.
    + by apply wf_arm.
Qed.

Lemma step_wf st e : wf st → wf (fst (step st e)).
Proof.
  intros Hwf. destruct e as [cs text c now now2 | id now now2]; simpl.
  - by apply handleWake_wf.
  - destruct (pending id (timers st)) as [tm|] eqn:E; [|done].
    apply pending_Some in E as [Hid Hin].
    destruct (wf_timer _ Hwf _ Hin) as [text Ht]. rewrite Hid in Ht.
    pose proof (wf_cancel st _ _ Hwf Ht) as Hc. simpl in Hc.
    unfold onPartialTimer; simpl. rewrite Ht.
    case_bool_decide; simpl; [done|]. exact (wf_lastWake _ _ Hc).
Qed.

Lemma exec_wf st evs : wf st → wf (fst (exec st evs)).
Proof.
  revert st. induction evs as [|e evs IH]; intros st Hwf; simpl; [done|].
  by apply IH, step_wf.
Qed.

(** *** One call at a time *)

Lemma of_call_app cs l1 l2 :
  of_call cs (l1 ++ l2) = of_call cs l1 ++ of_call cs l2.
Proof. apply filter_app. Qed.

Lemma of_call_other cs k text t :
  k ≠ cs → of_call cs [Trigger k text t] = [].
Proof.
  intros Hne. unfold of_call. rewrite filter_cons, filter_nil. simpl.
  by rewrite decide_False.
Qed.

Lemma of_call_own cs text t :
  of_call cs [Trigger cs text t] = [Trigger cs text t].
Proof.
  unfold of_call. rewrite filter_cons, filter_nil. simpl.
  by rewrite decide_True.
Qed.

(** An event of another call leaves this call's entries, timers and wakes
    alone. *)
Lemma step_foreign cs st e :
  wf st → foreign cs st e →
  lastWake (fst (step st e)) !! cs = lastWake st !! cs ∧
  partialWakeTimers (fst (step st e)) !! cs = partialWakeTimers st !! cs ∧
  (∀ tm, callback tm = cs →
         tm ∈ timers (fst (step st e)) ↔ tm ∈ timers st) ∧
  of_call cs (snd (step st e)) = [].
Proof.
  intros Hwf Hfor.
  destruct e as [k text c now now2 | id now now2]; simpl in *.
  - unfold handleWake. case_bool_decide; [done|].
    destruct c; simpl.
    + destruct (partialWakeTimers st !! k) as [p|] eqn:E; simpl.
      * rewrite !lookup_insert_ne, lookup_delete_ne by done.
        split; [done|]. split; [done|]. split; [|by apply of_call_other].
        intros tm Hcb. rewrite elem_of_clearTimeout.
        split; [tauto|]. intros Hin. split; [|done].
        eapply wf_other_handle; eauto. congruence.
      * rewrite !lookup_insert_ne by done.
        split; [done|]. split; [done|]. split; [done|].
        by apply of_call_other.
    + rewrite lookup_insert_ne by done.
      split; [done|]. split; [done|]. split; [|done].
      intros tm Hcb. rewrite elem_of_setTimeout.
      destruct (partialWakeTimers st !! k) as [p|] eqn:E.
      * rewrite elem_of_clearTimeout. split.
        -- intros [[_ Hin] | ->]; [done|]. simpl in Hcb. done.
        -- intros Hin. left. split; [|done].
           eapply wf_other_handle; eauto. congruence.
      * split; [|tauto]. intros [Hin | ->]; [done|]. simpl in Hcb. done.
  - destruct (pending id (timers st)) as [tm0|] eqn:E; [|done].
    apply pending_Some in E as [Hid Hin0].
    pose proof (Hfor tm0 Hin0 Hid) as Hne.
    assert (∀ tm, callback tm = cs →
              tm ∈ clearTimeout id (timers st) ↔ tm ∈ timers st) as Hq.
    { intros tm Hcb. rewrite elem_of_clearTimeout.
      split; [tauto|]. intros Hin. split; [|done].
      intros Hid'. apply Hne.
      rewrite (wf_unique st tm0 tm Hwf Hin0 Hin) by congruence. done. }
    unfold onPartialTimer; simpl.
    destruct (partialWakeTimers st !! callback tm0) as [p|];
      [case_bool_decide|]; simpl;
      rewrite ?lookup_insert_ne, lookup_delete_ne by done;
      repeat (split; [done|]); try done.
    by apply of_call_other.
Qed.

Lemma foreign_idle cs st e :
  wf st → idle cs st →
  match e with EvWake k _ _ _ _ => k ≠ cs | EvTimer _ _ _ => True end →
  foreign cs st e.
Proof.
  intros Hwf Hidle He. destruct e; simpl; [done|].
  intros tm Hin _ Hcb.
  destruct (wf_timer _ Hwf _ Hin) as [text Ht]. congruence.
Qed.

Lemma foreign_armed cs st id text d e :
  wf st → armed cs st id text d →
  match e with EvWake k _ _ _ _ => k ≠ cs | EvTimer id' _ _ => id' ≠ id end →
  foreign cs st e.
Proof.
  intros Hwf [Hp Hin0] He. destruct e; simpl; [done|].
  intros tm Hin Hid Hcb. apply He. rewrite <- Hid.
  by apply (wf_timer_of st cs (id, text) tm).
Qed.

Lemma step_idle cs st e :
  wf st → idle cs st →
  match e with EvWake k _ _ _ _ => k ≠ cs | EvTimer _ _ _ => True end →
  idle cs (fst (step st e)) ∧
  lastWake (fst (step st e)) !! cs = lastWake st !! cs ∧
  of_call cs (snd (step st e)) = [].
Proof.
  intros Hwf Hidle He.
  destruct (step_foreign cs st e Hwf (foreign_idle _ _ _ Hwf Hidle He))
    as (Hl & Hp & _ & Ho).
  unfold idle. by rewrite Hp.
Qed.

Lemma step_armed cs st id text d e :
  wf st → armed cs st id text d →
  match e with EvWake k _ _ _ _ => k ≠ cs | EvTimer id' _ _ => id' ≠ id end →
  armed cs (fst (step st e)) id text d ∧
  lastWake (fst (step st e)) !! cs = lastWake st !! cs ∧
  of_call cs (snd (step st e)) = [].
Proof.
  intros Hwf Harm He.
  destruct (step_foreign cs st e Hwf (foreign_armed _ _ _ _ _ _ Hwf Harm He))
    as (Hl & Hp & Hq & Ho).
  destruct Harm as [Hp0 Hin]. unfold armed.
  rewrite Hp. split; [|done]. split; [done|]. by apply Hq.
Qed.

(** Timers running while the call is idle. *)
Lemma fire_idle cs l st :
  wf st → idle cs st →
  wf (fst (exec st (fire <$> l))) ∧
  idle cs (fst (exec st (fire <$> l))) ∧
  lastWake (fst (exec st (fire <$> l))) !! cs = lastWake st !! cs ∧
  of_call cs (snd (exec st (fire <$> l))) = [].
Proof.
  revert st. induction l as [|tm l IH]; intros st Hwf Hidle; [done|].
  rewrite fmap_cons, exec_cons. cbn [fst snd].
  destruct (step_idle cs st (fire tm) Hwf Hidle I) as (Hi & Hl & Ho).
  destruct (IH _ (step_wf st (fire tm) Hwf) Hi) as (Hw' & Hi' & Hl' & Ho').
  rewrite of_call_app, Ho, Ho', Hl', Hl. done.
Qed.

(** Other timers running while the call's own timer is pending. *)
Lemma fire_armed_skip cs id text d l st :
  wf st → armed cs st id text d →
  Forall (λ tm, tid tm ≠ id) l →
  wf (fst (exec st (fire <$> l))) ∧
  armed cs (fst (exec st (fire <$> l))) id text d ∧
  lastWake (fst (exec st (fire <$> l))) !! cs = lastWake st !! cs ∧
  of_call cs (snd (exec st (fire <$> l))) = [].
Proof.
  revert st. induction l as [|tm l IH]; intros st Hwf Harm Hl; [done|].
  rewrite fmap_cons, exec_cons. cbn [fst snd].
  apply Forall_cons in Hl as [Hne Hl].
  destruct (step_armed cs st id text d (fire tm) Hwf Harm Hne)
    as (Ha & Hlw & Ho).
  destruct (IH _ (step_wf st (fire tm) Hwf) Ha Hl) as (Hw' & Ha' & Hl' & Ho').
  rewrite of_call_app, Ho, Ho', Hl', Hlw. done.
Qed.

(** The call's own timer running with the throttle window elapsed: the
    recorded partial is dispatched. *)
Lemma fire_own cs id text d st :
  wf st → armed cs st id text d →
  THROTTLE_MS ≤ d - last_of st cs →
  idle cs (fst (step st (fire (Timer id d cs)))) ∧
  lastWake (fst (step st (fire (Timer id d cs)))) !! cs = Some d ∧
  snd (step st (fire (Timer id d cs))) = [Trigger cs text d].
Proof.
  intros Hwf [Hp Hin] Hthr. unfold fire; simpl.
  rewrite (wf_pending st id (Timer id d cs) Hwf Hin eq_refl). simpl.
  unfold onPartialTimer, last_of in *; simpl. rewrite Hp.
  rewrite bool_decide_eq_false_2 by lia. simpl.
  unfold idle; simpl. by rewrite lookup_insert_eq, lookup_delete_eq.
Qed.

(** *** The loop with an ideal clock, seen from one call *)

Lemma advance_idle cs t st :
  wf st → idle cs st →
  wf (fst (advance t st)) ∧ idle cs (fst (advance t st)) ∧
  lastWake (fst (advance t st)) !! cs = lastWake st !! cs ∧
  of_call cs (snd (advance t st)) = [].
Proof. apply fire_idle. Qed.

(** Before the deadline of the call's timer nothing of the call runs. *)
Lemma advance_early cs id text d t st :
  wf st → armed cs st id text d → t < d →
  wf (fst (advance t st)) ∧ armed cs (fst (advance t st)) id text d ∧
  lastWake (fst (advance t st)) !! cs = lastWake st !! cs ∧
  of_call cs (snd (advance t st)) = [].
Proof.
  intros Hwf Harm Hlt. apply fire_armed_skip; [done..|].
  apply Forall_forall. intros tm [Hdue Hin]%list_elem_of_filter Hid.
  destruct Harm as [_ Hin0].
  pose proof (wf_unique st tm _ Hwf Hin Hin0 Hid) as ->. simpl in Hdue. lia.
Qed.

(** Once the clock reaches the deadline the recorded partial has been
    dispatched, at the deadline. *)
Lemma advance_late cs id text d t st :
  wf st → armed cs st id text d → d ≤ t →
  THROTTLE_MS ≤ d - last_of st cs →
  wf (fst (advance t st)) ∧ idle cs (fst (advance t st)) ∧
  lastWake (fst (advance t st)) !! cs = Some d ∧
  of_call cs (snd (advance t st)) = [Trigger cs text d].
Proof.
  intros Hwf Harm Hle Hthr. unfold advance.
  assert (Timer id d cs ∈ due t (timers st)) as Hdue.
  { apply list_elem_of_filter. split; [done|]. apply Harm. }
  apply list_elem_of_split_l in Hdue as (l1 & l2 & Hsplit & Hnin).
  assert (Forall (λ tm : timer string, tid tm ≠ id) l1) as Hl1.
  { apply Forall_forall. intros tm Hin Hid. apply Hnin.
    assert (tm ∈ due t (timers st)) as Hin'
      by (rewrite Hsplit; apply elem_of_app; by left).
    apply list_elem_of_filter in Hin' as [_ Hin'].
    by rewrite <- (wf_unique st tm _ Hwf Hin' (proj2 Harm) Hid). }
  rewrite Hsplit, fmap_app, exec_app, fmap_cons, exec_cons. cbn [fst snd].
  destruct (fire_armed_skip cs id text d l1 st Hwf Harm Hl1)
    as (Hw1 & Ha1 & Hlw1 & Ho1).
  set (st1 := fst (exec st (fire <$> l1))) in *.
  assert (THROTTLE_MS ≤ d - last_of st1 cs) as Hthr1
    by (unfold last_of; by rewrite Hlw1).
  destruct (fire_own cs id text d st1 Hw1 Ha1 Hthr1) as (Hi2 & Hlw2 & Ho2).
  pose proof (step_wf st1 (fire (Timer id d cs)) Hw1) as Hw2.
  set (st2 := fst (step st1 (fire (Timer id d cs)))) in *.
  destruct (fire_idle cs l2 st2 Hw2 Hi2) as (Hw3 & Hi3 & Hlw3 & Ho3).
  rewrite !of_call_app, Ho1, Ho2, Ho3, Hlw3, Hlw2, of_call_own. done.
Qed.

(** A partial of the call, with the throttle window elapsed: its text is
    recorded and a new timer is pending, whatever was pending before. *)
Lemma handleWake_partial cs text now now2 st :
  wf st → THROTTLE_MS ≤ now - last_of st cs →
  armed cs (fst (handleWake cs text false now now2 st))
        (next_timer st) text (now + DEBOUNCE_MS) ∧
  lastWake (fst (handleWake cs text false now now2 st)) = lastWake st ∧
  snd (handleWake cs text false now now2 st) = [].
Proof.
  intros Hwf Hthr. unfold handleWake.
  rewrite bool_decide_eq_false_2 by lia. simpl.
  split; [|done]. split; simpl.
  - by rewrite lookup_insert_eq.
  - apply elem_of_setTimeout. by right.
Qed.

Lemma run_cons st t cs text c ins h :
  run st ((t, InWake cs text c) :: ins) h =
  snd (advance t st) ++
  snd (step (fst (advance t st)) (EvWake cs text c t t)) ++
  run (fst (step (fst (advance t st)) (EvWake cs text c t t))) ins h.
Proof. reflexivity. Qed.

Lemma inputs_of_cons cs t k text c ins :
  inputs_of cs ((t, InWake k text c) :: ins) =
  if decide (k = cs) then (t, InWake k text c) :: inputs_of cs ins
  else inputs_of cs ins.
Proof. unfold inputs_of. by rewrite filter_cons. Qed.

(** With no input of the call and nothing of it pending, nothing of it is
    dispatched. *)
Lemma run_idle_quiet cs ins h st :
  wf st → idle cs st → inputs_of cs ins = [] →
  of_call cs (run st ins h) = [].
Proof.
  revert st. induction ins as [|[t [k text c]] ins IH]; intros st Hwf Hidle Hin.
  - simpl. by apply advance_idle.
  - rewrite inputs_of_cons in Hin.
    destruct (decide (k = cs)) as [->|Hne]; [done|].
    rewrite run_cons, !of_call_app.
    destruct (advance_idle cs t st Hwf Hidle) as (Hw1 & Hi1 & _ & ->).
    destruct (step_idle cs _ (EvWake k text c t t) Hw1 Hi1 Hne)
      as (Hi2 & _ & ->).
    rewrite IH; [done| |done..]. by apply step_wf.
Qed.

Lemma final_nil x : final x [] = x.
Proof. reflexivity. Qed.

Lemma final_cons x y b : final x (y :: b) = final y b.
Proof.
  unfold final. rewrite last_cons. by destruct (last b).
Qed.

(** A partial is on record with its timer pending, and the rest of the
    call's inputs are partials that each arrive before the pending timer
    runs: the last of them is dispatched, 2500 ms after it arrived. *)
Lemma run_armed cs ins h st id t0 text b :
  wf st → armed cs st id text (t0 + DEBOUNCE_MS) →
  StronglySorted Z.le (fst <$> ins) → Forall (Z.le t0) (fst <$> ins) →
  inputs_of cs ins = partials cs b →
  THROTTLE_MS ≤ t0 - last_of st cs →
  close t0 b →
  fst (final (t0, text) b) + DEBOUNCE_MS ≤ h →
  of_call cs (run st ins h)
  = [Trigger cs (snd (final (t0, text) b))
             (fst (final (t0, text) b) + DEBOUNCE_MS)].
Proof.
  revert st id t0 text b.
  induction ins as [|[t [k text' c]] ins IH];
    intros st id t0 text b Hwf Harm Hsort Hge Hin Hthr Hclose Hh.
  - destruct b; [|done]. rewrite final_nil in *. simpl in *.
    apply (advance_late cs id text (t0 + DEBOUNCE_MS) h st); [done..|ms_lia].
  - rewrite fmap_cons in Hsort, Hge. simpl in Hsort, Hge.
    apply StronglySorted_cons in Hsort as [Hle Hsort].
    apply Forall_cons in Hge as [Ht0 Hge].
    rewrite inputs_of_cons in Hin. rewrite run_cons, !of_call_app.
    destruct (decide (k = cs)) as [->|Hne].
    + destruct b as [|[t' tx] b]; [done|].
      simpl in Hin. injection Hin as -> -> -> Hin.
      simpl in Hclose. destruct Hclose as [Hgap Hclose].
      rewrite final_cons in *.
      destruct (advance_early cs id text (t0 + DEBOUNCE_MS) t' st Hwf Harm)
        as (Hw1 & Ha1 & Hlw1 & ->); [ms_lia|].
      set (st1 := fst (advance t' st)) in *.
      assert (THROTTLE_MS ≤ t' - last_of st1 cs) as Hthr1.
      { unfold last_of in *. rewrite Hlw1. ms_lia. }
      change (step st1 (EvWake cs tx false t' t'))
        with (handleWake cs tx false t' t' st1).
      destruct (handleWake_partial cs tx t' t' st1 Hw1 Hthr1)
        as (Ha2 & Hlw2 & ->).
      pose proof (handleWake_wf cs tx false t' t' st1 Hw1) as Hw2.
      set (st2 := fst (handleWake cs tx false t' t' st1)) in *.
      rewrite app_nil_l. eapply IH; eauto.
      unfold last_of in *. by rewrite Hlw2.
    + destruct (decide (t < t0 + DEBOUNCE_MS)) as [Hearly|Hlate].
      * destruct (advance_early cs id text (t0 + DEBOUNCE_MS) t st Hwf Harm)
          as (Hw1 & Ha1 & Hlw1 & ->); [done|].
        set (st1 := fst (advance t st)) in *.
        destruct (step_armed cs st1 id text (t0 + DEBOUNCE_MS)
                    (EvWake k text' c t t) Hw1 Ha1 Hne) as (Ha2 & Hlw2 & ->).
        pose proof (step_wf st1 (EvWake k text' c t t) Hw1) as Hw2.
        rewrite app_nil_l. eapply IH; eauto.
        unfold last_of in *. by rewrite Hlw2, Hlw1.
      * assert (b = []) as ->.
        { destruct b as [|[t' tx] b]; [done|]. exfalso.
          simpl in Hclose. destruct Hclose as [Hgap _].
          assert ((t', InWake cs tx false) ∈ inputs_of cs ins) as Hmem
            by (rewrite Hin; left).
          apply list_elem_of_filter in Hmem as [_ Hmem].
          apply (list_elem_of_fmap_2 fst) in Hmem. simpl in Hmem.
          rewrite Forall_forall in Hle. specialize (Hle _ Hmem). ms_lia. }
        rewrite final_nil in *. cbn [fst snd] in *.
        destruct (advance_late cs id text (t0 + DEBOUNCE_MS) t st Hwf Harm)
          as (Hw1 & Hi1 & Hlw1 & ->); [ms_lia..|].
        set (st1 := fst (advance t st)) in *.
        destruct (step_idle cs st1 (EvWake k text' c t t) Hw1 Hi1 Hne)
          as (Hi2 & _ & ->).
        rewrite run_idle_quiet; [done| |done..]. by apply step_wf.
Qed.

(** While the call is idle and none of its wakes arrives, whatever else
    runs dispatches nothing for it. *)
Lemma exec_idle cs evs st :
  wf st → idle cs st → Forall (not_wake_of cs) evs →
  idle cs (fst (exec st evs)) ∧ of_call cs (snd (exec st evs)) = [].
Proof.
  revert st. induction evs as [|e evs IH]; intros st Hwf Hidle Hev; [done|].
  apply Forall_cons in Hev as [He Hev].
  rewrite exec_cons. cbn [fst snd].
  destruct (step_idle cs st e Hwf Hidle) as (Hi & _ & Ho).
  { by destruct e. }
  destruct (IH _ (step_wf st e Hwf) Hi Hev) as [Hi' Ho'].
  by rewrite of_call_app, Ho, Ho'.
Qed.

(** After a partial is handled the call has exactly one pending timer, the
    new one, due 2500 ms later, and the new text is on record. *)
Lemma partial_restarts_timer cs text now now2 st :
  wf st → THROTTLE_MS ≤ now - last_of st cs →
  partialWakeTimers (fst (handleWake cs text false now now2 st)) !! cs
  = Some (next_timer st, text) ∧
  ∀ tm, tm ∈ timers (fst (handleWake cs text false now now2 st)) →
        callback tm = cs →
        tm = Timer (next_timer st) (now + DEBOUNCE_MS) cs.
Proof.
  intros Hwf Hthr.
  destruct (handleWake_partial cs text now now2 st Hwf Hthr) as ([Hp Hin] & _).
  pose proof (handleWake_wf cs text false now now2 st Hwf) as Hwf'.
  split; [done|]. intros tm Htm Hcb.
  apply (wf_unique _ _ _ Hwf' Htm Hin).
  by apply (wf_timer_of _ cs (next_timer st, text) tm Hwf').
Qed.

(** C2, amended. Take the partial wakes of one call, in a state where the
    call has no partial on record, among any wakes of other calls: if the
    first partial arrives with the throttle window elapsed and every later
    one less than 2500 ms after the one before it, and no committed wake of
    the call arrives, then exactly one wake of the call is dispatched, 2500 ms
    after the last partial, carrying the last partial's text; and each
    partial handled with the window elapsed leaves exactly one pending timer
    for the call, due 2500 ms later, with its own text on record. *)
Theorem partial_run_fires_last cs ins h st x b :
  wf st → idle cs st →
  StronglySorted Z.le (fst <$> ins) →
  inputs_of cs ins = partials cs (x :: b) →
  THROTTLE_MS ≤ fst x - last_of st cs →
  close (fst x) b →
  fst (final x b) + DEBOUNCE_MS ≤ h →
  of_call cs (run st ins h)
  = [Trigger cs (snd (final x b)) (fst (final x b) + DEBOUNCE_MS)]
  ∧ ∀ st' text now now2,
      wf st' → THROTTLE_MS ≤ now - last_of st' cs →
      partialWakeTimers (fst (handleWake cs text false now now2 st')) !! cs
      = Some (next_timer st', text) ∧
      ∀ tm, tm ∈ timers (fst (handleWake cs text false now now2 st')) →
            callback tm = cs →
            tm = Timer (next_timer st') (now + DEBOUNCE_MS) cs.
Proof.
  intros Hwf Hidle Hsort Hin Hthr Hclose Hh.
  split; [|intros; by apply partial_restarts_timer].
  revert st Hwf Hidle Hthr.
  induction ins as [|[t [k text c]] ins IH]; intros st Hwf Hidle Hthr;
    [done|].
  rewrite fmap_cons in Hsort. simpl in Hsort.
  apply StronglySorted_cons in Hsort as [Hle Hsort].
  rewrite inputs_of_cons in Hin. rewrite run_cons, !of_call_app.
  destruct (advance_idle cs t st Hwf Hidle) as (Hw1 & Hi1 & Hlw1 & ->).
  set (st1 := fst (advance t st)) in *.
  destruct (decide (k = cs)) as [->|Hne].
  - destruct x as [t' tx]. simpl in Hin. injection Hin as -> -> -> Hin.
    cbn [fst snd] in *.
    assert (THROTTLE_MS ≤ t' - last_of st1 cs) as Hthr1
      by (unfold last_of in *; by rewrite Hlw1).
    change (step st1 (EvWake cs tx false t' t'))
      with (handleWake cs tx false t' t' st1).
    destruct (handleWake_partial cs tx t' t' st1 Hw1 Hthr1)
      as (Ha2 & Hlw2 & ->).
    pose proof (handleWake_wf cs tx false t' t' st1 Hw1) as Hw2.
    rewrite !app_nil_l. eapply run_armed; eauto.
    unfold last_of in *. by rewrite Hlw2.
  - destruct (step_idle cs st1 (EvWake k text c t t) Hw1 Hi1 Hne)
      as (Hi2 & Hlw2 & ->).
    rewrite !app_nil_l. apply IH; [done..| by apply step_wf | done |].
    unfold last_of in *. by rewrite Hlw2, Hlw1.
Qed.

Lemma partial_run_fires_last_witness :
  of_call "CA1"
    (run init [(1000000, InWake "CA1" "hey assist" false);
               (1000500, InWake "CA2" "hey assistant" true);
               (1001000, InWake "CA1" "hey assistant please" false)]
         2000000)
  = [Trigger "CA1" "hey assistant please" 1003500].
Proof.
  refine (proj1 (partial_run_fires_last "CA1"
    [(1000000, InWake "CA1" "hey assist" false);
     (1000500, InWake "CA2" "hey assistant" true);
     (1001000, InWake "CA1" "hey assistant please" false)]
    2000000 init (1000000, "hey assist") [(1001000, "hey assistant please")]
    wf_init _ _ _ _ _ _)).
  - reflexivity.
  - repeat constructor; simpl; lia.
  - reflexivity.
  - vm_compute. discriminate.
  - simpl. unfold DEBOUNCE_MS. lia.
  - vm_compute. discriminate.
Defined.

(** C2 as stated fails: two partials 4000 ms apart, no commit. The first
    partial's timer runs after 2500 ms and dispatches the first text; the
    second partial then falls in the throttle window and is dropped. *)
Lemma partial_run_counterexample : ¬ every_partial_run_fires_last.
Proof.
  intros H.
  specialize (H "CA1" (1000000, "hey assist")
                [(1004000, "hey assistant please")] 2000000).
  assert (of_call "CA1"
            (run init (partials "CA1" [(1000000, "hey assist");
                                       (1004000, "hey assistant please")])
                 2000000)
          = [Trigger "CA1" "hey assist" 1002500]) as Hrun
    by (vm_compute; reflexivity).
  rewrite Hrun in H.
  assert ([Trigger "CA1" "hey assist" 1002500]
          = [Trigger "CA1" "hey assistant please" 1006500]) as Habs.
  { apply H.
    - repeat constructor; simpl; lia.
    - vm_compute. discriminate. }
  discriminate Habs.
Qed.

(** C3. A committed wake of a call handled with the throttle window elapsed,
    while a partial of the call is on record: the wake is dispatched with the
    committed text, the record is deleted, the partial's timer is no longer
    pending, and until another wake of the call arrives nothing that runs
    (a timer, a wake of another call) dispatches anything for the call, so
    the recorded partial text is never dispatched. *)
Theorem committed_cancels_partial cs text now now2 st id ptext :
  wf st →
  partialWakeTimers st !! cs = Some (id, ptext) →
  THROTTLE_MS ≤ now - last_of st cs →
  snd (handleWake cs text true now now2 st) = [Trigger cs text now2] ∧
  partialWakeTimers (fst (handleWake cs text true now now2 st)) !! cs = None ∧
  pending id (timers (fst (handleWake cs text true now now2 st))) = None ∧
  ∀ evs, Forall (not_wake_of cs) evs →
         of_call cs (snd (exec (fst (handleWake cs text true now now2 st)) evs))
         = [].
Proof.
  intros Hwf Hp Hthr.
  pose proof (handleWake_wf cs text true now now2 st Hwf) as Hwf'.
  revert Hwf'. unfold handleWake.
  rewrite bool_decide_eq_false_2 by lia. simpl. rewrite Hp. simpl.
  intros Hwf'.
  assert (delete cs (partialWakeTimers st) !! cs = None) as Hdel
    by apply lookup_delete_eq.
  split; [done|]. split; [done|]. split; [apply pending_clearTimeout|].
  intros evs Hevs. by apply exec_idle.
Qed.

Lemma committed_cancels_partial_witness :
  snd (handleWake "CA1" "hey assistant what's the status" true 1001000 1001001
         (fst (handleWake "CA1" "hey assist" false 1000000 1000000 init)))
  = [Trigger "CA1" "hey assistant what's the status" 1001001].
Proof.
  refine (proj1 (committed_cancels_partial "CA1" _ 1001000 1001001
                   (fst (handleWake "CA1" "hey assist" false 1000000 1000000 init))
                   0%nat "hey assist" _ _ _)).
  - apply handleWake_wf, wf_init.
  - reflexivity.
  - vm_compute. discriminate.
Defined.

End WakeFacts.

(** ** Audio relay *)

Module RelayFacts.
Import Relay.

Lemma flush_loop_spec queue c :
  flush_loop queue c =
  Client (configured c) (sampleRate c) (ws c) (ready c) (connectedPromise c)
         [] (sent c ++ (input_audio_chunk c <$> queue)).
Proof.
  revert c. induction queue as [|buf queue IH]; intros c; simpl.
  - by rewrite app_nil_r.
  - rewrite IH. simpl. by rewrite <- app_assoc.
Qed.

(** When the socket opens the whole queue is written, oldest first. *)
Lemma on_open_spec c :
  on_open c =
  Client (configured c) (sampleRate c) (Some OPEN) true (connectedPromise c)
         [] (sent c ++ (input_audio_chunk c <$> pending c)).
Proof. unfold on_open, flushPending. simpl. by rewrite flush_loop_spec. Qed.

(** While the connection is not ready every frame joins the queue at the
    back and nothing is written. *)
Lemma exec_before_ready evs c :
  ready c = false → Forall before_ready evs →
  ready (exec c evs) = false ∧
  sampleRate (exec c evs) = sampleRate c ∧
  pending (exec c evs) = pending c ++ frames_of evs ∧
  sent (exec c evs) = sent c.
Proof.
  revert c. induction evs as [|e evs IH]; intros c Hr Hev; simpl.
  - by rewrite app_nil_r.
  - apply Forall_cons in Hev as [He Hev].
    destruct e; try done; simpl.
    + destruct (IH (connect c)) as (? & ? & ? & ?); [|done|].
      { unfold connect. by repeat case_match. }
      unfold connect in *. by repeat case_match.
    + destruct (IH (on_error c)) as (? & ? & ? & ?); done.
    + destruct (IH (sendAudio buffer c)) as (? & ? & Hp & ?); [|done|].
      { unfold sendAudio. by rewrite Hr. }
      unfold sendAudio in *. rewrite Hr in *. simpl in *.
      rewrite Hp, <- app_assoc. done.
Qed.

(** Once ready and open, every frame is written at once. *)
Lemma exec_ready_send gs c :
  ready c = true → ws c = Some OPEN →
  pending (exec c (SendAudio <$> gs)) = pending c ∧
  sent (exec c (SendAudio <$> gs)) = sent c ++ (input_audio_chunk c <$> gs).
Proof.
  revert c. induction gs as [|g gs IH]; intros c Hr Hw.
  - simpl. by rewrite app_nil_r.
  - rewrite fmap_cons. unfold exec. cbn [foldl step].
    assert (sendAudio g c = ws_send (input_audio_chunk c g) c) as ->
      by (unfold sendAudio; by rewrite Hr, Hw).
    destruct (IH (ws_send (input_audio_chunk c g) c)) as [Hp Hs]; [done..|].
    unfold exec in Hp, Hs. rewrite Hp, Hs.
    simpl. by rewrite <- app_assoc.
Qed.

(** C4. From a client whose connection is not ready: the frames handed to
    [sendAudio] before the socket opens (with any calls of [connect] and
    socket errors in between) are appended to the queue in arrival order and
    none is written; when the socket opens the whole queue is written in
    that order and the queue is empty; frames arriving afterwards are written
    after them. Every frame is written exactly once. *)
Theorem queued_frames_flushed_in_order c pre gs :
  ready c = false → Forall before_ready pre →
  pending (exec c pre) = pending c ++ frames_of pre ∧
  sent (exec c pre) = sent c ∧
  pending (exec c (pre ++ [WsOpen])) = [] ∧
  sent (exec c (pre ++ [WsOpen]))
  = sent c ++ (input_audio_chunk c <$> (pending c ++ frames_of pre)) ∧
  pending (exec c (pre ++ [WsOpen] ++ (SendAudio <$> gs))) = [] ∧
  sent (exec c (pre ++ [WsOpen] ++ (SendAudio <$> gs)))
  = sent c ++ (input_audio_chunk c <$> (pending c ++ frames_of pre ++ gs)).
Proof.
  intros Hr Hpre.
  destruct (exec_before_ready pre c Hr Hpre) as (Hr1 & Hs1 & Hp1 & Hsent1).
  split; [done|]. split; [done|].
  unfold exec in *. rewrite !foldl_app. simpl.
  set (c1 := foldl step c pre) in *.
  rewrite on_open_spec. simpl. rewrite Hp1, Hsent1.
  assert (input_audio_chunk c1 = input_audio_chunk c) as Hch
    by (unfold input_audio_chunk; by rewrite Hs1).
  rewrite Hch. split; [done|]. split; [done|].
  match goal with |- context [foldl step ?c2 _] =>
    destruct (exec_ready_send gs c2 eq_refl eq_refl) as [Hp3 Hs3] end.
  unfold exec in *. rewrite Hp3, Hs3. simpl. split; [done|].
  rewrite (app_assoc (pending c)), (fmap_app _ (pending c ++ frames_of pre)).
  rewrite <- app_assoc.
  unfold input_audio_chunk. simpl. by rewrite Hs1.
Qed.

Lemma queued_frames_flushed_in_order_witness :
  sent (exec (new true 8000)
          ([SendAudio [Byte.x01]; Connect; SendAudio [Byte.x02]]
           ++ [WsOpen] ++ (SendAudio <$> [[Byte.x03]])))
  = [Chunk [Byte.x01] false 8000; Chunk [Byte.x02] false 8000;
     Chunk [Byte.x03] false 8000].
Proof.
  refine (proj2 (proj2 (proj2 (proj2 (proj2
    (queued_frames_flushed_in_order (new true 8000)
       [SendAudio [Byte.x01]; Connect; SendAudio [Byte.x02]]
       [[Byte.x03]] _ _)))))).
  - reflexivity.
  - repeat constructor.
Defined.

End RelayFacts.

(** ** Agent turns *)

Module AgentFacts.
Import Agent.

Example reply_assembled :
  snd (run (fst (exec (new true false false true) [(0, Connect); (10, WsOpen)]))
           [(1000, SendText "what is the status");
            (1100, Message (fragment_message Start));
            (1200, Message (fragment_message (Delta "All ")));
            (1300, Message (fragment_message (Delta "good.")));
            (1400, Message stop_message)]
           100000)
  = [SendUserMessage "what is the status"; Resolve 0 (Some "All good.")].
Proof. vm_compute. reflexivity. Qed.

Example no_reply_times_out :
  snd (run (fst (exec (new true false false true) [(0, Connect); (10, WsOpen)]))
           [(1000, SendText "what is the status")] 100000)
  = [SendUserMessage "what is the status"; Resolve 0 None].
Proof. vm_compute. reflexivity. Qed.

Lemma agent_exec_cons c e evs :
  exec c (e :: evs) =
  (fst (exec (fst (step (fst e) c (snd e))) evs),
   snd (step (fst e) c (snd e)) ++ snd (exec (fst (step (fst e) c (snd e))) evs)).
Proof. reflexivity. Qed.

Lemma agent_exec_app c l1 l2 :
  exec c (l1 ++ l2) =
  (fst (exec (fst (exec c l1)) l2),
   snd (exec c l1) ++ snd (exec (fst (exec c l1)) l2)).
Proof.
  revert c. induction l1 as [|e l1 IH]; intros c; simpl.
  - by destruct (exec c l2).
  - rewrite IH. simpl. by rewrite app_assoc.
Qed.

Lemma eqb_empty_false s : String.eqb s "" = false → s ≠ "".
Proof. intros H ->. by rewrite String.eqb_refl in H. Qed.

Lemma or_null_Some s r : JS.or_null s = Some r → r ≠ "".
Proof.
  unfold JS.or_null. destruct (String.eqb s "") eqn:E; [done|].
  intros [= <-]. by apply eqb_empty_false.
Qed.

(** *** Nothing empty is ever delivered *)

Lemma ws_send_not_delivered msg c x :
  delivered msg = None → x ∈ ws_send msg c → delivered x = None.
Proof.
  unfold ws_send. intros Hm. destruct (is_open (ws c)).
  - by intros ->%list_elem_of_singleton.
  - by intros ?%not_elem_of_nil.
Qed.

Lemma sendText_body_not_delivered p text now c x :
  x ∈ snd (sendText_body p text now c) → delivered x = None.
Proof. simpl. by apply ws_send_not_delivered. Qed.

Lemma resume_not_delivered calls now c x :
  x ∈ snd (resume calls now c) → delivered x = None.
Proof.
  revert c. induction calls as [|call calls IH]; intros c; simpl.
  - by intros ?%not_elem_of_nil.
  - intros [H|H]%elem_of_app; [|by eapply IH].
    by eapply (ws_send_not_delivered (SendUserMessage call.2)).
Qed.

Lemma step_delivers_nonempty now c e x :
  x ∈ snd (step now c e) → delivered x ≠ Some "".
Proof.
  destruct e as [| | | | |text|m|id]; simpl.
  - by intros ?%not_elem_of_nil.
  - unfold on_open. simpl. intros [H|H]%elem_of_app.
    + unfold sendInitData in H. simpl in H.
      destruct (has_dynamic_variables c); simpl in H;
        [|by apply not_elem_of_nil in H].
      by apply (ws_send_not_delivered SendInitData) in H as ->.
    + by apply resume_not_delivered in H as ->.
  - by intros ?%not_elem_of_nil.
  - intros (call & -> & _)%list_elem_of_fmap. done.
  - by intros ?%not_elem_of_nil.
  - unfold sendText. intros H.
    repeat case_match; try (by apply not_elem_of_nil in H);
      by apply sendText_body_not_delivered in H as ->.
  - destruct m as [|cid|p|t|a|ev|]; simpl;
      try (by intros ?%not_elem_of_nil).
    + unfold handle_part. intros H.
      destruct p as [p|]; [|by apply not_elem_of_nil in H].
      destruct (String.eqb (part_type p) "start");
        [by apply not_elem_of_nil in H|].
      destruct (String.eqb (part_type p) "delta" && JS.truthy (part_text p));
        [by apply not_elem_of_nil in H|].
      destruct (String.eqb (part_type p) "stop"); simpl in H;
        [|by apply not_elem_of_nil in H].
      destruct (String.eqb (responseBuffer c) "") eqn:E; simpl in H;
        [by apply not_elem_of_nil in H|].
      apply eqb_empty_false in E.
      destruct (pendingResolve c); [|destruct (_ && _)]; simpl in H;
        try (by apply not_elem_of_nil in H);
        apply list_elem_of_singleton in H as ->; simpl; congruence.
    + intros H.
      destruct (String.eqb (default "" t) "") eqn:E; simpl in H.
      * destruct (responseHandler c); [|by apply not_elem_of_nil in H].
        by apply list_elem_of_singleton in H as ->.
      * apply eqb_empty_false in E.
        assert (∀ y, y ∈ (if responseHandler c then [Response (default "" t)]
                          else []) → delivered y ≠ Some "") as Hout.
        { intros y Hy. destruct (responseHandler c);
            [|by apply not_elem_of_nil in Hy].
          by apply list_elem_of_singleton in Hy as ->. }
        destruct (pendingResolve c); [|destruct (_ && _)]; simpl in H;
          try (by apply Hout);
          apply elem_of_app in H as [H|H]; try (by apply Hout);
          apply list_elem_of_singleton in H as ->; simpl; congruence.
    + destruct (JS.truthy a && audioHandler c).
      * by intros ->%list_elem_of_singleton.
      * by intros ?%not_elem_of_nil.
    + destruct (ws c); [|by intros ?%not_elem_of_nil].
      intros H. by apply (ws_send_not_delivered (SendPong ev)) in H as ->.
  - destruct (pending id (timers c)); [|by intros ?%not_elem_of_nil].
    unfold on_timeout. simpl.
    destruct (pendingResolve c); [|by intros ?%not_elem_of_nil].
    intros ->%list_elem_of_singleton. simpl.
    destruct (JS.or_null (responseBuffer c)) eqn:E; [|done].
    apply or_null_Some in E. congruence.
Qed.

(** C10. A stop marker arriving while the reply buffer is empty changes
    nothing and delivers nothing, on either channel; and whatever runs, from
    any state of the client, no empty reply is ever delivered to a waiting
    [sendText] or to the subsequent-response handler. *)
Theorem empty_reply_never_delivered :
  (∀ c text, responseBuffer c = "" →
             handleMessage (agent_chat_response_part (Some (Part "stop" text))) c
             = (c, []))
  ∧ (∀ evs c x, x ∈ snd (exec c evs) → delivered x ≠ Some "").
Proof.
  split.
  - intros c text Hb. simpl. unfold handle_part. simpl. by rewrite Hb.
  - induction evs as [|e evs IH]; intros c x; simpl.
    + by intros ?%not_elem_of_nil.
    + intros [H|H]%elem_of_app.
      * by eapply step_delivers_nonempty.
      * by eapply IH.
Qed.

Lemma empty_reply_never_delivered_witness :
  handleMessage (agent_chat_response_part (Some (Part "stop" None)))
    (fst (exec (new true false false true)
            [(0, Connect); (10, WsOpen);
             (1000, SendText "what is the status");
             (1100, Message (fragment_message Start))]))
  = (fst (exec (new true false false true)
            [(0, Connect); (10, WsOpen);
             (1000, SendText "what is the status");
             (1100, Message (fragment_message Start))]), [])
  ∧ delivered (Resolve 0 None) ≠ Some "".
Proof.
  split.
  - refine (proj1 empty_reply_never_delivered
      (fst (exec (new true false false true)
              [(0, Connect); (10, WsOpen);
               (1000, SendText "what is the status");
               (1100, Message (fragment_message Start))])) None _).
    reflexivity.
  - refine (proj2 empty_reply_never_delivered
      [(0, Connect); (10, WsOpen);
       (1000, SendText "what is the status");
       (1100, Message (fragment_message Start));
       (1200, Message stop_message);
       (16000, Timeout 0)]
      (new true false false true) (Resolve 0 None) _).
    vm_compute. repeat constructor.
Defined.

(** *** The bounded wait *)

Ltac wait_lia := unfold WAIT_MS in *; simpl in *; lia.

Lemma append_empty_r s : s +:+ "" = s.
Proof.
  induction s as [|a s IH]; [done|].
  change (String a s +:+ "") with (String a (s +:+ "")). by rewrite IH.
Qed.

Lemma set_turn_id c :
  set_turn (pendingResolve c) (responseBuffer c) (firstResolved c) c = c.
Proof. by destruct c. Qed.

Lemma agent_run_cons c e ins h :
  run c (e :: ins) h =
  (fst (run (fst (step (fst e) (fst (advance (fst e) c)) (snd e))) ins h),
   snd (advance (fst e) c) ++
   snd (step (fst e) (fst (advance (fst e) c)) (snd e)) ++
   snd (run (fst (step (fst e) (fst (advance (fst e) c)) (snd e))) ins h)).
Proof. reflexivity. Qed.

(** Before any deadline the loop runs no timer. *)
Lemma advance_quiet t c :
  Forall (λ tm, t < deadline tm) (timers c) → advance t c = (c, []).
Proof.
  intros H. unfold advance, due.
  assert (filter (λ tm : timer unit, deadline tm ≤ t) (timers c) = []) as ->;
    [|done].
  induction (timers c) as [|tm q IH]; [done|].
  apply Forall_cons in H as [Htm H].
  rewrite filter_cons, decide_False by lia. by apply IH.
Qed.

(** A fragment only edits the reply buffer. *)
Lemma handle_fragment f c :
  handleMessage (fragment_message f) c =
  (set_turn (pendingResolve c) (assemble (responseBuffer c) [f])
            (firstResolved c) c, []).
Proof.
  destruct f as [|text]; [done|]. simpl. unfold handle_part. simpl.
  destruct (String.eqb text "") eqn:E; simpl; [|done].
  apply String.eqb_eq in E as ->.
  by rewrite append_empty_r, set_turn_id.
Qed.

(** A send on a ready, open connection: the message is written, the buffer
    is emptied, the resolver of the new wait replaces whatever was
    registered, and a timer is set 15000 ms ahead. *)
Lemma sendText_connected text now c :
  connected c →
  sendText text now c =
  (Client (has_dynamic_variables c) (ws c) (ready c) (connectedPromise c)
          (conversationId c)
          (responseHandler c) (audioHandler c) (subsequentHandler c)
          (Some (next_promise c)) "" false (awaiting c)
          (timers c ++ [Timer (next_timer c) (now + WAIT_MS) ()])
          (S (next_timer c)) (S (next_promise c)),
   [SendUserMessage text]).
Proof.
  intros [Hr Hw]. destruct c; simpl in *; subst. reflexivity.
Qed.

(** With no resolver registered, timers run without effect. *)
Lemma timeouts_without_resolver l c :
  pendingResolve c = None →
  snd (exec c (fire <$> l)) = [] ∧
  ws (fst (exec c (fire <$> l))) = ws c ∧
  ready (fst (exec c (fire <$> l))) = ready c.
Proof.
  revert c. induction l as [|tm l IH]; intros c Hp; [done|].
  rewrite fmap_cons, agent_exec_cons. cbn [fst snd fire step].
  destruct (pending (tid tm) (timers c)).
  - unfold on_timeout. simpl. rewrite Hp. cbn [fst snd app].
    by destruct (IH (set_timers (clearTimeout (tid tm) (timers c))
                                (next_timer c) c) Hp) as (-> & -> & ->).
  - simpl. by apply IH.
Qed.

(** With a resolver registered, the first timer that runs resolves the wait
    with what the buffer holds, or with [null] if it is empty; the
    connection is left as it is. *)
Lemma advance_resolves t c p :
  pendingResolve c = Some p → due t (timers c) ≠ [] →
  snd (advance t c) = [Resolve p (JS.or_null (responseBuffer c))] ∧
  ws (fst (advance t c)) = ws c ∧
  ready (fst (advance t c)) = ready c.
Proof.
  intros Hp Hdue. unfold advance.
  destruct (due t (timers c)) as [|tm l] eqn:E; [done|].
  assert (tm ∈ timers c) as Hin.
  { assert (tm ∈ due t (timers c)) as H by (rewrite E; left).
    by apply list_elem_of_filter in H as [_ H]. }
  rewrite fmap_cons, agent_exec_cons. cbn [fst snd fire step].
  destruct (pending_is_Some _ _ Hin) as [tm' ->].
  unfold on_timeout. simpl. rewrite Hp. cbn [fst snd].
  match goal with |- context [exec ?c1 _] =>
    destruct (timeouts_without_resolver l c1 eq_refl) as (-> & -> & ->) end.
  done.
Qed.

Lemma assemble_deltas b ds :
  assemble b (Delta <$> ds) = b +:+ foldr String.append "" ds.
Proof.
  revert b. induction ds as [|d ds IH]; intros b; simpl.
  - by rewrite append_empty_r.
  - unfold assemble in *. rewrite IH.
    clear IH. induction b as [|a b IHb]; [done|].
    change (String a b +:+ d) with (String a (b +:+ d)).
    change (String a (b +:+ d) +:+ foldr String.append "" ds)
      with (String a ((b +:+ d) +:+ foldr String.append "" ds)).
    by rewrite IHb.
Qed.

(** Between a start marker and the stop marker the reply is the
    concatenation of the deltas. *)
Lemma assemble_start_deltas b ds :
  assemble b (Start :: (Delta <$> ds)) = foldr String.append "" ds.
Proof.
  change (assemble b (Start :: (Delta <$> ds)))
    with (assemble "" (Delta <$> ds)).
  by rewrite assemble_deltas.
Qed.

Lemma eqb_nonempty s : s ≠ "" → String.eqb s "" = false.
Proof. intros H. by apply String.eqb_neq. Qed.

(** A message that is neither a stop marker nor an [agent_response] with a
    text leaves the wait, the connection and the timers as they are, adds
    its fragment to the reply buffer, and neither settles a promise nor
    calls the subsequent-response handler. *)
Lemma handle_quiet m c :
  settles m = false →
  pendingResolve (fst (handleMessage m c)) = pendingResolve c ∧
  ws (fst (handleMessage m c)) = ws c ∧
  ready (fst (handleMessage m c)) = ready c ∧
  timers (fst (handleMessage m c)) = timers c ∧
  responseBuffer (fst (handleMessage m c))
  = assemble (responseBuffer c) (omap fragment_of [m]) ∧
  omap turn (snd (handleMessage m c)) = [].
Proof.
  destruct m as [|cid|p|t|a|ev|]; cbn [settles]; intros Hs; try done.
  - destruct p as [p|]; [|done].
    cbn [handleMessage handle_part omap list_omap fragment_of].
    destruct (String.eqb (part_type p) "start") eqn:E1; [done|].
    destruct (String.eqb (part_type p) "delta") eqn:E2; cbn [andb].
    + destruct (part_text p) as [tx|]; cbn [JS.truthy fmap option_fmap option_map].
      * destruct (String.eqb tx "") eqn:E3; cbn [negb].
        -- rewrite Hs. cbn [andb fst snd]. apply String.eqb_eq in E3 as ->.
           unfold assemble. cbn [foldl]. by rewrite append_empty_r.
        -- done.
      * rewrite Hs. done.
    + rewrite Hs. done.
  - cbn [handleMessage]. rewrite Hs.
    by destruct (responseHandler c).
  - cbn [handleMessage]. by destruct (JS.truthy a && audioHandler c).
  - cbn [handleMessage]. unfold ws_send.
    destruct (ws c) as [r|] eqn:E; [destruct (is_open (Some r))|]; done.
Qed.

Lemma assemble_app b l1 l2 :
  assemble b (l1 ++ l2) = assemble (assemble b l1) l2.
Proof. unfold assemble. by rewrite foldl_app. Qed.

(** Before any deadline, such messages only build up the reply buffer. *)
Lemma run_quiet T ms rest h c :
  Forall (λ tm, T ≤ deadline tm) (timers c) →
  Forall (λ x, fst x < T ∧ settles (snd x) = false) ms →
  ∃ c',
    pendingResolve c' = pendingResolve c ∧ ws c' = ws c ∧ ready c' = ready c ∧
    timers c' = timers c ∧
    responseBuffer c'
    = assemble (responseBuffer c) (omap fragment_of (snd <$> ms)) ∧
    fst (run c (messages ms ++ rest) h) = fst (run c' rest h) ∧
    omap turn (snd (run c (messages ms ++ rest) h))
    = omap turn (snd (run c' rest h)).
Proof.
  revert c. induction ms as [|x ms IH]; intros c Hq Hms.
  - exists c. by repeat split.
  - apply Forall_cons in Hms as [[Hx Hs] Hms].
    destruct (handle_quiet (snd x) c Hs) as (Hp & Hw & Hr & Ht & Hb & Hout).
    destruct (IH (fst (handleMessage (snd x) c))) as
      (c' & Hp' & Hw' & Hr' & Ht' & Hb' & Hfst & Hsnd); [by rewrite Ht|done|].
    exists c'.
    split; [congruence|]. split; [congruence|]. split; [congruence|].
    split; [congruence|]. split.
    { rewrite Hb', Hb, <- assemble_app, <- omap_app. done. }
    unfold messages in *. rewrite fmap_cons, <- app_comm_cons, agent_run_cons.
    cbn [fst snd step]. rewrite advance_quiet.
    2:{ eapply Forall_impl; [exact Hq|]. simpl. intros; lia. }
    cbn [fst snd app]. split; [done|].
    by rewrite omap_app, Hout, app_nil_l.
Qed.

(** C5, amended. A [sendText] on a ready, open connection, with no timer of
    an earlier wait due before its own, followed within 15000 ms by any
    messages that are neither stop markers nor [agent_response]s with a
    text (start and delta fragments, pings, ...): (1) if a stop marker
    arrives next within 15000 ms and the reply assembled from the fragments
    received since the send is not empty, the wait resolves to that reply
    (the concatenation of the deltas after the last start marker); (2) if
    an [agent_response] with a text arrives next within 15000 ms, the wait
    resolves to that text; (3) if nothing else arrives within 15000 ms, the
    wait resolves at 15000 ms to the text accumulated so far, or to [null]
    when nothing has accumulated, and the connection is still ready and
    open. In each case the user message is written once, the wait is
    resolved once, no other promise is settled and the
    subsequent-response handler is not called. *)
Theorem bounded_wait c text t0 ms :
  connected c → no_earlier_timer t0 c →
  Forall (λ x, fst x < t0 + WAIT_MS ∧ settles (snd x) = false) ms →
  (∀ ts h tx,
      ts < t0 + WAIT_MS → assemble "" (omap fragment_of (snd <$> ms)) ≠ "" →
      omap turn
        (snd (run c ((t0, SendText text) :: messages ms
                       ++ [(ts, Message (agent_chat_response_part
                                           (Some (Part "stop" tx))))]) h))
      = [SendUserMessage text;
         Resolve (next_promise c)
                 (Some (assemble "" (omap fragment_of (snd <$> ms))))])
  ∧ (∀ ts h reply,
      ts < t0 + WAIT_MS → reply ≠ "" →
      omap turn
        (snd (run c ((t0, SendText text) :: messages ms
                       ++ [(ts, Message (agent_response (Some reply)))]) h))
      = [SendUserMessage text; Resolve (next_promise c) (Some reply)])
  ∧ (∀ h,
      t0 + WAIT_MS ≤ h →
      omap turn (snd (run c ((t0, SendText text) :: messages ms) h))
      = [SendUserMessage text;
         Resolve (next_promise c)
                 (JS.or_null (assemble "" (omap fragment_of (snd <$> ms))))]
      ∧ ws (fst (run c ((t0, SendText text) :: messages ms) h)) = Some OPEN
      ∧ ready (fst (run c ((t0, SendText text) :: messages ms) h)) = true).
Proof.
  intros Hconn Hq Hms.
  assert (advance t0 c = (c, [])) as Hadv.
  { apply advance_quiet. eapply Forall_impl; [exact Hq|].
    simpl. intros; wait_lia. }
  pose proof (sendText_connected text t0 c Hconn) as Hsend.
  destruct Hconn as [Hr Hw].
  assert (snd (sendText text t0 c) = [SendUserMessage text]) as Hout
    by (by rewrite Hsend).
  set (c1 := fst (sendText text t0 c)).
  assert (Forall (λ tm : timer unit, t0 + WAIT_MS ≤ deadline tm) (timers c1))
    as Hq1.
  { unfold c1. rewrite Hsend. simpl. apply Forall_app. split; [done|].
    apply Forall_singleton. simpl. lia. }
  assert (pendingResolve c1 = Some (next_promise c) ∧ responseBuffer c1 = "" ∧
          ws c1 = Some OPEN ∧ ready c1 = true ∧
          timers c1 = timers c ++ [Timer (next_timer c) (t0 + WAIT_MS) ()])
    as (Hp1 & Hb1 & Hw1 & Hr1 & Ht1).
  { unfold c1. rewrite Hsend. simpl. done. }
  assert (∀ rest h,
            ∃ c2, pendingResolve c2 = Some (next_promise c) ∧
                  responseBuffer c2
                  = assemble "" (omap fragment_of (snd <$> ms)) ∧
                  ws c2 = Some OPEN ∧ ready c2 = true ∧
                  timers c2 = timers c1 ∧
                  fst (run c ((t0, SendText text) :: messages ms ++ rest) h)
                  = fst (run c2 rest h) ∧
                  omap turn
                    (snd (run c ((t0, SendText text) :: messages ms ++ rest)
                              h))
                  = SendUserMessage text :: omap turn (snd (run c2 rest h)))
    as Hrun.
  { intros rest h.
    destruct (run_quiet (t0 + WAIT_MS) ms rest h c1 Hq1 Hms)
      as (c2 & Hp2 & Hw2 & Hr2 & Ht2 & Hb2 & Hfst & Hsnd).
    exists c2. rewrite Hp2, Hw2, Hr2, Hb2, Hb1.
    repeat (split; [done|]).
    rewrite agent_run_cons. cbn [fst snd step]. rewrite Hadv. cbn [fst snd].
    fold c1. rewrite Hout. cbn [snd app omap list_omap turn].
    split; [done|]. by rewrite Hsnd. }
  split; [|split].
  - intros ts h tx Hts Hne.
    destruct (Hrun [(ts, Message (agent_chat_response_part
                                    (Some (Part "stop" tx))))] h)
      as (c2 & Hp2 & Hb2 & Hw2 & Hr2 & Ht2 & _ & ->).
    f_equal. rewrite agent_run_cons. cbn [fst snd step].
    rewrite advance_quiet.
    2:{ rewrite Ht2. eapply Forall_impl; [exact Hq1|]. simpl. intros; lia. }
    cbn [fst snd app]. unfold handleMessage, handle_part.
    cbn [part_type String.eqb Ascii.eqb Bool.eqb andb].
    rewrite Hb2, (eqb_nonempty _ Hne), Hp2. cbn [negb fst snd app run].
    unfold advance.
    match goal with |- context [exec ?c3 ?l] =>
      destruct (timeouts_without_resolver
                  (due h (timers c3)) c3 eq_refl) as (-> & _) end.
    done.
  - intros ts h reply Hts Hne.
    destruct (Hrun [(ts, Message (agent_response (Some reply)))] h)
      as (c2 & Hp2 & Hb2 & Hw2 & Hr2 & Ht2 & _ & ->).
    f_equal. rewrite agent_run_cons. cbn [fst snd step].
    rewrite advance_quiet.
    2:{ rewrite Ht2. eapply Forall_impl; [exact Hq1|]. simpl. intros; lia. }
    cbn [fst snd app handleMessage default]. unfold id.
    rewrite (eqb_nonempty _ Hne), Hp2. cbn [negb fst snd app run].
    unfold advance.
    match goal with |- context [exec ?c3 ?l] =>
      destruct (timeouts_without_resolver
                  (due h (timers c3)) c3 eq_refl) as (-> & _) end.
    rewrite app_nil_r, omap_app. by destruct (responseHandler c2).
  - intros h Hh.
    destruct (Hrun [] h) as (c2 & Hp2 & Hb2 & Hw2 & Hr2 & Ht2 & Hfst & Hsnd).
    rewrite app_nil_r in Hfst, Hsnd. rewrite Hfst, Hsnd. cbn [run].
    destruct (advance_resolves h c2 (next_promise c) Hp2) as (-> & -> & ->).
    + rewrite Ht2, Ht1.
      unfold due. rewrite filter_app, filter_cons, decide_True by (simpl; lia).
      by destruct (filter _ (timers c)).
    + by rewrite Hb2.
Qed.

Lemma bounded_wait_witness :
  omap turn
    (snd (run (fst (exec (new true false false true) [(0, Connect); (10, WsOpen)]))
           ((1000, SendText "what is the status")
            :: messages
                 [(1100, fragment_message Start); (1150, ping (Some 7));
                  (1200, fragment_message (Delta "All "));
                  (1250, agent_response None);
                  (1300, fragment_message (Delta "good."))]
            ++ [(1400, Message stop_message)])
           100000))
  = [SendUserMessage "what is the status"; Resolve 0 (Some "All good.")]
  ∧ omap turn
      (snd (run (fst (exec (new true false false true) [(0, Connect); (10, WsOpen)]))
             ((1000, SendText "what is the status")
              :: messages
                   [(1100, fragment_message Start); (1150, ping (Some 7));
                  (1200, fragment_message (Delta "All "));
                  (1250, agent_response None);
                  (1300, fragment_message (Delta "good."))]
              ++ [(1400, Message (agent_response (Some "Fine.")))])
             100000))
    = [SendUserMessage "what is the status"; Resolve 0 (Some "Fine.")]
  ∧ omap turn
      (snd (run (fst (exec (new true false false true) [(0, Connect); (10, WsOpen)]))
             ((1000, SendText "what is the status")
              :: messages
                   [(1100, fragment_message Start); (1150, ping (Some 7));
                  (1200, fragment_message (Delta "All "));
                  (1250, agent_response None);
                  (1300, fragment_message (Delta "good."))])
             16000))
    = [SendUserMessage "what is the status"; Resolve 0 (Some "All good.")].
Proof.
  pose proof (bounded_wait
    (fst (exec (new true false false true) [(0, Connect); (10, WsOpen)]))
    "what is the status" 1000
    [(1100, fragment_message Start); (1150, ping (Some 7));
                  (1200, fragment_message (Delta "All "));
                  (1250, agent_response None);
                  (1300, fragment_message (Delta "good."))]) as H.
  destruct H as (Hstop & Hfull & Hlate).
  - split; reflexivity.
  - vm_compute. constructor.
  - repeat (apply Forall_cons; split;
              [split; [unfold WAIT_MS; simpl; lia | reflexivity]|]).
    by apply Forall_nil.
  - split; [|split].
    + apply (Hstop 1400 100000 None); [unfold WAIT_MS; lia|].
      vm_compute. discriminate.
    + apply (Hfull 1400 100000 "Fine."); [unfold WAIT_MS; lia|].
      discriminate.
    + apply (Hlate 16000). unfold WAIT_MS. lia.
Defined.

(** C5 as stated fails: a start marker and one delta arrive, no stop marker
    arrives within the window; the wait resolves to the partial text ["Hel"],
    not to an absent value. *)
Lemma bounded_wait_counterexample : ¬ timeout_resolves_null.
Proof.
  intros H.
  specialize (H (fst (exec (new true false false true)
                        [(0, Connect); (10, WsOpen)]))
                "what is the status" 1000
                [(1100, Start); (1200, Delta "Hel")] 100000).
  assert (snd (run (fst (exec (new true false false true)
                           [(0, Connect); (10, WsOpen)]))
                 ((1000, SendText "what is the status")
                  :: fragments [(1100, Start); (1200, Delta "Hel")]) 100000)
          = [SendUserMessage "what is the status"; Resolve 0 (Some "Hel")])
    as Hrun by (vm_compute; reflexivity).
  rewrite Hrun in H.
  assert (Resolve 0 None
          ∈ [SendUserMessage "what is the status"; Resolve 0 (Some "Hel")])
    as Hin.
  { apply H.
    - split; reflexivity.
    - reflexivity.
    - repeat constructor; unfold WAIT_MS; simpl; lia.
    - unfold WAIT_MS. lia. }
  apply elem_of_cons in Hin as [Hin|Hin]; [discriminate|].
  apply elem_of_cons in Hin as [Hin|Hin]; [discriminate|].
  by apply not_elem_of_nil in Hin.
Qed.

(** The timer of a wait is not cleared when the wait is resolved. Here the
    first wait is resolved by its reply; a second send follows 8500 ms after
    the first; the timer of the first wait runs 6500 ms into the second wait
    and resolves it to [null]; the reply to the second send, complete 7700 ms
    after it was sent, goes to the subsequent-response handler. *)
Example earlier_timer_resolves_later_wait :
  snd (run (fst (exec (new true false false true) [(0, Connect); (10, WsOpen)]))
           [(1000, SendText "first question");
            (1100, Message (fragment_message Start));
            (1200, Message (fragment_message (Delta "One.")));
            (1300, Message stop_message);
            (9500, SendText "second question");
            (17000, Message (fragment_message Start));
            (17100, Message (fragment_message (Delta "Two.")));
            (17200, Message stop_message)]
           100000)
  = [SendUserMessage "first question"; Resolve 0 (Some "One.");
     SendUserMessage "second question"; Resolve 1 None;
     Subsequent "Two."].
Proof. vm_compute. reflexivity. Qed.

(** *** Overlapping sends *)

(** A second send while the first wait is pending: the reply to the first
    question is cut, its wait is never resolved, and what arrives afterwards
    resolves the second wait. *)
Example overlapping_sends :
  snd (run (fst (exec (new true false false true) [(0, Connect); (10, WsOpen)]))
           [(1000, SendText "first question");
            (1100, Message (fragment_message Start));
            (1200, Message (fragment_message (Delta "Hel")));
            (9000, SendText "second question");
            (9100, Message (fragment_message (Delta "lo.")));
            (9200, Message stop_message)]
           100000)
  = [SendUserMessage "first question"; SendUserMessage "second question";
     Resolve 1 (Some "lo.")].
Proof. vm_compute. reflexivity. Qed.


Lemma promises_apart_new v r a s : promises_apart (new v r a s).
Proof.
  split; simpl.
  - done.
  - intros p Hp. by apply not_elem_of_nil in Hp.
Qed.

(** The suspended calls run on one after the other: each writes its message
    and registers its resolver over the one before. *)
Lemma resume_spec calls now c :
  awaiting (fst (resume calls now c)) = awaiting c ∧
  next_promise (fst (resume calls now c)) = next_promise c ∧
  pendingResolve (fst (resume calls now c))
  = from_option (λ call, Some (fst call)) (pendingResolve c) (last calls) ∧
  ∀ x, x ∈ snd (resume calls now c) → settled x = None.
Proof.
  revert c. induction calls as [|call calls IH]; intros c.
  - simpl. repeat split. by intros x ?%not_elem_of_nil.
  - cbn [resume fst snd].
    destruct (IH (fst (sendText_body (fst call) (snd call) now c)))
      as (Ha & Hn & Hp & Hx).
    rewrite Ha, Hn, Hp. simpl. repeat split.
    + rewrite last_cons. by destruct (last calls).
    + intros x [H|H]%elem_of_app; [|by apply Hx].
      unfold ws_send in H. simpl in H. destruct (is_open (ws c)).
      * by apply list_elem_of_singleton in H as ->.
      * by apply not_elem_of_nil in H.
Qed.

(** Events other than a send, the opening of the socket and a socket error:
    the suspended calls and the numbering stay, the resolver stays or is
    used up, and only the promise of the registered resolver is settled. *)
Lemma step_turn now c e :
  match e with SendText _ | WsOpen | WsError => False | _ => True end →
  awaiting (fst (step now c e)) = awaiting c ∧
  next_promise (fst (step now c e)) = next_promise c ∧
  (pendingResolve (fst (step now c e)) = pendingResolve c ∨
   pendingResolve (fst (step now c e)) = None) ∧
  ∀ x q, x ∈ snd (step now c e) → settled x = Some q →
         pendingResolve c = Some q.
Proof.
  destruct e as [| | | | |text|m|id]; try done; intros _; simpl.
  - unfold connect. destruct (connectedPromise c); simpl;
      repeat split; auto; by intros x q ?%not_elem_of_nil.
  - repeat split; auto; by intros x q ?%not_elem_of_nil.
  - repeat split; auto; by intros x q ?%not_elem_of_nil.
  - destruct m as [|cid|p|t|a|ev|]; simpl;
      try (repeat split; auto; by intros x q ?%not_elem_of_nil).
    + unfold handle_part.
      destruct p as [p|];
        [|repeat split; auto; by intros x q ?%not_elem_of_nil].
      repeat (case_match; simpl);
        repeat split; auto;
        try (by intros x q ?%not_elem_of_nil);
        intros x q ->%list_elem_of_singleton; simpl; congruence.
    + destruct (responseHandler c); repeat (case_match; simpl);
        repeat split; auto;
        try (by intros x q ?%not_elem_of_nil);
        intros x q Hx; repeat (apply elem_of_cons in Hx as [->|Hx]);
        simpl; try congruence; by apply not_elem_of_nil in Hx.
    + case_match; repeat split; auto;
        try (by intros x q ?%not_elem_of_nil);
        by intros x q ->%list_elem_of_singleton.
    + repeat split; auto. intros x q Hx.
      destruct (ws c); [|by apply not_elem_of_nil in Hx].
      unfold ws_send in Hx. destruct (is_open _).
      * by apply list_elem_of_singleton in Hx as ->.
      * by apply not_elem_of_nil in Hx.
  - destruct (pending id (timers c));
      [|repeat split; auto; by intros x q ?%not_elem_of_nil].
    unfold on_timeout. simpl. destruct (pendingResolve c) eqn:E; simpl;
      rewrite ?E; repeat split; auto;
      try (by intros x q ?%not_elem_of_nil);
      intros x q ->%list_elem_of_singleton; simpl; congruence.
Qed.

Lemma sendText_fields text now c :
  next_promise (fst (sendText text now c)) = S (next_promise c) ∧
  ((pendingResolve (fst (sendText text now c)) = Some (next_promise c) ∧
    awaiting (fst (sendText text now c)) = awaiting c) ∨
   (pendingResolve (fst (sendText text now c)) = pendingResolve c ∧
    awaiting (fst (sendText text now c))
    = awaiting c ++ [(next_promise c, text)])) ∧
  ∀ x, x ∈ snd (sendText text now c) → settled x = None.
Proof.
  assert (∀ c' x, x ∈ ws_send (SendUserMessage text) c' → settled x = None)
    as Hsend.
  { intros c' x. unfold ws_send. destruct (is_open _).
    - by intros ->%list_elem_of_singleton.
    - by intros ?%not_elem_of_nil. }
  unfold sendText. simpl.
  destruct (ready c && is_open (ws c)); simpl.
  - split; [done|]. split; [by left|]. apply Hsend.
  - unfold connect. simpl.
    destruct (connectedPromise c) as [[|]|] eqn:E; simpl; rewrite ?E; simpl;
      (split; [done|]); (split; [auto|]);
      try (by intros x ?%not_elem_of_nil); apply Hsend.
Qed.

Lemma step_promises_apart now c e :
  promises_apart c → promises_apart (fst (step now c e)).
Proof.
  intros [HA HB].
  assert (match e with
          | SendText _ | WsOpen | WsError => False
          | _ => True
          end ∨
          ¬ match e with
            | SendText _ | WsOpen | WsError => False
            | _ => True
            end) as [He|He] by (destruct e; tauto).
  - destruct (step_turn now c e He) as (Ha & Hn & Hp & _).
    split.
    + intros p Hpp. rewrite Ha, Hn.
      destruct Hp as [Hp|Hp]; rewrite Hp in Hpp; [by apply HA|done].
    + intros p. rewrite Ha, Hn. apply HB.
  - destruct e as [| | | | |text|m|id]; try (exfalso; by apply He); simpl.
    + unfold on_open. simpl.
      match goal with |- context [resume ?l ?n ?c'] =>
        destruct (resume_spec l n c') as (Ha & Hn & Hp & _) end.
      simpl in *. split.
      * intros p. rewrite Ha, Hn, Hp. simpl.
        destruct (last (awaiting c)) as [call|] eqn:El; simpl.
        -- intros [= <-]. split; [|by intros ?%not_elem_of_nil].
           apply HB, list_elem_of_fmap_2.
           apply last_Some in El as [l' ->]. apply elem_of_app. right. left.
        -- intros Hpp. split; [by apply HA|by intros ?%not_elem_of_nil].
      * intros p. rewrite Ha. simpl. by intros ?%not_elem_of_nil.
    + split; simpl.
      * intros p Hpp. split; [by apply HA|by intros ?%not_elem_of_nil].
      * intros p. by intros ?%not_elem_of_nil.
    + destruct (sendText_fields text now c) as (Hn & Hcase & _).
      split.
      * intros p Hpp. rewrite Hn.
        destruct Hcase as [[Hp Ha]|[Hp Ha]]; rewrite Hp in Hpp; rewrite Ha.
        -- injection Hpp as <-. split; [lia|].
           intros Hin%HB. lia.
        -- destruct (HA p Hpp) as [Hlt Hnin]. split; [lia|].
           rewrite fmap_app. intros [Hin|Hin]%elem_of_app; [done|].
           simpl in Hin. apply list_elem_of_singleton in Hin. lia.
      * intros p. rewrite Hn.
        destruct Hcase as [[Hp Ha]|[Hp Ha]]; rewrite Ha.
        -- intros Hin%HB. lia.
        -- rewrite fmap_app. intros [Hin%HB|Hin]%elem_of_app; [lia|].
           simpl in Hin. apply list_elem_of_singleton in Hin. lia.
Qed.

Lemma exec_promises_apart evs c :
  promises_apart c → promises_apart (fst (exec c evs)).
Proof.
  revert c. induction evs as [|e evs IH]; intros c H; [done|].
  rewrite agent_exec_cons. cbn [fst]. by apply IH, step_promises_apart.
Qed.

(** An abandoned promise stays abandoned and is never settled. *)
Lemma step_abandoned p now c e :
  abandoned p c →
  abandoned p (fst (step now c e)) ∧
  ∀ x, x ∈ snd (step now c e) → settled x ≠ Some p.
Proof.
  intros (Hlt & Hne & Hnin).
  assert (match e with
          | SendText _ | WsOpen | WsError => False
          | _ => True
          end ∨
          ¬ match e with
            | SendText _ | WsOpen | WsError => False
            | _ => True
            end) as [He|He] by (destruct e; tauto).
  - destruct (step_turn now c e He) as (Ha & Hn & Hp & Hx).
    split.
    + unfold abandoned. rewrite Ha, Hn. split; [done|]. split; [|done].
      destruct Hp as [-> | ->]; done.
    + intros x Hin Hs. apply Hne. by eapply Hx.
  - destruct e as [| | | | |text|m|id]; try (exfalso; by apply He); simpl.
    + unfold on_open. simpl.
      match goal with |- context [resume ?l ?n ?c'] =>
        destruct (resume_spec l n c') as (Ha & Hn & Hp & Hx) end.
      simpl in *. split.
      * unfold abandoned. rewrite Ha, Hn, Hp. simpl.
        split; [done|]. split; [|by intros ?%not_elem_of_nil].
        destruct (last (awaiting c)) as [call|] eqn:El; simpl; [|done].
        intros [= <-]. apply Hnin, list_elem_of_fmap_2.
        apply last_Some in El as [l' ->]. apply elem_of_app. right. left.
      * intros x [Hin|Hin]%elem_of_app.
        -- unfold sendInitData in Hin. simpl in Hin.
           destruct (has_dynamic_variables c); simpl in Hin;
             [|by apply not_elem_of_nil in Hin].
           unfold ws_send in Hin. simpl in Hin.
           by apply list_elem_of_singleton in Hin as ->.
        -- by rewrite (Hx x Hin).
    + split.
      * unfold abandoned. simpl. split; [done|]. split; [done|].
        by intros ?%not_elem_of_nil.
      * intros x (call & -> & Hin)%list_elem_of_fmap. simpl.
        intros [= Heq]. apply Hnin. rewrite <- Heq.
        by apply list_elem_of_fmap_2.
    + destruct (sendText_fields text now c) as (Hn & Hcase & Hx).
      split.
      * unfold abandoned. rewrite Hn. split; [lia|].
        destruct Hcase as [[Hp Ha]|[Hp Ha]]; rewrite Hp, Ha.
        -- split; [|done]. intros [= Heq]. lia.
        -- split; [done|]. rewrite fmap_app.
           intros [Hin|Hin]%elem_of_app; [done|].
           simpl in Hin. apply list_elem_of_singleton in Hin. lia.
      * intros x Hin. by rewrite (Hx x Hin).
Qed.

Lemma exec_abandoned p evs c :
  abandoned p c → ∀ x, x ∈ snd (exec c evs) → settled x ≠ Some p.
Proof.
  revert c. induction evs as [|e evs IH]; intros c Hab x.
  - by intros ?%not_elem_of_nil.
  - rewrite agent_exec_cons. cbn [snd].
    destruct (step_abandoned p (fst e) c (snd e) Hab) as [Hab' Hx].
    intros [Hin|Hin]%elem_of_app; [by apply Hx|by eapply IH].
Qed.

(** C6, amended. A [sendText] made on a ready, open connection while the
    wait of an earlier call is pending is neither rejected nor queued: its
    message is written at once, the reply buffer is emptied, and its resolver
    replaces the earlier one, so that one resolver is registered at a time,
    that of the latest call; the promise of the earlier call is never
    settled by anything that runs afterwards. *)
Theorem overlapping_send_supersedes c text now p :
  connected c → promises_apart c → pendingResolve c = Some p →
  snd (step now c (SendText text)) = [SendUserMessage text] ∧
  pendingResolve (fst (step now c (SendText text))) = Some (next_promise c) ∧
  next_promise c ≠ p ∧
  responseBuffer (fst (step now c (SendText text))) = "" ∧
  ∀ evs x, x ∈ snd (exec (fst (step now c (SendText text))) evs) →
           settled x ≠ Some p.
Proof.
  intros Hconn [HA HB] Hp. destruct (HA p Hp) as [Hlt Hnin].
  cbn [step]. rewrite (sendText_connected text now c Hconn). cbn [fst snd].
  split; [done|]. split; [done|]. split; [lia|]. split; [done|].
  intros evs. apply exec_abandoned.
  unfold abandoned. simpl. split; [lia|]. split; [|done].
  intros [= Heq]. lia.
Qed.

Lemma overlapping_send_supersedes_witness :
  pendingResolve
    (fst (step 9000
            (fst (exec (new true false false true)
                    [(0, Connect); (10, WsOpen);
                     (1000, SendText "first question");
                     (1100, Message (fragment_message Start));
                     (1200, Message (fragment_message (Delta "Hel")))]))
            (SendText "second question")))
  = Some 1%nat.
Proof.
  refine (proj1 (proj2 (overlapping_send_supersedes
    (fst (exec (new true false false true)
            [(0, Connect); (10, WsOpen);
             (1000, SendText "first question");
             (1100, Message (fragment_message Start));
             (1200, Message (fragment_message (Delta "Hel")))]))
    "second question" 9000 0%nat _ _ _))).
  - split; reflexivity.
  - apply exec_promises_apart, promises_apart_new.
  - reflexivity.
Defined.

(** C6 as stated fails: a second send 8000 ms after the first, while the
    first wait is pending with ["Hel"] accumulated, empties the buffer and
    replaces the resolver of the first wait. *)
Lemma overlapping_sends_counterexample : ¬ overlapping_sends_kept_apart.
Proof.
  intros H.
  destruct (H (fst (exec (new true false false true)
                      [(0, Connect); (10, WsOpen);
                       (1000, SendText "first question");
                       (1100, Message (fragment_message Start));
                       (1200, Message (fragment_message (Delta "Hel")))]))
              "second question" 9000 0%nat) as [Hp Hb].
  - split; reflexivity.
  - apply exec_promises_apart, promises_apart_new.
  - reflexivity.
  - vm_compute in Hb. discriminate Hb.
Qed.

End AgentFacts.

(** ** Playback *)

Module PlaybackFacts.
Import Playback JSFacts.

Example announce_conference_wide :
  respondWithTts
    (Config true (Some "https://bridge.example"))
    (World (λ _, Some [Byte.x49; Byte.x44; Byte.x33])
           (λ _, Some ["CF1"]) (λ _ _, true) (λ _ _ _, true) (λ _ _, true))
    (Some "CA1") "All good." 1700000000000 "k3x9"
    (State {["CA1" := Meta (Some "+15550100") None (Some "CA1")]} ∅ [] 0%nat)
  = (State {["CA1" := Meta (Some "+15550100") (Some "CF1") (Some "CA1")]}
           {["1700000000000-k3x9" := [Byte.x49; Byte.x44; Byte.x33]]}
           [Timer 0%nat 1700000300000 "1700000000000-k3x9"] 1%nat,
     Fulfilled,
     [Synthesize "All good." true; ListConferences "CA1" true;
      ConferenceAnnounce "CF1"
        "https://bridge.example/audio/1700000000000-k3x9.mp3" true]).
Proof. vm_compute. reflexivity. Qed.

(** *** Skipping *)

(** C7, amended. [respondWithTts] does nothing (no synthesis, no blob
    stored, no telephony request, only a warning) and reports no error
    whenever the telephony client is not configured, no base playback URL is
    configured, or the call identifier is missing. *)
Theorem skip_when_unconfigured cfg w callSid text now random st :
  twilioClient cfg = false ∨ JS.truthy (PUBLIC_BASE_URL cfg) = false ∨
  JS.truthy callSid = false →
  fst (fst (respondWithTts cfg w callSid text now random st)) = st ∧
  snd (fst (respondWithTts cfg w callSid text now random st)) = Fulfilled ∧
  requests (snd (respondWithTts cfg w callSid text now random st)) = [].
Proof.
  intros H. unfold respondWithTts.
  destruct (twilioClient cfg); simpl; [|done].
  destruct (JS.truthy (PUBLIC_BASE_URL cfg)); simpl; [|done].
  destruct (JS.truthy callSid); simpl; [|done].
  destruct H as [H|[H|H]]; done.
Qed.

Lemma skip_when_unconfigured_witness :
  requests
    (snd (respondWithTts
            (Config true None)
            (World (λ _, Some [Byte.x49]) (λ _, Some ["CF1"])
                   (λ _ _, true) (λ _ _ _, true) (λ _ _, true))
            (Some "CA1") "All good." 1700000000000 "k3x9" init))
  = [].
Proof.
  refine (proj2 (proj2 (skip_when_unconfigured
    (Config true None)
    (World (λ _, Some [Byte.x49]) (λ _, Some ["CF1"])
           (λ _ _, true) (λ _ _ _, true) (λ _ _, true))
    (Some "CA1") "All good." 1700000000000 "k3x9" init _))).
  right. left. reflexivity.
Defined.

(** C7 as stated fails: with the telephony client and the base URL
    configured and no metadata for the call, the text is synthesized, the
    blob is stored and telephony requests are made. *)
Lemma skip_counterexample : ¬ skips_without_metadata.
Proof.
  intros H.
  destruct (H (Config true (Some "https://bridge.example"))
              (World (λ _, Some [Byte.x49]) (λ _, Some [])
                     (λ _ _, true) (λ _ _ _, true) (λ _ _, true))
              "CA1" "All good." 1700000000000 "k3x9" init)
    as (_ & _ & Hreq).
  - left. reflexivity.
  - vm_compute in Hreq. discriminate Hreq.
Qed.

(** *** The tiers *)

Ltac not_attempted H :=
  repeat (apply elem_of_cons in H as [H|H]; [discriminate H|]);
  by apply not_elem_of_nil in H.

(** C8, amended. Once the text is synthesized: when a conference identifier
    is known after the look-up by name (found by name, else taken from the
    call's metadata), the conference-wide announcement is attempted first,
    the participant-scoped one after it fails, and play-and-rejoin after
    both fail, stopping at the first success; when no conference identifier
    is known, play-and-rejoin is the only attempt. A failed announcement is
    followed by a warning and the operation continues; the operation is
    rejected exactly when play-and-rejoin is attempted and fails. *)
Theorem tiers_after_lookup cfg w callSid text now random st audioBuf :
  configured cfg callSid → synthesizeElevenlabs w text = Some audioBuf →
  attempts (snd (respondWithTts cfg w callSid text now random st))
  = (if JS.truthy (resolved_conference w (default "" callSid) st)
     then in_order
            (conference_announce w
               (default "" (resolved_conference w (default "" callSid) st))
               (announce_url cfg now random))
            (participant_announce w
               (default "" (resolved_conference w (default "" callSid) st))
               (default "" callSid) (announce_url cfg now random))
            (call_update w (default "" callSid)
               (play_and_rejoin (announce_url cfg now random)
                  (conference_name (default "" callSid) st)))
     else [(3%nat,
            call_update w (default "" callSid)
              (play_and_rejoin (announce_url cfg now random)
                 (conference_name (default "" callSid) st)))])
  ∧ (snd (fst (respondWithTts cfg w callSid text now random st)) = Rejected
     ↔ (3%nat, false)
       ∈ attempts (snd (respondWithTts cfg w callSid text now random st)))
  ∧ failures_logged (snd (respondWithTts cfg w callSid text now random st))
    = true.
Proof.
  intros (Ht & Hb & Hc) Hs.
  unfold resolved_conference, conference_name, announce_url, respondWithTts,
    lookup_conference, play.
  rewrite Ht, Hb, Hc, Hs. simpl.
  set (cs := default "" callSid).
  set (m := default (Meta None None None) (callMeta st !! cs)).
  set (url := blob_url (default "" (PUBLIC_BASE_URL cfg)) (blob_id now random)).
  set (name := default "" (JS.or_else (conferenceName m) (Some cs))).
  destruct (JS.truthy (JS.or_else (conferenceName m) (Some cs)));
    [destruct (conferences_list w name) as [[|sid l]|]|]; simpl;
    repeat match goal with
           | |- context [if ?b then _ else _] => destruct b; simpl
           end;
    (split; [reflexivity|]); (split; [|reflexivity]);
    (split; [try discriminate; intros _; repeat constructor
            | try done; intros H; not_attempted H]).
Qed.

Lemma tiers_after_lookup_witness :
  attempts
    (snd (respondWithTts
            (Config true (Some "https://bridge.example"))
            (World (λ _, Some [Byte.x49]) (λ _, Some ["CF1"])
                   (λ _ _, false) (λ _ _ _, true) (λ _ _, true))
            (Some "CA1") "All good." 1700000000000 "k3x9" init))
  = [(1%nat, false); (2%nat, true)].
Proof.
  refine (proj1 (tiers_after_lookup
    (Config true (Some "https://bridge.example"))
    (World (λ _, Some [Byte.x49]) (λ _, Some ["CF1"])
           (λ _ _, false) (λ _ _ _, true) (λ _ _, true))
    (Some "CA1") "All good." 1700000000000 "k3x9" init [Byte.x49] _ _)).
  - split; [reflexivity|]. split; reflexivity.
  - reflexivity.
Defined.

(** C8 as stated fails: the call's metadata holds no conference identifier
    and no conference in progress is found by name; the first and only
    attempt is play-and-rejoin. *)
Lemma tiers_counterexample : ¬ always_three_tiers.
Proof.
  intros H.
  destruct (H (Config true (Some "https://bridge.example"))
              (World (λ _, Some [Byte.x49]) (λ _, Some [])
                     (λ _ _, true) (λ _ _ _, true) (λ _ _, true))
              (Some "CA1") "All good." 1700000000000 "k3x9" init [Byte.x49])
    as (ok1 & ok2 & ok3 & Hatt & _).
  - split; [reflexivity|]. split; reflexivity.
  - reflexivity.
  - destruct ok1, ok2; vm_compute in Hatt; discriminate Hatt.
Qed.

(** *** Stored blobs *)

Lemma blob_id_no_dot now random :
  JS.base36 random = true → JS.has_char "."%char (blob_id now random) = false.
Proof.
  intros H. unfold blob_id.
  rewrite !has_char_app, number_no_dot, (base36_no_dot _ H). done.
Qed.

(** The route finds a blob under the last segment of its URL. *)
Lemma audio_route_blob now random st :
  JS.base36 random = true →
  audio_route (blob_param (blob_id now random)) st
  = match audioStore st !! blob_id now random with
    | None => NotFound
    | Some buf => Served buf
    end.
Proof.
  intros H. unfold audio_route, blob_param.
  by rewrite replace_mp3 by (by apply blob_id_no_dot).
Qed.

(** What a call of [respondWithTts] does to the store and to the timers:
    nothing, or one blob stored under its identifier with its timer. *)
Lemma respond_store cfg w callSid text now random st :
  (audioStore (fst (fst (respondWithTts cfg w callSid text now random st)))
   = audioStore st ∧
   timers (fst (fst (respondWithTts cfg w callSid text now random st)))
   = timers st ∧
   next_timer (fst (fst (respondWithTts cfg w callSid text now random st)))
   = next_timer st ∧
   (¬ configured cfg callSid ∨ synthesizeElevenlabs w text = None))
  ∨ (∃ audioBuf,
       synthesizeElevenlabs w text = Some audioBuf ∧
       audioStore (fst (fst (respondWithTts cfg w callSid text now random st)))
       = <[blob_id now random := audioBuf]> (audioStore st) ∧
       timers (fst (fst (respondWithTts cfg w callSid text now random st)))
       = timers st ++ [Timer (next_timer st) (now + RETENTION_MS)
                             (blob_id now random)] ∧
       next_timer (fst (fst (respondWithTts cfg w callSid text now random st)))
       = S (next_timer st)).
Proof.
  unfold respondWithTts, configured.
  destruct (twilioClient cfg) eqn:Ht; simpl;
    [|left; repeat (split; [done|]); left; intros (? & _); done].
  destruct (JS.truthy (PUBLIC_BASE_URL cfg)) eqn:Hb; simpl;
    [|left; repeat (split; [done|]); left; intros (_ & ? & _); done].
  destruct (JS.truthy callSid) eqn:Hc; simpl;
    [|left; repeat (split; [done|]); left; intros (_ & _ & ?); done].
  destruct (synthesizeElevenlabs w text) as [audioBuf|]; simpl;
    [|left; repeat (split; [done|]); by right].
  right. exists audioBuf. split; [done|].
  unfold lookup_conference. simpl.
  repeat (case_match; simpl in *; simplify_eq); done.
Qed.

Lemma clearTimeout_absent {A} id (q : list (timer A)) :
  pending id q = None → clearTimeout id q = q.
Proof.
  intros H. unfold clearTimeout.
  induction q as [|tm q IH]; [done|].
  assert (tid tm ≠ id) as Hne by (eapply pending_None; [done|left]).
  rewrite filter_cons, decide_True by done. f_equal. apply IH.
  unfold pending in *. rewrite filter_cons, decide_False in H by done. done.
Qed.

Lemma timers_run_timer tm st :
  timers (run_timer tm st) = clearTimeout (tid tm) (timers st).
Proof.
  unfold run_timer. destruct (pending (tid tm) (timers st)) eqn:E; [done|].
  by rewrite clearTimeout_absent.
Qed.

(** A timer that has run is no longer pending, and no timer appears. *)
Lemma timers_after l st tm :
  tm ∈ timers (foldl (λ s tm, run_timer tm s) st l) →
  tm ∈ timers st ∧ tid tm ∉ (tid <$> l).
Proof.
  revert st. induction l as [|x l IH]; intros st; simpl.
  - intros H. split; [done|]. by intros ?%not_elem_of_nil.
  - intros [Hin Hnin]%IH. rewrite timers_run_timer in Hin.
    apply elem_of_clearTimeout in Hin as [Hne Hin].
    split; [done|]. by intros [?|?]%elem_of_cons.
Qed.

(** After the clock reaches [t] no timer due by [t] is pending. *)
Lemma advance_clears t st tm :
  tm ∈ timers (advance t st) → t < deadline tm.
Proof.
  unfold advance. intros [Hin Hnin]%timers_after.
  destruct (decide (deadline tm ≤ t)) as [Hle|]; [|lia].
  exfalso. apply Hnin, list_elem_of_fmap_2.
  by apply list_elem_of_filter.
Qed.

Lemma store_wf_init : wf init.
Proof.
  split; simpl; [constructor|]. by intros tm ?%not_elem_of_nil.
Qed.

Lemma run_timer_wf tm st : wf st → wf (run_timer tm st).
Proof.
  intros [Hnd Hlt]. split.
  - rewrite timers_run_timer. by apply NoDup_fmap_filter.
  - intros x. rewrite timers_run_timer.
    intros [_ Hin]%elem_of_clearTimeout.
    unfold run_timer. destruct (pending _ _); simpl; by apply Hlt.
Qed.

(** A timer that runs deletes its own blob only: another blob stays gone or
    keeps its timer. *)
Lemma run_timer_expiring id d tm st :
  wf st → expiring id d st → expiring id d (run_timer tm st).
Proof.
  intros [Hnd Hlt] Hex.
  unfold expiring. rewrite timers_run_timer.
  unfold run_timer. destruct (pending (tid tm) (timers st)) as [tm'|] eqn:E.
  - simpl. apply pending_Some in E as [Hid Hin'].
    destruct Hex as [Hnone | (tm0 & Hin0 & Hcb & Hd)].
    + left. by rewrite lookup_delete_None; right.
    + destruct (decide (tid tm0 = tid tm)) as [Heq|Hne].
      * left. assert (tm' = tm0) as ->
          by (eapply NoDup_fmap_eq; eauto; congruence).
        rewrite Hcb. apply lookup_delete_eq.
      * right. exists tm0. split; [|done].
        by apply elem_of_clearTimeout.
  - rewrite clearTimeout_absent by done. done.
Qed.

Lemma advance_wf t st : wf st → wf (advance t st).
Proof.
  unfold advance. generalize (due t (timers st)). intros l. revert st.
  induction l as [|tm l IH]; intros st Hwf; simpl; [done|].
  by apply IH, run_timer_wf.
Qed.

Lemma advance_expiring id d t st :
  wf st → expiring id d st → expiring id d (advance t st).
Proof.
  unfold advance. generalize (due t (timers st)). intros l. revert st.
  induction l as [|tm l IH]; intros st Hwf Hex; simpl; [done|].
  apply IH; [by apply run_timer_wf | by apply run_timer_expiring].
Qed.

Lemma respond_wf cfg w callSid text now random st :
  wf st → wf (fst (fst (respondWithTts cfg w callSid text now random st))).
Proof.
  intros [Hnd Hlt].
  destruct (respond_store cfg w callSid text now random st)
    as [(_ & Hq & Hn & _) | (buf & _ & _ & Hq & Hn)];
    unfold wf; rewrite Hq, Hn; [done|].
  split.
  - rewrite fmap_app. apply NoDup_app. split; [done|].
    split; [|apply NoDup_singleton].
    intros x (tm & -> & Hin)%list_elem_of_fmap Hx. simpl in Hx.
    apply list_elem_of_singleton in Hx. specialize (Hlt tm Hin). lia.
  - intros tm [Hin | ->%list_elem_of_singleton]%elem_of_app.
    + specialize (Hlt tm Hin). lia.
    + simpl. lia.
Qed.

(** A call that stores another blob leaves this one as it is. *)
Lemma respond_expiring id d cfg w callSid text now random st :
  blob_id now random ≠ id → expiring id d st →
  expiring id d (fst (fst (respondWithTts cfg w callSid text now random st))).
Proof.
  intros Hne Hex. unfold expiring.
  destruct (respond_store cfg w callSid text now random st)
    as [(Hs & Hq & _) | (buf & _ & Hs & Hq & _)]; rewrite Hs, Hq; [done|].
  destruct Hex as [Hnone | (tm0 & Hin0 & Hcb & Hd)].
  - left. by rewrite lookup_insert_ne.
  - right. exists tm0. split; [|done]. apply elem_of_app. by left.
Qed.

Lemma run_expiring id d cfg w later h st :
  wf st → expiring id d st →
  Forall (λ c, blob_id (call_now c) (call_random c) ≠ id) later →
  wf (run cfg w st later h) ∧ expiring id d (run cfg w st later h) ∧
  ∀ tm, tm ∈ timers (run cfg w st later h) → h < deadline tm.
Proof.
  revert st. induction later as [|c later IH]; intros st Hwf Hex Hl; simpl.
  - split; [by apply advance_wf|]. split; [by apply advance_expiring|].
    intros tm. apply advance_clears.
  - apply Forall_cons in Hl as [Hc Hl].
    apply IH; [| |done].
    + by apply respond_wf, advance_wf.
    + apply respond_expiring; [done|]. by apply advance_expiring.
Qed.

(** A timer that runs before [d] deletes another blob. *)
Lemma run_timer_retained id buf d tm st :
  retained id buf d st →
  (∀ y, y ∈ timers st → tid y = tid tm → deadline y < d) →
  retained id buf d (run_timer tm st).
Proof.
  intros [Hs Hq] Hy. unfold retained. rewrite timers_run_timer.
  split.
  - unfold run_timer.
    destruct (pending (tid tm) (timers st)) as [tm'|] eqn:E; [|done].
    simpl. apply pending_Some in E as [Hid Hin].
    rewrite lookup_delete_ne; [done|].
    intros Hcb. specialize (Hq tm' Hin Hcb). specialize (Hy tm' Hin Hid). lia.
  - intros x [_ Hin]%elem_of_clearTimeout. by apply Hq.
Qed.

Lemma timers_retained id buf d l st :
  retained id buf d st →
  (∀ x y, x ∈ l → y ∈ timers st → tid y = tid x → deadline y < d) →
  retained id buf d (foldl (λ s tm, run_timer tm s) st l).
Proof.
  revert st. induction l as [|tm l IH]; intros st Hre Hl; simpl; [done|].
  apply IH.
  - apply run_timer_retained; [done|]. intros y. apply Hl. left.
  - intros x y Hx. rewrite timers_run_timer.
    intros [_ Hin]%elem_of_clearTimeout. apply Hl; [by right | done].
Qed.

(** While the clock stays before [d], the blob is kept. *)
Lemma advance_retained id buf d t st :
  wf st → t < d → retained id buf d st → retained id buf d (advance t st).
Proof.
  intros [Hnd _] Ht Hre. unfold advance. apply timers_retained; [done|].
  intros x y [Hd Hx]%list_elem_of_filter Hy Hid.
  assert (y = x) as -> by (eapply NoDup_fmap_eq; eauto).
  lia.
Qed.

(** A call that stores another blob keeps this one. *)
Lemma respond_retained id buf d cfg w callSid text now random st :
  blob_id now random ≠ id → retained id buf d st →
  retained id buf d
    (fst (fst (respondWithTts cfg w callSid text now random st))).
Proof.
  intros Hne [Hs Hq]. unfold retained.
  destruct (respond_store cfg w callSid text now random st)
    as [(Hst & Htm & _) | (b & _ & Hst & Htm & _)]; rewrite Hst, Htm; [done|].
  split; [by rewrite lookup_insert_ne|].
  intros tm [Hin | ->%list_elem_of_singleton]%elem_of_app; [by apply Hq|].
  simpl. intros Heq. done.
Qed.

Lemma run_retained id buf d cfg w later h st :
  wf st → retained id buf d st →
  Forall (λ c, blob_id (call_now c) (call_random c) ≠ id ∧ call_now c < d)
         later →
  h < d →
  retained id buf d (run cfg w st later h).
Proof.
  revert st. induction later as [|c later IH]; intros st Hwf Hre Hl Hh; simpl.
  - by apply advance_retained.
  - apply Forall_cons in Hl as [[Hc Ht] Hl].
    apply IH; [| |done..].
    + by apply respond_wf, advance_wf.
    + apply respond_retained; [done|]. by apply advance_retained.
Qed.

(** C9. A blob stored by [respondWithTts] under an identifier made of the
    clock and a base-36 random string is served by the route under the last
    segment of its URL with the bytes that were synthesized: right after the
    call, and, when the identifier is fresh, at every time before 300000 ms
    have passed, whatever other blobs are stored in between under other
    identifiers; and once 300000 ms have passed it has been deleted and the
    route answers not-found. *)
Theorem blob_served_then_expired cfg w callSid text now random st audioBuf :
  wf st → configured cfg callSid → synthesizeElevenlabs w text = Some audioBuf →
  JS.base36 random = true →
  audio_route (blob_param (blob_id now random))
    (fst (fst (respondWithTts cfg w callSid text now random st)))
  = Served audioBuf
  ∧ (fresh (blob_id now random) st →
     ∀ later h,
       Forall (λ c, blob_id (call_now c) (call_random c) ≠ blob_id now random
                    ∧ call_now c < now + RETENTION_MS) later →
       h < now + RETENTION_MS →
       audio_route (blob_param (blob_id now random))
         (run cfg w
              (fst (fst (respondWithTts cfg w callSid text now random st)))
              later h)
       = Served audioBuf)
  ∧ (∀ later h,
       Forall (λ c, blob_id (call_now c) (call_random c) ≠ blob_id now random)
              later →
       now + RETENTION_MS ≤ h →
       audio_route (blob_param (blob_id now random))
         (run cfg w
              (fst (fst (respondWithTts cfg w callSid text now random st)))
              later h)
       = NotFound).
Proof.
  intros Hwf Hcfg Hs Hr.
  pose proof (respond_wf cfg w callSid text now random st Hwf) as Hwf1.
  destruct (respond_store cfg w callSid text now random st)
    as [(_ & _ & _ & [Hn|Hn]) | (buf & Hb & Hst & Hq & _)];
    [done | congruence |].
  assert (buf = audioBuf) as -> by congruence.
  split; [|split].
  - rewrite audio_route_blob by done. by rewrite Hst, lookup_insert_eq.
  - intros Hfresh later h Hl Hh. rewrite audio_route_blob by done.
    destruct (run_retained (blob_id now random) audioBuf (now + RETENTION_MS)
                cfg w later h _ Hwf1) as [-> _]; [|done..].
    split; [by rewrite Hst, lookup_insert_eq|].
    rewrite Hq.
    intros tm [Hin | ->%list_elem_of_singleton]%elem_of_app Hcb;
      [by apply Hfresh in Hin | simpl; lia].
  - intros later h Hl Hh. rewrite audio_route_blob by done.
    destruct (run_expiring (blob_id now random) (now + RETENTION_MS) cfg w
                later h _ Hwf1) as (_ & [Hnone | (tm & Hin & _ & Hd)] & Hclr);
      [|done| by rewrite Hnone |].
    + right. exists (Timer (next_timer st) (now + RETENTION_MS)
                           (blob_id now random)).
      split; [|done]. rewrite Hq. apply elem_of_app. right. left.
    + specialize (Hclr tm Hin). lia.
Qed.

Lemma blob_served_then_expired_witness :
  audio_route "1700000000000-k3x9.mp3"
    (fst (fst (respondWithTts
                    (Config true (Some "https://bridge.example"))
                    (World (λ _, Some [Byte.x49; Byte.x44; Byte.x33]) (λ _, Some ["CF1"])
              (λ _ _, true) (λ _ _ _, true) (λ _ _, true))
                    (Some "CA1") "All good." 1700000000000 "k3x9" init)))
  = Served [Byte.x49; Byte.x44; Byte.x33]
  ∧ audio_route "1700000000000-k3x9.mp3"
      (run (Config true (Some "https://bridge.example"))
           (World (λ _, Some [Byte.x49; Byte.x44; Byte.x33]) (λ _, Some ["CF1"])
              (λ _ _, true) (λ _ _ _, true) (λ _ _, true))
           (fst (fst (respondWithTts
                    (Config true (Some "https://bridge.example"))
                    (World (λ _, Some [Byte.x49; Byte.x44; Byte.x33]) (λ _, Some ["CF1"])
              (λ _ _, true) (λ _ _ _, true) (λ _ _, true))
                    (Some "CA1") "All good." 1700000000000 "k3x9" init)))
           [Call (Some "CA1") "Still good." 1700000100000 "p0q1"] 1700000299999)
    = Served [Byte.x49; Byte.x44; Byte.x33]
  ∧ audio_route "1700000000000-k3x9.mp3"
      (run (Config true (Some "https://bridge.example"))
           (World (λ _, Some [Byte.x49; Byte.x44; Byte.x33]) (λ _, Some ["CF1"])
              (λ _ _, true) (λ _ _ _, true) (λ _ _, true))
           (fst (fst (respondWithTts
                    (Config true (Some "https://bridge.example"))
                    (World (λ _, Some [Byte.x49; Byte.x44; Byte.x33]) (λ _, Some ["CF1"])
              (λ _ _, true) (λ _ _ _, true) (λ _ _, true))
                    (Some "CA1") "All good." 1700000000000 "k3x9" init)))
           [Call (Some "CA1") "Still good." 1700000100000 "p0q1"] 1700000300000)
    = NotFound.
Proof.
  pose proof (blob_served_then_expired
    (Config true (Some "https://bridge.example"))
    (World (λ _, Some [Byte.x49; Byte.x44; Byte.x33]) (λ _, Some ["CF1"])
           (λ _ _, true) (λ _ _ _, true) (λ _ _, true))
    (Some "CA1") "All good." 1700000000000 "k3x9" init
    [Byte.x49; Byte.x44; Byte.x33] store_wf_init
    (conj eq_refl (conj eq_refl eq_refl)) eq_refl eq_refl)
    as (Hnow & Hkept & Hgone).
  split; [exact Hnow|]. split.
  - apply (Hkept (λ tm Hin, False_ind _ (not_elem_of_nil tm Hin))
             [Call (Some "CA1") "Still good." 1700000100000 "p0q1"] 1700000299999).
    + apply Forall_cons. split; [|by apply Forall_nil].
      split; [vm_compute; discriminate | unfold RETENTION_MS; simpl; lia].
    + unfold RETENTION_MS. lia.
  - apply (Hgone [Call (Some "CA1") "Still good." 1700000100000 "p0q1"] 1700000300000).
    + apply Forall_cons. split; [|by apply Forall_nil].
      vm_compute. discriminate.
    + unfold RETENTION_MS. lia.
Defined.

Example blob_expired :
  audio_route "1700000000000-k3x9.mp3"
    (run (Config true (Some "https://bridge.example"))
         (World (λ _, Some [Byte.x49; Byte.x44; Byte.x33]) (λ _, Some ["CF1"])
                (λ _ _, true) (λ _ _ _, true) (λ _ _, true))
         init
         [Call (Some "CA1") "All good." 1700000000000 "k3x9";
          Call (Some "CA1") "Still good." 1700000100000 "p0q1"]
         1700000300000)
  = NotFound.
Proof. vm_compute. reflexivity. Qed.

End PlaybackFacts.

(** ** Mu-law decoding *)

Module MulawFacts.
Import Mulaw.

Example decode_silence_and_extremes :
  muLawDecodeSample 255 = 64 ∧ muLawDecodeSample 127 = -64 ∧
  muLawDecodeSample 128 = 32767 ∧ muLawDecodeSample 0 = -32768 ∧
  decodeMulawToPcm16 [Byte.xff; Byte.x7f; Byte.x80]
  = Some [Byte.x40; Byte.x00; Byte.xc0; Byte.xff; Byte.xff; Byte.x7f].
Proof. vm_compute. repeat split; reflexivity. Qed.

Lemma to_int32_small x : -2147483648 ≤ x < 2147483648 → to_int32 x = x.
Proof.
  intros H. unfold to_int32. rewrite Z.mod_small by lia. lia.
Qed.

(** [~mu & 0xff] is a byte, whatever the number. *)
Lemma complement_byte mu : 0 ≤ bit_and (bit_not mu) 255 < 256.
Proof.
  unfold bit_and.
  assert (0 ≤ Z.land (bit_not mu) 255 < 256) as H.
  { change 255 with (Z.ones 8). rewrite Z.land_ones by lia.
    apply Z.mod_pos_bound. lia. }
  rewrite to_int32_small by lia. done.
Qed.

(** A property of [muLawDecodeSample] that holds for each of the 256 values
    of [~mu & 0xff] holds for every argument. *)
Lemma for_every_code (P : Z → Prop) `{∀ x, Decision (P x)} :
  bool_decide
    (Forall (λ m,
       P (let exponent := bit_and (shift_right m 4) 7 in
          let mantissa := bit_and m 15 in
          let magnitude :=
            shift_left (shift_left mantissa 4 + 8) (exponent + 3) in
          Z.max (-32768)
            (Z.min 32767
               ((if bool_decide (bit_and m 128 = 0) then 1 else -1)
                * magnitude))))
       (seqZ 0 256)) = true →
  ∀ mu, P (muLawDecodeSample mu).
Proof.
  intros Hall mu. apply bool_decide_eq_true_1 in Hall.
  rewrite Forall_forall in Hall. unfold muLawDecodeSample.
  apply (Hall (bit_and (bit_not mu) 255)).
  apply elem_of_seqZ. pose proof (complement_byte mu). lia.
Qed.

(** The clamp keeps every sample in the range [writeInt16LE] accepts. *)
Lemma sample_clamped mu : -32768 ≤ muLawDecodeSample mu ≤ 32767.
Proof. unfold muLawDecodeSample. lia. Qed.

(** Every decoded sample fits [int16], which is what [writeInt16LE]
    requires, and none is zero: the quietest codes decode to 64 and -64. *)
Theorem sample_in_int16 mu :
  -32768 ≤ muLawDecodeSample mu ≤ 32767 ∧ 64 ≤ Z.abs (muLawDecodeSample mu).
Proof.
  revert mu.
  apply (for_every_code (λ s, -32768 ≤ s ≤ 32767 ∧ 64 ≤ Z.abs s)).
  vm_compute. reflexivity.
Qed.

(** The top bit of the code is the sign: the codes below 128 decode to
    negative samples, and setting the top bit gives the opposite sample,
    up to the clamp at 32767. *)
Theorem top_bit_is_sign b :
  0 ≤ b < 128 →
  muLawDecodeSample b < 0 ∧
  muLawDecodeSample (b + 128) = Z.min 32767 (- muLawDecodeSample b).
Proof.
  intros Hb.
  assert (bool_decide
            (Forall (λ b, muLawDecodeSample b < 0 ∧
                          muLawDecodeSample (b + 128)
                          = Z.min 32767 (- muLawDecodeSample b))
                    (seqZ 0 128)) = true) as Hall
    by (vm_compute; reflexivity).
  apply bool_decide_eq_true_1 in Hall.
  rewrite Forall_forall in Hall. apply Hall, elem_of_seqZ. lia.
Qed.

Lemma top_bit_is_sign_witness :
  muLawDecodeSample (5 + 128) = Z.min 32767 (- muLawDecodeSample 5).
Proof. refine (proj2 (top_bit_is_sign 5 _)). lia. Defined.

(** *** Writing and reading samples *)

Lemma byte_value_low_byte x : byte_value (low_byte x) = x `mod` 256.
Proof.
  unfold byte_value, low_byte.
  pose proof (Z.mod_pos_bound x 256 eq_refl) as Hm.
  destruct (Byte.of_N (Z.to_N (x `mod` 256))) as [b|] eqn:E; simpl.
  - apply Byte.to_of_N in E. rewrite E. lia.
  - apply Byte.of_N_None_iff in E. lia.
Qed.

(** Two bytes written for a value of [int16] read back as that value. *)
Lemma int16_bytes value :
  -32768 ≤ value ≤ 32767 →
  (let u := value `mod` 256 + 256 * ((value / 256) `mod` 256) in
   if bool_decide (u < 32768) then u else u - 65536) = value.
Proof.
  intros Hv. cbv zeta.
  pose proof (Z.div_mod value 256 ltac:(lia)) as Hdm.
  pose proof (Z.mod_pos_bound value 256 eq_refl) as Hm.
  assert (-128 ≤ value / 256 ≤ 127) as Hq by lia.
  destruct (decide (0 ≤ value / 256)) as [Hpos|Hneg].
  - rewrite (Z.mod_small (value / 256)) by lia.
    rewrite bool_decide_eq_true_2 by lia. lia.
  - assert ((value / 256) `mod` 256 = value / 256 + 256) as ->.
    { symmetry. apply (Z.mod_unique _ _ (-1)); lia. }
    rewrite bool_decide_eq_false_2 by lia. lia.
Qed.

Lemma writeInt16LE_spec value offset buf :
  -32768 ≤ value ≤ 32767 → (offset + 2 ≤ length buf)%nat →
  ∃ buf', writeInt16LE value offset buf = Some buf' ∧
          length buf' = length buf ∧
          readInt16LE offset buf' = Some value ∧
          ∀ i, i ≠ offset → i ≠ S offset → buf' !! i = buf !! i.
Proof.
  intros Hv Ho. unfold writeInt16LE.
  rewrite !bool_decide_eq_true_2 by done.
  eexists. split; [done|]. split; [by rewrite !length_insert|]. split.
  - unfold readInt16LE.
    rewrite list_lookup_insert_ne by lia.
    rewrite list_lookup_insert_eq by lia.
    rewrite list_lookup_insert_eq by (rewrite length_insert; lia).
    rewrite !byte_value_low_byte. f_equal. by apply int16_bytes.
  - intros i H1 H2. by rewrite !list_lookup_insert_ne by done.
Qed.

(** The loop writes the samples of the remaining codes at their places and
    leaves the samples already written alone. *)
Lemma decode_loop_spec mu i pcm :
  length pcm = ((i + length mu) * 2)%nat →
  ∃ pcm', decode_loop mu i pcm = Some pcm' ∧
          length pcm' = length pcm ∧
          (∀ j, (j < i * 2)%nat → pcm' !! j = pcm !! j) ∧
          ∀ k b, mu !! k = Some b →
                 readInt16LE ((i + k) * 2) pcm'
                 = Some (muLawDecodeSample (byte_value b)).
Proof.
  revert i pcm. induction mu as [|b mu IH]; intros i pcm Hlen;
    cbn [decode_loop length] in *.
  - exists pcm. repeat split; [done..|]. intros k b. by rewrite lookup_nil.
  - destruct (writeInt16LE_spec (muLawDecodeSample (byte_value b)) (i * 2) pcm)
      as (pcm1 & -> & Hl1 & Hr1 & Hk1);
      [apply sample_clamped | lia |].
    destruct (IH (S i) pcm1) as (pcm2 & -> & Hl2 & Hk2 & Hr2); [lia|].
    exists pcm2. split; [done|]. split; [congruence|]. split.
    + intros j Hj. rewrite Hk2 by lia. apply Hk1; lia.
    + intros [|k] b' Hb; simpl in Hb.
      * injection Hb as <-. rewrite Nat.add_0_r.
        unfold readInt16LE in *.
        rewrite !Hk2 by lia. done.
      * replace ((i + S k) * 2)%nat with ((S i + k) * 2)%nat by lia.
        by apply Hr2.
Qed.

(** [decodeMulawToPcm16] never throws: it returns a buffer of twice as
    many bytes as it was given codes, holding at offset [2 i] the sample of
    code [i] as a little-endian [int16]. *)
Theorem decode_writes_every_sample mu :
  ∃ pcm, decodeMulawToPcm16 mu = Some pcm ∧
         length pcm = (length mu * 2)%nat ∧
         ∀ i b, mu !! i = Some b →
                readInt16LE (i * 2) pcm
                = Some (muLawDecodeSample (byte_value b)).
Proof.
  unfold decodeMulawToPcm16.
  destruct (decode_loop_spec mu 0 (replicate (length mu * 2) Byte.x00))
    as (pcm & Hd & Hl & _ & Hr).
  - by rewrite length_replicate.
  - exists pcm. split; [done|]. split.
    + by rewrite Hl, length_replicate.
    + intros i b Hb. by apply (Hr i b).
Qed.

End MulawFacts.

(** ** Audio relay: what is written to the socket *)

Module RelayMoreFacts.
Import Relay RelayFacts.

Lemma frames_of_cons e evs :
  frames_of (e :: evs) = frames_of [e] ++ frames_of evs.
Proof. unfold frames_of. simpl. by destruct e. Qed.

(** One event: what it writes and what it leaves in the queue come, in
    order, from the queue and from the frame it hands over. *)
Lemma step_writes c e :
  (ready c = true → ws c = Some OPEN → pending c = []) →
  sampleRate (step c e) = sampleRate c ∧
  (ready (step c e) = true → ws (step c e) = Some OPEN →
   pending (step c e) = []) ∧
  ∃ l, sent (step c e) = sent c ++ (input_audio_chunk c <$> l) ∧
       sublist (l ++ pending (step c e)) (pending c ++ frames_of [e]).
Proof.
  intros Hinv. destruct e as [| | | | |buf]; simpl.
  - assert (sampleRate (connect c) = sampleRate c ∧
            pending (connect c) = pending c ∧ sent (connect c) = sent c ∧
            (ws (connect c) = Some OPEN → ws c = Some OPEN) ∧
            ready (connect c) = ready c) as (Hs & Hp & Hw & Ho & Hr).
    { unfold connect. repeat case_match; simpl; done. }
    split; [done|]. rewrite Hp, Hw, Hr. split; [auto|].
    exists []. simpl. by rewrite !app_nil_r.
  - rewrite on_open_spec. simpl. split; [done|]. split; [done|].
    exists (pending c). by rewrite !app_nil_r.
  - split; [done|]. split; [done|]. exists []. simpl.
    rewrite !app_nil_r. split; [done|]. apply sublist_nil_l.
  - split; [done|]. split; [done|]. exists []. simpl.
    by rewrite !app_nil_r.
  - split; [done|]. split; [done|]. exists []. simpl.
    rewrite !app_nil_r. split; [done|]. apply sublist_nil_l.
  - unfold sendAudio.
    destruct (ready c && is_open (ws c)) eqn:E; simpl.
    + apply andb_true_iff in E as [Hr Hw].
      apply bool_decide_eq_true_1 in Hw.
      split; [done|]. split; [done|]. exists [buf]. split; [done|].
      by rewrite (Hinv Hr Hw).
    + split; [done|]. split.
      * intros Hr Hw. rewrite Hr in E. unfold is_open in E.
        by rewrite bool_decide_eq_true_2 in E.
      * exists []. simpl. by rewrite app_nil_r.
Qed.

(** From a client whose queue is empty whenever its connection is ready and
    open (a new client is one), whatever happens (connects, opens, errors,
    closes, frames), the frames written to the socket and then the frames
    still queued are, in that order, frames of the queue and frames handed to
    [sendAudio] in their order of arrival: nothing is written twice, out of
    order, or without having been handed over; and each is written as an
    uncommitted chunk at the client's sample rate. *)
Theorem written_frames_in_arrival_order evs c :
  (ready c = true → ws c = Some OPEN → pending c = []) →
  ∃ l, sent (exec c evs) = sent c ++ (input_audio_chunk c <$> l) ∧
       sublist (l ++ pending (exec c evs)) (pending c ++ frames_of evs).
Proof.
  revert c. induction evs as [|e evs IH]; intros c Hinv.
  - exists []. simpl. by rewrite !app_nil_r.
  - destruct (step_writes c e Hinv) as (Hrate & Hinv' & l1 & Hs1 & Hsub1).
    destruct (IH (step c e) Hinv') as (l2 & Hs2 & Hsub2).
    exists (l1 ++ l2). unfold exec in *. cbn [foldl]. split.
    + rewrite Hs2, Hs1, fmap_app, app_assoc.
      unfold input_audio_chunk. by rewrite Hrate.
    + rewrite frames_of_cons, <- (app_assoc l1).
      etrans; [apply sublist_app; [reflexivity|exact Hsub2]|].
      rewrite !app_assoc. by apply sublist_app.
Qed.

Lemma written_frames_in_arrival_order_witness :
  ∃ l, sent (exec (new true 8000)
               [SendAudio [Byte.x01]; Connect; WsOpen; SendAudio [Byte.x02];
                Close; SendAudio [Byte.x03]])
       = sent (new true 8000) ++ (input_audio_chunk (new true 8000) <$> l) ∧
       sublist
         (l ++ pending (exec (new true 8000)
                          [SendAudio [Byte.x01]; Connect; WsOpen;
                           SendAudio [Byte.x02]; Close; SendAudio [Byte.x03]]))
         (pending (new true 8000)
          ++ frames_of [SendAudio [Byte.x01]; Connect; WsOpen;
                        SendAudio [Byte.x02]; Close; SendAudio [Byte.x03]]).
Proof.
  apply (written_frames_in_arrival_order
           [SendAudio [Byte.x01]; Connect; WsOpen; SendAudio [Byte.x02];
            Close; SendAudio [Byte.x03]] (new true 8000)).
  simpl. discriminate.
Defined.

End RelayMoreFacts.

(** ** Transcript classifier *)

Module ClassifierFacts.
Import Classifier JSFacts.

Example split_pieces :
  split_on ","%char "hey assistant, ok bridge,,x"
  = ["hey assistant"; " ok bridge"; ""; "x"].
Proof. vm_compute. reflexivity. Qed.

Lemma prefix_occurs p s :
  String.prefix p s = true ↔ ∃ b, s = p +:+ b.
Proof.
  revert s. induction p as [|a p IH]; intros s.
  - split; [intros _; by exists s|]. by destruct s.
  - destruct s as [|c s]; simpl.
    + split; [done|]. intros [b Hb]. discriminate Hb.
    + destruct (Ascii.ascii_dec a c) as [->|Hne].
      * rewrite IH. split; intros [b Hb]; exists b.
        -- by rewrite append_cons, <- Hb.
        -- rewrite append_cons in Hb. by injection Hb.
      * split; [done|]. intros [b Hb]. rewrite append_cons in Hb.
        injection Hb as Hac _. by symmetry in Hac.
Qed.

(** [includes] finds exactly the occurrences. *)
Lemma includes_occurs s p : includes s p = true ↔ occurs p s.
Proof.
  unfold occurs. induction s as [|c s IH]; cbn [includes].
  - rewrite orb_false_r, prefix_occurs. split.
    + intros [b Hb]. by exists EmptyString, b.
    + intros (a & b & Hab). destruct a; [by exists b|discriminate Hab].
  - rewrite orb_true_iff, prefix_occurs, IH. split.
    + intros [[b Hb] | (a & b & Hab)].
      * by exists EmptyString, b.
      * exists (String c a), b. by rewrite append_cons, <- Hab.
    + intros ([|c' a] & b & Hab).
      * left. by exists b.
      * right. rewrite append_cons in Hab. injection Hab as _ Hab.
        by exists a, b.
Qed.

(** The one path of [handleMessage] that ends in a call of the wake
    handler. *)
Lemma handleMessage_wake toLowerCase p c t isCommitted :
  WakeUp t isCommitted ∈ handleMessage toLowerCase p c →
  t ≠ "" ∧ wakeHandler c = true ∧
  existsb (λ ph, includes (toLowerCase t) ph) (wakePhrases c) = true ∧
  isCommitted
  = (bool_decide (message_type p = Some "committed_transcript")
     || bool_decide (message_type p
                     = Some "committed_transcript_with_timestamps")) ∧
  isCommitted || bool_decide (message_type p = Some "partial_transcript")
  = true ∧
  handleMessage toLowerCase p c
  = (if transcriptHandler c then [Transcript t] else [])
    ++ [WakeUp t isCommitted].
Proof.
  unfold handleMessage.
  set (txt := default "" _).
  destruct (String.eqb txt "") eqn:Et; simpl.
  { by intros ?%not_elem_of_nil. }
  apply String.eqb_neq in Et.
  assert (∀ x, WakeUp t isCommitted
               ∈ (if transcriptHandler c then [Transcript txt] else []) ++ x →
               WakeUp t isCommitted ∈ x) as Hlog.
  { intros x [H|H]%elem_of_app; [|done].
    destruct (transcriptHandler c); [|by apply not_elem_of_nil in H].
    by apply list_elem_of_singleton in H. }
  case_bool_decide as Hnil; simpl.
  { intros H. specialize (Hlog [] ltac:(by rewrite app_nil_r)).
    by apply not_elem_of_nil in Hlog. }
  destruct (_ || bool_decide (message_type p = Some "partial_transcript"))
    eqn:Ekind; simpl.
  2:{ intros H. specialize (Hlog [] ltac:(by rewrite app_nil_r)).
      by apply not_elem_of_nil in Hlog. }
  destruct (existsb _ (wakePhrases c)) eqn:Ehit; simpl.
  2:{ intros H. specialize (Hlog [] ltac:(by rewrite app_nil_r)).
      by apply not_elem_of_nil in Hlog. }
  destruct (wakeHandler c); simpl.
  2:{ intros H. specialize (Hlog [] ltac:(by rewrite app_nil_r)).
      by apply not_elem_of_nil in Hlog. }
  intros H%Hlog. apply list_elem_of_singleton in H. injection H as -> ->.
  done.
Qed.

(** A text that makes the wake handler run contains a phrase. *)
Lemma wake_names_phrase toLowerCase p c t isCommitted :
  WakeUp t isCommitted ∈ handleMessage toLowerCase p c →
  ∃ ph, ph ∈ wakePhrases c ∧ occurs ph (toLowerCase t).
Proof.
  intros (_ & _ & Hhit & _)%handleMessage_wake.
  apply existsb_exists in Hhit as (ph & Hin & Hinc).
  exists ph. split; [by apply list_elem_of_In|]. by apply includes_occurs.
Qed.

(** A wake is reported only for a non-empty text of a committed or partial
    transcript whose lower-cased form contains one of the client's phrases;
    it is flagged committed exactly for the two committed kinds; and with a
    transcript handler registered the same text is logged first. *)
Theorem wake_only_on_phrase toLowerCase p c t isCommitted :
  WakeUp t isCommitted ∈ handleMessage toLowerCase p c →
  t ≠ "" ∧ wakeHandler c = true ∧
  (∃ ph, ph ∈ wakePhrases c ∧ occurs ph (toLowerCase t)) ∧
  (isCommitted = true →
   message_type p = Some "committed_transcript" ∨
   message_type p = Some "committed_transcript_with_timestamps") ∧
  (isCommitted = false → message_type p = Some "partial_transcript") ∧
  (transcriptHandler c = true →
   handleMessage toLowerCase p c = [Transcript t; WakeUp t isCommitted]).
Proof.
  intros Hin.
  pose proof (wake_names_phrase _ _ _ _ _ Hin) as Hph.
  apply handleMessage_wake in Hin as (Ht & Hw & _ & Hc & Hkind & Hout).
  split; [done|]. split; [done|]. split; [done|]. split; [|split].
  - intros ->. symmetry in Hc.
    apply orb_true_iff in Hc as [H|H]; apply bool_decide_eq_true_1 in H; auto.
  - intros ->. simpl in Hkind. by apply bool_decide_eq_true_1 in Hkind.
  - intros Hlog. by rewrite Hout, Hlog.
Qed.

Lemma wake_only_on_phrase_witness :
  ∃ ph, ph ∈ ["hey assistant"] ∧ occurs ph "hey assistant, status".
Proof.
  refine (proj1 (proj2 (proj2 (wake_only_on_phrase (λ s, s)
    (Parsed (Some "partial_transcript") (Some "hey assistant, status")
            None None None)
    (Client ["hey assistant"] true true)
    "hey assistant, status" false _)))).
  vm_compute. right. left.
Defined.

Lemma filter_nonempty (l : list string) :
  Forall (λ s, s ≠ "") (filter (λ s, s ≠ "") l).
Proof. apply Forall_forall. by intros s [? _]%list_elem_of_filter. Qed.

(** If [WAKE_PHRASES] is set and not blank but each of its comma-separated
    pieces is blank, the stream client has no phrase, the default phrase is
    not used, and no message makes it report a wake. *)
Theorem blank_pieces_disable_wake toLowerCase trim raw defaultPhrase p :
  raw ≠ "" → trim raw ≠ "" →
  Forall (λ piece, toLowerCase (trim piece) = "") (split_on ","%char raw) →
  wakePhrases (stream_client toLowerCase trim (Some raw) defaultPhrase) = [] ∧
  ∀ t isCommitted,
    WakeUp t isCommitted
    ∉ handleMessage toLowerCase p
        (stream_client toLowerCase trim (Some raw) defaultPhrase).
Proof.
  intros Hraw Htrim Hblank.
  assert (parseWakeList toLowerCase trim (Some raw) defaultPhrase = []) as Hp.
  { unfold parseWakeList. simpl.
    rewrite (proj2 (String.eqb_neq raw "")) by done. simpl.
    destruct (trim raw) as [|c s] eqn:E; [done|]. simpl.
    induction (split_on ","%char raw) as [|piece l IH]; [done|].
    apply Forall_cons in Hblank as [Hpiece Hl].
    rewrite fmap_cons, filter_cons, decide_False by (by intros H; apply H).
    by apply IH. }
  assert (wakePhrases (stream_client toLowerCase trim (Some raw) defaultPhrase)
          = []) as Hw.
  { unfold stream_client, construct. simpl. by rewrite Hp. }
  split; [done|].
  intros t isCommitted Hin.
  apply wake_names_phrase in Hin as (ph & Hph & _).
  rewrite Hw in Hph. by apply not_elem_of_nil in Hph.
Qed.

Lemma blank_pieces_disable_wake_witness :
  wakePhrases (stream_client (λ s, s) (λ s, s) (Some ",") "hey assistant")
  = [].
Proof.
  refine (proj1 (blank_pieces_disable_wake (λ s, s) (λ s, s) ","
                   "hey assistant" not_json _ _ _)).
  - discriminate.
  - discriminate.
  - repeat constructor.
Defined.

End ClassifierFacts.

(** ** From recognition messages to wakes *)

Module SessionFacts.
Import Wake WakeFacts Classifier ClassifierFacts Session.

Example message_to_wake :
  snd (Session.exec (λ s, s) Wake.init
         [Recognized "CA1" (Client ["hey assistant"] true true)
            (Parsed (Some "partial_transcript") (Some "hey assist")
                    None None None) 1000000 1000000;
          Recognized "CA1" (Client ["hey assistant"] true true)
            (Parsed (Some "partial_transcript") (Some "hey assistant status")
                    None None None) 1000400 1000400;
          TimerRuns 0 1002900 1002900])
  = [Trigger "CA1" "hey assistant status" 1002900].
Proof. vm_compute. reflexivity. Qed.

(** Texts with a property: if every recorded partial and every text handed
    to [handleWake] has it, so has every wake dispatched and every partial
    recorded afterwards. *)
Lemma step_texts (P : string → Prop) st e :
  (∀ k p, partialWakeTimers st !! k = Some p → P (snd p)) →
  match e with EvWake _ text _ _ _ => P text | EvTimer _ _ _ => True end →
  (∀ k p, partialWakeTimers (fst (Wake.step st e)) !! k = Some p → P (snd p)) ∧
  ∀ tr, tr ∈ snd (Wake.step st e) → P (trig_text tr).
Proof.
  intros Hrec He.
  destruct e as [cs text c now now2 | id now now2]; simpl.
  - unfold handleWake. case_bool_decide.
    { split; [done|]. by intros tr ?%not_elem_of_nil. }
    destruct c; simpl.
    + split.
      * intros k p. destruct (partialWakeTimers st !! cs); simpl;
          [intros [_ Hk]%lookup_delete_Some|intros Hk]; by eapply Hrec.
      * by intros tr ->%list_elem_of_singleton.
    + split; [|by intros tr ?%not_elem_of_nil].
      intros k p [[_ <-]|[_ Hk]]%lookup_insert_Some; [done|by eapply Hrec].
  - destruct (pending id (timers st)) as [tm|];
      [|split; [done|by intros tr ?%not_elem_of_nil]].
    unfold onPartialTimer. simpl.
    assert (∀ k p, delete (Timers.callback tm) (partialWakeTimers st) !! k = Some p →
                   P (snd p)) as Hdel
      by (intros k p [_ Hk]%lookup_delete_Some; by eapply Hrec).
    destruct (partialWakeTimers st !! Timers.callback tm) as [p|] eqn:E;
      [case_bool_decide|]; simpl;
      (split; [done|]); try (by intros tr ?%not_elem_of_nil).
    intros tr ->%list_elem_of_singleton. simpl. by eapply Hrec.
Qed.

Lemma callbacks_texts (P : string → Prop) cs out now now2 st :
  (∀ k p, partialWakeTimers st !! k = Some p → P (snd p)) →
  (∀ t c, WakeUp t c ∈ out → P t) →
  (∀ k p, partialWakeTimers (fst (callbacks cs out now now2 st)) !! k = Some p →
          P (snd p)) ∧
  ∀ tr, tr ∈ snd (callbacks cs out now now2 st) → P (trig_text tr).
Proof.
  revert st. induction out as [|[t|t c] out IH]; intros st Hrec Hout.
  - split; [done|]. by intros tr ?%not_elem_of_nil.
  - apply IH; [done|]. intros t' c' Hin. apply (Hout t' c'). by right.
  - cbn [callbacks fst snd].
    destruct (step_texts P st (EvWake cs t c now now2) Hrec) as [Hrec1 Htr1].
    { apply (Hout t c). left. }
    destruct (IH (fst (handleWake cs t c now now2 st)) Hrec1) as [Hrec2 Htr2].
    { intros t' c' Hin. apply (Hout t' c'). by right. }
    split; [done|]. intros tr [Hin|Hin]%elem_of_app; auto.
Qed.

(** From start-up, with every client holding the same phrases, whatever
    messages the recognition sockets deliver and whenever the timers run,
    every wake that is dispatched carries a text whose lower-cased form
    contains one of the phrases. *)
Theorem wakes_name_a_phrase toLowerCase phrases evs :
  Forall (phrases_are phrases) evs →
  ∀ tr, tr ∈ snd (Session.exec toLowerCase Wake.init evs) →
        names_phrase toLowerCase phrases (trig_text tr).
Proof.
  intros Hev.
  assert (∀ k p, partialWakeTimers Wake.init !! k = Some p →
                 names_phrase toLowerCase phrases (snd p)) as Hrec
    by (intros k p; unfold Wake.init; simpl; by rewrite lookup_empty).
  revert Hrec. generalize Wake.init.
  induction evs as [|e evs IH]; intros st Hrec tr; cbn [Session.exec snd].
  - by intros ?%not_elem_of_nil.
  - apply Forall_cons in Hev as [He Hev].
    assert ((∀ k p, partialWakeTimers (fst (Session.step toLowerCase st e)) !! k
                    = Some p → names_phrase toLowerCase phrases (snd p)) ∧
            ∀ tr, tr ∈ snd (Session.step toLowerCase st e) →
                  names_phrase toLowerCase phrases (trig_text tr))
      as [Hrec1 Htr1].
    { destruct e as [cs c p now now2 | id now now2]; simpl.
      - apply callbacks_texts; [done|].
        intros t isC Hin.
        apply wake_names_phrase in Hin as (ph & Hph & Hocc).
        simpl in He. rewrite He in Hph. by exists ph.
      - by apply (step_texts _ st (EvTimer id now now2)). }
    intros [Hin|Hin]%elem_of_app; [by apply Htr1|].
    by apply (IH Hev _ Hrec1).
Qed.

Lemma wakes_name_a_phrase_witness :
  names_phrase (λ s, s) ["hey assistant"] "hey assistant status".
Proof.
  refine (wakes_name_a_phrase (λ s, s) ["hey assistant"]
    [Recognized "CA1" (Client ["hey assistant"] true true)
       (Parsed (Some "partial_transcript") (Some "hey assist")
               None None None) 1000000 1000000;
     Recognized "CA1" (Client ["hey assistant"] true true)
       (Parsed (Some "partial_transcript") (Some "hey assistant status")
               None None None) 1000400 1000400;
     TimerRuns 0 1002900 1002900] _
    (Trigger "CA1" "hey assistant status" 1002900) _).
  - repeat constructor.
  - vm_compute. left.
Defined.

End SessionFacts.

(** ** One call among the others *)

Module DebouncerFacts.
Import Wake WakeFacts Debouncer.

Example one_call_machine :
  call_run "CA1" 0 None
    [(1000000, "hey assist", false); (1001000, "hey assistant please", false);
     (1004000, "hey assistant now", true); (1012000, "hey assistant", true)]
    2000000
  = [Trigger "CA1" "hey assistant please" 1003500;
     Trigger "CA1" "hey assistant" 1012000].
Proof. vm_compute. reflexivity. Qed.

(** The call's own timer running while the call is throttled: the record
    is deleted and nothing is dispatched. *)
Lemma fire_own_throttled cs id text d st :
  wf st → armed cs st id text d →
  d - last_of st cs < THROTTLE_MS →
  idle cs (fst (Wake.step st (fire (Timer id d cs)))) ∧
  lastWake (fst (Wake.step st (fire (Timer id d cs)))) !! cs
  = lastWake st !! cs ∧
  snd (Wake.step st (fire (Timer id d cs))) = [].
Proof.
  intros Hwf [Hp Hin] Hthr. unfold fire; simpl.
  rewrite (wf_pending st id (Timer id d cs) Hwf Hin eq_refl). simpl.
  unfold onPartialTimer, last_of in *; simpl. rewrite Hp.
  rewrite bool_decide_eq_true_2 by lia. simpl.
  unfold idle; simpl. by rewrite lookup_delete_eq.
Qed.

(** The clock reaches [t]: the maps and timers move as the call's
    debouncer does. *)
Lemma advance_shows cs t st last pend :
  wf st → shows cs st last pend →
  wf (fst (advance t st)) ∧
  shows cs (fst (advance t st)) (snd (fst (fire_due cs t last pend)))
        (snd (fire_due cs t last pend)) ∧
  of_call cs (snd (advance t st)) = fst (fst (fire_due cs t last pend)).
Proof.
  intros Hwf [Hlast Hpend]. unfold shows, fire_due.
  destruct pend as [[text d]|].
  - destruct Hpend as [id Harm].
    case_bool_decide as Hdue.
    + (* the timer is due *)
      unfold advance.
      assert (Timer id d cs ∈ due t (timers st)) as Hd.
      { apply list_elem_of_filter. split; [done|]. apply Harm. }
      apply list_elem_of_split_l in Hd as (l1 & l2 & Hsplit & Hnin).
      assert (Forall (λ tm : timer string, tid tm ≠ id) l1) as Hl1.
      { apply Forall_forall. intros tm Hin Hid. apply Hnin.
        assert (tm ∈ due t (timers st)) as Hin'
          by (rewrite Hsplit; apply elem_of_app; by left).
        apply list_elem_of_filter in Hin' as [_ Hin'].
        by rewrite <- (wf_unique st tm _ Hwf Hin' (proj2 Harm) Hid). }
      rewrite Hsplit, fmap_app, exec_app, fmap_cons, exec_cons.
      cbn [fst snd].
      destruct (fire_armed_skip cs id text d l1 st Hwf Harm Hl1)
        as (Hw1 & Ha1 & Hlw1 & Ho1).
      set (st1 := fst (Wake.exec st (fire <$> l1))) in *.
      assert (last_of st1 cs = last) as Hlast1
        by (unfold last_of in *; by rewrite Hlw1).
      pose proof (step_wf st1 (fire (Timer id d cs)) Hw1) as Hw2.
      rewrite !of_call_app, Ho1.
      case_bool_decide as Hthr.
      * destruct (fire_own_throttled cs id text d st1 Hw1 Ha1)
          as (Hi2 & Hlw2 & Ho2); [lia|].
        set (st2 := fst (Wake.step st1 (fire (Timer id d cs)))) in *.
        destruct (fire_idle cs l2 st2 Hw2 Hi2) as (Hw3 & Hi3 & Hlw3 & Ho3).
        rewrite Ho2, Ho3. simpl. split; [done|]. split; [|done].
        split; [|done]. unfold last_of in *. by rewrite Hlw3, Hlw2.
      * destruct (fire_own cs id text d st1 Hw1 Ha1)
          as (Hi2 & Hlw2 & Ho2); [lia|].
        set (st2 := fst (Wake.step st1 (fire (Timer id d cs)))) in *.
        destruct (fire_idle cs l2 st2 Hw2 Hi2) as (Hw3 & Hi3 & Hlw3 & Ho3).
        rewrite Ho2, Ho3, of_call_own. simpl. split; [done|]. split; [|done].
        split; [|done]. unfold last_of. by rewrite Hlw3, Hlw2.
    + destruct (advance_early cs id text d t st Hwf Harm)
        as (Hw1 & Ha1 & Hlw1 & Ho1); [lia|].
      simpl. split; [done|]. split; [|done].
      split; [|by exists id]. unfold last_of in *. by rewrite Hlw1.
  - destruct (advance_idle cs t st Hwf Hpend) as (Hw1 & Hi1 & Hlw1 & Ho1).
    simpl. split; [done|]. split; [|done].
    split; [|done]. unfold last_of in *. by rewrite Hlw1.
Qed.

(** A wake of another call leaves what the state shows of this call. *)
Lemma foreign_shows cs st last pend k text c now now2 :
  wf st → shows cs st last pend → k ≠ cs →
  shows cs (fst (handleWake k text c now now2 st)) last pend ∧
  of_call cs (snd (handleWake k text c now now2 st)) = [].
Proof.
  intros Hwf [Hlast Hpend] Hne.
  destruct pend as [[ptext d]|].
  - destruct Hpend as [id Harm].
    destruct (step_armed cs st id ptext d (EvWake k text c now now2)
                Hwf Harm Hne) as (Ha & Hlw & Ho).
    split; [|done]. split; [|by exists id].
    unfold last_of in *. simpl in Hlw. by rewrite Hlw.
  - destruct (step_idle cs st (EvWake k text c now now2) Hwf Hpend Hne)
      as (Hi & Hlw & Ho).
    split; [|done]. split; [|done].
    unfold last_of in *. simpl in Hlw. by rewrite Hlw.
Qed.

(** A committed wake of the call with the window elapsed. *)
Lemma handleWake_committed cs text now now2 st :
  wf st → THROTTLE_MS ≤ now - last_of st cs →
  idle cs (fst (handleWake cs text true now now2 st)) ∧
  last_of (fst (handleWake cs text true now now2 st)) cs = now2 ∧
  snd (handleWake cs text true now now2 st) = [Trigger cs text now2].
Proof.
  intros Hwf Hthr. unfold handleWake, idle, last_of in *.
  rewrite bool_decide_eq_false_2 by lia. simpl.
  rewrite lookup_insert_eq. simpl.
  destruct (partialWakeTimers st !! cs) eqn:E; simpl;
    [by rewrite lookup_delete_eq|done].
Qed.

(** The debouncer may run a due timer late, as long as it runs before the
    next input and before the horizon. *)
Lemma call_run_lag cs t last pend ins h :
  Forall (λ x, t ≤ fst (fst x)) ins → t ≤ h →
  call_run cs last pend ins h
  = fst (fst (fire_due cs t last pend))
    ++ call_run cs (snd (fst (fire_due cs t last pend)))
                (snd (fire_due cs t last pend)) ins h.
Proof.
  intros Hins Hh.
  destruct pend as [[text d]|]; [|done].
  unfold fire_due at 1 2 3.
  case_bool_decide as Hdue; [|done].
  destruct (bool_decide (d - last < THROTTLE_MS)) eqn:Ethr; cbn [fst snd].
  - destruct ins as [|[[t' text'] c'] ins]; cbn [call_run].
    + unfold fire_due. rewrite (bool_decide_eq_true_2 (d ≤ h)) by lia.
      by rewrite Ethr.
    + apply Forall_cons in Hins as [Ht' _]. simpl in Ht'.
      unfold fire_due. rewrite (bool_decide_eq_true_2 (d ≤ t')) by lia.
      by rewrite Ethr.
  - destruct ins as [|[[t' text'] c'] ins]; cbn [call_run].
    + unfold fire_due. rewrite (bool_decide_eq_true_2 (d ≤ h)) by lia.
      by rewrite Ethr.
    + apply Forall_cons in Hins as [Ht' _]. simpl in Ht'.
      unfold fire_due. rewrite (bool_decide_eq_true_2 (d ≤ t')) by lia.
      rewrite Ethr. cbn [fst snd].
      repeat case_match; done.
Qed.

Lemma own_inputs_cons cs t k text c ins :
  own_inputs cs ((t, InWake k text c) :: ins)
  = if decide (k = cs) then (t, text, c) :: own_inputs cs ins
    else own_inputs cs ins.
Proof. unfold own_inputs. simpl. by destruct (decide (k = cs)). Qed.

Lemma own_inputs_times cs t ins :
  Forall (Z.le t) (fst <$> ins) →
  Forall (λ x, t ≤ fst (fst x)) (own_inputs cs ins).
Proof.
  induction ins as [|[t' [k text c]] ins IH]; intros H; [constructor|].
  rewrite fmap_cons in H. apply Forall_cons in H as [Ht H].
  rewrite own_inputs_cons. destruct (decide (k = cs)); [|by apply IH].
  constructor; [done|by apply IH].
Qed.

(** The wakes of a call in the loop are those of its own debouncer on its
    own inputs. *)
Lemma run_shows cs h ins st last pend :
  wf st → shows cs st last pend →
  StronglySorted Z.le (fst <$> ins) → Forall (λ t, t ≤ h) (fst <$> ins) →
  of_call cs (run st ins h) = call_run cs last pend (own_inputs cs ins) h.
Proof.
  revert st last pend.
  induction ins as [|[t [k text c]] ins IH]; intros st last pend Hwf Hsh Hs Hh.
  - simpl. by apply advance_shows.
  - rewrite fmap_cons in Hs, Hh. simpl in Hs, Hh.
    apply StronglySorted_cons in Hs as [Hle Hs].
    apply Forall_cons in Hh as [Hth Hh].
    rewrite run_cons, !of_call_app, own_inputs_cons.
    destruct (advance_shows cs t st last pend Hwf Hsh) as (Hw1 & Hsh1 & ->).
    set (st1 := fst (advance t st)) in *.
    change (Wake.step st1 (EvWake k text c t t))
      with (handleWake k text c t t st1).
    pose proof (handleWake_wf k text c t t st1 Hw1) as Hw2.
    destruct (decide (k = cs)) as [->|Hne].
    + cbn [call_run]. destruct Hsh1 as [Hlast1 Hpend1].
      set (last1 := snd (fst (fire_due cs t last pend))) in *.
      set (pend1 := snd (fire_due cs t last pend)) in *.
      case_bool_decide as Hthr.
      * assert (handleWake cs text c t t st1 = (st1, [])) as Hno.
        { unfold handleWake. rewrite Hlast1.
          by rewrite bool_decide_eq_true_2. }
        rewrite Hno in *. cbn [fst snd]. rewrite app_nil_l. f_equal.
        by apply IH.
      * destruct c; cbn [negb].
        -- destruct (handleWake_committed cs text t t st1 Hw1)
             as (Hi2 & Hl2 & ->); [lia|].
           rewrite of_call_own. f_equal. cbn [app]. f_equal.
           by apply IH.
        -- destruct (handleWake_partial cs text t t st1 Hw1)
             as (Ha2 & Hl2 & ->); [lia|].
           rewrite app_nil_l. f_equal. apply IH; [done| |done..].
           split; [|by eexists]. unfold last_of in *. by rewrite Hl2.
    + destruct (foreign_shows cs st1 _ _ k text c t t Hw1 Hsh1 Hne)
        as [Hsh2 ->].
      rewrite app_nil_l, (IH _ _ _ Hw2 Hsh2 Hs Hh).
      symmetry. apply (call_run_lag cs t); [|done].
      by apply own_inputs_times.
Qed.

Lemma own_inputs_filter cs ins :
  own_inputs cs (inputs_of cs ins) = own_inputs cs ins.
Proof.
  induction ins as [|[t [k text c]] ins IH]; [done|].
  rewrite inputs_of_cons, own_inputs_cons.
  destruct (decide (k = cs)) as [->|Hne]; [|done].
  rewrite own_inputs_cons, decide_True by done. by rewrite IH.
Qed.

Lemma sorted_filter (ins : list (Z * input)) cs :
  StronglySorted Z.le (fst <$> ins) →
  StronglySorted Z.le (fst <$> inputs_of cs ins).
Proof.
  induction ins as [|[t i] ins IH]; intros H; [constructor|].
  rewrite fmap_cons in H. apply StronglySorted_cons in H as [Hle H].
  unfold inputs_of in *. rewrite filter_cons.
  destruct (decide _); [|by apply IH].
  rewrite fmap_cons. apply StronglySorted_cons. split; [|by apply IH].
  apply Forall_forall. intros t' (x & -> & Hin)%list_elem_of_fmap.
  apply list_elem_of_filter in Hin as [_ Hin].
  rewrite Forall_forall in Hle. apply Hle. by apply list_elem_of_fmap_2.
Qed.

Lemma bounded_filter (ins : list (Z * input)) cs h :
  Forall (λ t, t ≤ h) (fst <$> ins) →
  Forall (λ t, t ≤ h) (fst <$> inputs_of cs ins).
Proof.
  rewrite !Forall_forall. intros H t (x & -> & Hin)%list_elem_of_fmap.
  apply list_elem_of_filter in Hin as [_ Hin].
  apply H. by apply list_elem_of_fmap_2.
Qed.

(** Calls do not interfere. With the inputs of all calls in time order and
    the loop run to a time after the last of them, the wakes dispatched for a
    call are the same as if the inputs of the other calls had never
    arrived: the shared maps and the shared timer queue carry nothing from
    one call to another. *)
Theorem calls_do_not_interfere cs ins h :
  StronglySorted Z.le (fst <$> ins) → Forall (λ t, t ≤ h) (fst <$> ins) →
  of_call cs (run Wake.init ins h)
  = of_call cs (run Wake.init (inputs_of cs ins) h).
Proof.
  intros Hs Hh.
  assert (shows cs Wake.init 0 None) as Hsh by (split; reflexivity).
  rewrite (run_shows cs h ins Wake.init 0 None wf_init Hsh Hs Hh).
  rewrite (run_shows cs h (inputs_of cs ins) Wake.init 0 None wf_init Hsh).
  - by rewrite own_inputs_filter.
  - by apply sorted_filter.
  - by apply bounded_filter.
Qed.

Lemma calls_do_not_interfere_witness :
  of_call "CA1"
    (run Wake.init
       [(1000000, InWake "CA1" "hey assist" false);
        (1000500, InWake "CA2" "hey assistant" true);
        (1001000, InWake "CA1" "hey assistant please" false);
        (1005000, InWake "CA2" "hey assistant late" false)]
       2000000)
  = of_call "CA1"
      (run Wake.init
         (inputs_of "CA1"
            [(1000000, InWake "CA1" "hey assist" false);
             (1000500, InWake "CA2" "hey assistant" true);
             (1001000, InWake "CA1" "hey assistant please" false);
             (1005000, InWake "CA2" "hey assistant late" false)])
         2000000).
Proof.
  refine (calls_do_not_interfere "CA1"
    [(1000000, InWake "CA1" "hey assist" false);
     (1000500, InWake "CA2" "hey assistant" true);
     (1001000, InWake "CA1" "hey assistant please" false);
     (1005000, InWake "CA2" "hey assistant late" false)] 2000000 _ _).
  - repeat constructor; simpl; lia.
  - repeat constructor; simpl; lia.
Defined.

End DebouncerFacts.

